(** * i11e-box: the Box container (src/src/index.js)

    A shallow embedding of class [Box] over an explicit object store.
    JavaScript objects are mutable and shared by reference, so every object
    lives at an address of a [heap] and values hold references; the methods
    of [Box] become functions that take the store and return the new one,
    or the exception they throw.

    Modelled values: undefined, null, booleans, integers, strings, plain
    objects, arrays and instances of class Box.  The store holds the own
    properties of the objects; what the prototypes hold (methods, the
    [__proto__] accessor) is no value of the model, and a step that would
    read or replace it ends in the outcome [Unmodelled], about which
    nothing is stated.  Numbers are the integers among the doubles; strings
    are ASCII.  The conversion of an object to a primitive (JavaScript's
    ToPrimitive, which for a Box runs its [toString] method) is a parameter
    of the development.

    The libraries the class calls are not part of the repository.
    [object-path] (version 0.11), [extend] (version 3.0.2) and the differ
    [deep-diff] (version 0.3) are modelled as they behave on these values;
    [merge] is defined over any [diff] and [applyChange] and studied with
    those of the library.  The identifier generator [shortid] is a
    parameter: the constructor takes the identifier it is handed. *)

From Stdlib Require Import ZArith String Ascii List Lia Bool DecimalString.
From stdpp Require Import base list.
Import ListNotations.
Local Open Scope string_scope.
Set Warnings "-register-all".

(** ** Values and the object store *)

Abbreviation addr := nat.

Inductive value : Type :=
| VUndef
| VNull
| VBool (b : bool)
| VNum (n : Z)
| VStr (s : string)
| VRef (a : addr).

(** What an object is: a plain object ([{}] or a literal), an array, or an
    instance of class [Box]. *)
Inductive kind : Type := KObject | KArray | KBox.

(** Own enumerable properties in insertion order; [olen] is the [length] of
    an array (0 for the other kinds). *)
Record obj : Type := mkObj {
  okind : kind;
  oprops : list (string * value);
  olen : nat
}.

Abbreviation heap := (list obj).

(** Thrown values: a [TypeError] or [RangeError] of the runtime, or an
    [Error] raised by the code with its message.  [Unmodelled] is no
    exception of the program: the embedding stops there, because the
    program goes on with something the store does not record (a changed
    prototype, a property read from a prototype, a conversion of a string to
    a number), and says nothing about what follows. *)
Inductive exn : Type :=
| TypeError (msg : string)
| RangeError (msg : string)
| Error (msg : string)
| Unmodelled (what : string).

Inductive res (A : Type) : Type :=
| Ok (a : A)
| Throw (e : exn).
Arguments Ok {A} a.
Arguments Throw {A} e.

Definition bind {A B} (m : res A) (f : A -> res B) : res B :=
  match m with
  | Ok a => f a
  | Throw e => Throw e
  end.

Notation "'let*' x ':=' m 'in' k" := (bind m (fun x => k))
  (at level 10, x name, m at level 100, k at level 200).

Definition value_eqb (v w : value) : bool :=
  match v, w with
  | VUndef, VUndef => true
  | VNull, VNull => true
  | VBool a, VBool b => Bool.eqb a b
  | VNum a, VNum b => Z.eqb a b
  | VStr a, VStr b => String.eqb a b
  | VRef a, VRef b => Nat.eqb a b
  | _, _ => false
  end.

Definition kind_eqb (k1 k2 : kind) : bool :=
  match k1, k2 with
  | KObject, KObject | KArray, KArray | KBox, KBox => true
  | _, _ => false
  end.

(** ** Association lists of properties *)

Fixpoint alist_get (k : string) (l : list (string * value)) : option value :=
  match l with
  | [] => None
  | (k', v) :: t => if String.eqb k k' then Some v else alist_get k t
  end.

(** Assignment keeps the position of an existing key and appends a new one. *)
Fixpoint alist_set (k : string) (v : value) (l : list (string * value))
  : list (string * value) :=
  match l with
  | [] => [(k, v)]
  | (k', v') :: t =>
      if String.eqb k k' then (k, v) :: t else (k', v') :: alist_set k v t
  end.

Fixpoint alist_del (k : string) (l : list (string * value))
  : list (string * value) :=
  match l with
  | [] => []
  | (k', v') :: t =>
      if String.eqb k k' then t else (k', v') :: alist_del k t
  end.

(** ** Strings: decimal numerals, split and join *)

Definition string_of_nat (n : nat) : string :=
  NilEmpty.string_of_uint (Nat.to_uint n).

(** The decimal numeral of an integer. *)
Definition string_of_Z (n : Z) : string :=
  NilEmpty.string_of_int (Z.to_int n).

(** *** Numbers as JavaScript prints them

    A number of the program is a double.  The integers below 2^53 in
    absolute value are doubles and print as their decimal numerals.  A
    larger integer stands for the double nearest to it, and prints with
    the fewest digits that still single out that double: plain, padded
    with zeros, below 10^21, and with an exponent from there on. *)

(** The double nearest to [z], ties to the even mantissa; [None] when it is
    infinite. *)
Definition round_double (z : Z) : option Z :=
  let a := Z.abs z in
  if Z.ltb a (2 ^ 53) then Some z
  else
    let u := (2 ^ (Z.log2 a - 52))%Z in
    let q := (a / u)%Z in
    let r := (a mod u)%Z in
    let q' := if Z.ltb (2 * r) u then q
              else if Z.ltb u (2 * r) then (q + 1)%Z
              else if Z.even q then q else (q + 1)%Z in
    let m := (q' * u)%Z in
    if Z.ltb m (2 ^ 1024) then Some (Z.sgn z * m)%Z else None.

(** Does the real number [v] round to the double [m >= 2^53]?  The doubles
    next to [m] are one unit [u] away (half a unit below a power of two),
    and a tie goes to [m] when its mantissa is even. *)
Definition rounds_to (m v : Z) : bool :=
  let u := (2 ^ (Z.log2 m - 52))%Z in
  let q := (m / u)%Z in
  let lo := (4 * m - (if Z.eqb q (2 ^ 52) then u else 2 * u))%Z in
  let hi := (4 * m + 2 * u)%Z in
  if Z.even q then Z.leb lo (4 * v) && Z.leb (4 * v) hi
  else Z.ltb lo (4 * v) && Z.ltb (4 * v) hi.

(** The number with the fewest significant digits that rounds to [m]: the
    multiple of the highest power of ten, from [10^j] down, that does, and
    the nearer to [m] of two. *)
Fixpoint shortest_digits (j : nat) (m : Z) : Z :=
  let p := (10 ^ Z.of_nat j)%Z in
  let v1 := (m / p * p)%Z in
  let v2 := (v1 + p)%Z in
  let in1 := Z.ltb 0 v1 && rounds_to m v1 in
  let in2 := rounds_to m v2 in
  if in1 && in2 then
    if Z.ltb (m - v1) (v2 - m) then v1
    else if Z.ltb (v2 - m) (m - v1) then v2
    else if Z.even (v1 / p) then v1 else v2
  else if in1 then v1
  else if in2 then v2
  else match j with
       | 0 => m
       | S j' => shortest_digits j' m
       end.

Fixpoint drop_zeros (fuel : nat) (s : Z) : Z :=
  match fuel with
  | 0 => s
  | S fuel' => if Z.eqb (s mod 10) 0 then drop_zeros fuel' (s / 10)%Z else s
  end.

(** [v > 0] in exponent notation: [d.ddde+x]. *)
Definition exponent_notation (v : Z) : string :=
  let all := string_of_Z v in
  let digits := string_of_Z (drop_zeros (String.length all) v) in
  let x := string_of_nat (String.length all - 1) in
  match digits with
  | String d EmptyString => String d ("e+" ++ x)
  | String d ds => String d ("." ++ ds ++ "e+" ++ x)
  | EmptyString => EmptyString
  end.

(** [String(z)] for the number [z] stands for. *)
Definition number_to_string (z : Z) : string :=
  match round_double z with
  | None => if Z.ltb z 0 then "-Infinity" else "Infinity"
  | Some m =>
      let a := Z.abs m in
      if Z.ltb a (2 ^ 53) then string_of_Z m
      else
        let v := shortest_digits (Z.to_nat (Z.log2 a)) a in
        ((if Z.ltb m 0 then "-" else "")
         ++ (if Z.ltb v (10 ^ 21) then string_of_Z v
             else exponent_notation v))%string
  end.

(** A canonical array index: the decimal numeral of a natural number. *)
Definition key_index (k : string) : option nat :=
  match NilEmpty.uint_of_string k with
  | Some u =>
      let n := Nat.of_uint u in
      if String.eqb (string_of_nat n) k then Some n else None
  | None => None
  end.

(** [s.split('.')]: never empty, [''.split('.')] is [['']]. *)
Fixpoint split_dot_aux (cur : string) (s : string) : list string :=
  match s with
  | EmptyString => [cur]
  | String c t =>
      if Ascii.eqb c "."%char then cur :: split_dot_aux "" t
      else split_dot_aux (cur ++ String c "") t
  end.

Definition split_dot (s : string) : list string := split_dot_aux "" s.

(** [xs.join(sep)] on a list of strings. *)
Fixpoint join (sep : string) (xs : list string) : string :=
  match xs with
  | [] => ""
  | [x] => x
  | x :: t => x ++ sep ++ join sep t
  end.

(** ** Reading the store *)

Definition alloc (h : heap) (o : obj) : heap * addr := ((h ++ [o])%list, length h).

Definition truthy (v : value) : bool :=
  match v with
  | VUndef | VNull => false
  | VBool b => b
  | VNum n => negb (Z.eqb n 0)
  | VStr s => negb (String.eqb s "")
  | VRef _ => true
  end.

(** Own properties of a string primitive: [length] and its characters. *)
Definition string_own (s k : string) : option value :=
  if String.eqb k "length" then Some (VNum (Z.of_nat (String.length s)))
  else match key_index k with
       | Some i =>
           match String.get i s with
           | Some c => Some (VStr (String c ""))
           | None => None
           end
       | None => None
       end.

(** The own property [k] of a value, [None] when it has none.  An array
    also owns [length]. *)
Definition own_prop (h : heap) (v : value) (k : string) : option value :=
  match v with
  | VRef a =>
      match h !! a with
      | Some o =>
          if kind_eqb (okind o) KArray && String.eqb k "length"
          then Some (VNum (Z.of_nat (olen o)))
          else alist_get k (oprops o)
      | None => None
      end
  | VStr s => string_own s k
  | _ => None
  end.

(** [v[k]] for a value that is neither null nor undefined. *)
Definition prop_read (h : heap) (v : value) (k : string) : value :=
  match own_prop h v k with
  | Some w => w
  | None => VUndef
  end.

(** [this.f] on an object. *)
Definition field (h : heap) (this : addr) (f : string) : value :=
  prop_read h (VRef this) f.

(** ** Paths as the accessors receive them *)

(** A path argument: a dotted string or an array of string segments, and
    the other values the guards of the accessors tell apart. *)
Inductive jspath : Type :=
| PUndef
| PNull
| PNum (n : Z)
| PStr (s : string)
| PArr (segs : list string).

Definition path_truthy (p : jspath) : bool :=
  match p with
  | PUndef | PNull => false
  | PNum n => negb (Z.eqb n 0)
  | PStr s => negb (String.eqb s "")
  | PArr _ => true
  end.

(** The string a path becomes in [scope + "." + path]. *)
Definition path_to_str (p : jspath) : string :=
  match p with
  | PUndef => "undefined"
  | PNull => "null"
  | PNum n => number_to_string n
  | PStr s => s
  | PArr segs => join "," segs
  end.

(** ** Numeric strings: does [Number(s)] equal zero?

    [v != false] compares [v] with the number 0; a string is first
    converted by the StringNumericLiteral grammar: surrounding white space
    is dropped, the empty string is 0, then an optionally signed decimal
    literal with optional fraction and exponent, or an unsigned
    hexadecimal, octal or binary integer.  The value of the literal is
    rounded to the nearest number, so that a decimal literal is 0 when its
    digits are, and also when its value is too small to be told from 0. *)

Definition is_ws (c : ascii) : bool :=
  let n := nat_of_ascii c in
  Nat.eqb n 32 || (Nat.leb 9 n && Nat.leb n 13).

Definition is_digit (c : ascii) : bool :=
  let n := nat_of_ascii c in Nat.leb 48 n && Nat.leb n 57.

Definition is_hex (c : ascii) : bool :=
  let n := nat_of_ascii c in
  is_digit c || (Nat.leb 65 n && Nat.leb n 70) || (Nat.leb 97 n && Nat.leb n 102).

Definition is_oct (c : ascii) : bool :=
  let n := nat_of_ascii c in Nat.leb 48 n && Nat.leb n 55.

Definition is_bin (c : ascii) : bool :=
  let n := nat_of_ascii c in Nat.leb 48 n && Nat.leb n 49.

Definition is_zero_char (c : ascii) : bool := Ascii.eqb c "0"%char.

Fixpoint drop_ws (l : list ascii) : list ascii :=
  match l with
  | c :: t => if is_ws c then drop_ws t else l
  | [] => []
  end.

Definition trim_ws (l : list ascii) : list ascii :=
  rev (drop_ws (rev (drop_ws l))).

(** Longest prefix of characters satisfying [p], and the rest. *)
Fixpoint span (p : ascii -> bool) (l : list ascii) : list ascii * list ascii :=
  match l with
  | c :: t =>
      if p c then let (a, b) := span p t in (c :: a, b) else ([], l)
  | [] => ([], [])
  end.

(** A well-formed exponent part, or nothing. *)
Definition exponent_ok (l : list ascii) : bool :=
  match l with
  | [] => true
  | e :: t =>
      if Ascii.eqb e "e"%char || Ascii.eqb e "E"%char then
        let t' := match t with
                  | s :: u =>
                      if Ascii.eqb s "+"%char || Ascii.eqb s "-"%char
                      then u else t
                  | [] => t
                  end in
        match t' with
        | [] => false
        | _ => forallb is_digit t'
        end
      else false
  end.

(** The number a string of decimal digits writes. *)
Definition digits_value (ds : list ascii) : Z :=
  fold_left (fun acc c => (10 * acc + Z.of_nat (nat_of_ascii c - 48))%Z) ds 0%Z.

(** The exponent a well-formed exponent part writes, 0 when there is none. *)
Definition exponent_value (l : list ascii) : Z :=
  match l with
  | [] => 0%Z
  | _ :: t =>
      match t with
      | s :: u =>
          if Ascii.eqb s "-"%char then (- digits_value u)%Z
          else if Ascii.eqb s "+"%char then digits_value u
          else digits_value t
      | [] => 0%Z
      end
  end.

(** [d * 10^e], for a natural number [d], converts to the number 0: it is 0
    or at most 2^-1075, half of the least positive number (halfway, the
    even neighbour 0 is taken). *)
Definition rounds_to_zero (d e : Z) : bool :=
  if Z.leb 0 e then Z.eqb d 0
  else Z.leb (d * 2 ^ 1075) (10 ^ (- e)).

(** An unsigned decimal literal whose value converts to zero. *)
Definition decimal_is_zero (l : list ascii) : bool :=
  let (ip, r1) := span is_digit l in
  let (fp, r2) :=
    match r1 with
    | d :: t => if Ascii.eqb d "."%char then span is_digit t else ([], r1)
    | [] => ([], r1)
    end in
  match (ip ++ fp)%list with
  | [] => false
  | ds =>
      exponent_ok r2
      && rounds_to_zero (digits_value ds)
                        (exponent_value r2 - Z.of_nat (length fp))
  end.

Definition radix_is_zero (p : ascii -> bool) (ds : list ascii) : bool :=
  match ds with
  | [] => false
  | _ => forallb p ds && forallb is_zero_char ds
  end.

Definition number_is_zero (s : string) : bool :=
  match trim_ws (list_ascii_of_string s) with
  | [] => true
  | "0"%char :: "x"%char :: ds | "0"%char :: "X"%char :: ds => radix_is_zero is_hex ds
  | "0"%char :: "o"%char :: ds | "0"%char :: "O"%char :: ds => radix_is_zero is_oct ds
  | "0"%char :: "b"%char :: ds | "0"%char :: "B"%char :: ds => radix_is_zero is_bin ds
  | "+"%char :: ds | "-"%char :: ds => decimal_is_zero ds
  | ds => decimal_is_zero ds
  end.

(** ** Writing the store *)

(** [getKey(key)] of object-path: the number [parseInt(key)] when it
    prints back as [key], which leaves the numerals of the integers that are
    doubles and print without an exponent (and the string 'NaN', see
    [is_int_key]); any other key stays a string. *)
Definition getKey (k : string) : option Z :=
  match NilEmpty.int_of_string k with
  | Some d =>
      match round_double (Z.of_int d) with
      | Some m => if String.eqb (number_to_string m) k then Some m else None
      | None => None
      end
  | None => None
  end.

Definition is_index_key (k : string) : bool :=
  match key_index k with Some _ => true | None => false end.

(** [a.length = n] on an array drops the elements from [n] on. *)
Definition truncate_props (n : nat) (l : list (string * value))
  : list (string * value) :=
  List.filter (fun kv => match key_index (fst kv) with
                    | Some i => Nat.ltb i n
                    | None => true
                    end) l.

(** The length [a.length = w] asks for: [w] converted to a number must be
    an integer below 2^32.  The conversion of a string (or of an object,
    through its primitive) is not modelled. *)
Definition array_length_of (w : value) : res nat :=
  match w with
  | VNum n =>
      if Z.leb 0 n && Z.ltb n (2 ^ 32) then Ok (Z.to_nat n)
      else Throw (RangeError "Invalid array length")
  | VBool b => Ok (if b then 1 else 0)
  | VNull => Ok 0
  | VUndef => Throw (RangeError "Invalid array length")
  | VStr _ | VRef _ => Throw (Unmodelled "array length from a string")
  end.

(** [v[k] = w] for a key that [v] owns or that no prototype answers with a
    setter, in strict-mode code: the property becomes (or stays) an own
    property.  Assigning to a property of a primitive, of null or of
    undefined throws.  On an array an index key moves [length], and
    assigning [length] drops the elements beyond it. *)
Definition write_prop (h : heap) (v : value) (k : string) (w : value) : res heap :=
  match v with
  | VRef a =>
      match h !! a with
      | Some o =>
          match okind o with
          | KArray =>
              if String.eqb k "length" then
                match array_length_of w with
                | Ok n => Ok (<[a := mkObj KArray (truncate_props n (oprops o)) n]> h)
                | Throw e => Throw e
                end
              else
                let len := match key_index k with
                           | Some i => Nat.max (olen o) (S i)
                           | None => olen o
                           end in
                Ok (<[a := mkObj KArray (alist_set k w (oprops o)) len]> h)
          | kd => Ok (<[a := mkObj kd (alist_set k w (oprops o)) (olen o)]> h)
          end
      | None => Throw (TypeError "Cannot set properties of undefined")
      end
  | _ => Throw (TypeError "Cannot create property on a primitive value")
  end.

(** [v[k] = w] in strict-mode code.  [__proto__] is the one key that a
    prototype answers with a setter: unless [v] owns a property of that
    name, assigning a primitive other than null does nothing, and assigning
    an object or null replaces the prototype of [v], which the store does
    not record.  Every other assignment is [write_prop]. *)
Definition assign_prop (h : heap) (v : value) (k : string) (w : value) : res heap :=
  if String.eqb k "__proto__" then
    match v with
    | VUndef | VNull => write_prop h v k w
    | _ =>
        match own_prop h v k with
        | Some _ => write_prop h v k w
        | None =>
            match w with
            | VNull | VRef _ => Throw (Unmodelled "assignment of a prototype")
            | _ => Ok h
            end
        end
    end
  else write_prop h v k w.

(** Names that [Object.prototype], [Array.prototype], the prototypes of the
    primitive wrappers or [Box.prototype] may answer. *)
Definition prototype_names : list string :=
  [ "constructor"; "__proto__"; "hasOwnProperty"; "isPrototypeOf";
    "propertyIsEnumerable"; "toLocaleString"; "toString"; "valueOf";
    "__defineGetter__"; "__defineSetter__"; "__lookupGetter__";
    "__lookupSetter__";
    "new"; "payload"; "set"; "get"; "has"; "del"; "pathMap"; "addTag";
    "setTag"; "hasTag"; "getTag"; "removeTag"; "diff"; "merge"; "union";
    "getId"; "getNotifyTag"; "setNotifyTag"; "getGlossaryTag";
    "setGlossaryTag"; "getScopeTag"; "setScopeTag"; "print" ].

(** [v[k]] read through the prototype chain.  An own property is read as
    it is.  A plain object or a Box answers undefined for a name it does not
    own unless a prototype may hold it; what a prototype holds (a method,
    the prototype itself) is not a modelled value.  An array answers
    undefined for an index it does not own; its other names, and those of a
    primitive, are left to the prototypes. *)
Definition read_prop (h : heap) (v : value) (k : string) : res value :=
  match v with
  | VUndef | VNull =>
      Throw (TypeError "Cannot read properties of null or undefined")
  | _ =>
      match own_prop h v k with
      | Some w => Ok w
      | None =>
          match v with
          | VRef a =>
              match h !! a with
              | Some o =>
                  match okind o with
                  | KArray =>
                      if is_index_key k then Ok VUndef
                      else Throw (Unmodelled "property of a prototype")
                  | _ =>
                      if existsb (String.eqb k) prototype_names
                      then Throw (Unmodelled "property of a prototype")
                      else Ok VUndef
                  end
              | None => Ok VUndef
              end
          | _ => Throw (Unmodelled "property of a prototype")
          end
      end
  end.

(** [for (name in o)]: integer keys in ascending order, then the other
    keys in insertion order. *)
Fixpoint insert_index (k : string) (i : nat) (l : list (string * nat))
  : list (string * nat) :=
  match l with
  | [] => [(k, i)]
  | (k', j) :: t =>
      if Nat.leb i j then (k, i) :: l else (k', j) :: insert_index k i t
  end.

Fixpoint index_keys (ks : list string) : list (string * nat) :=
  match ks with
  | [] => []
  | k :: t =>
      match key_index k with
      | Some i => insert_index k i (index_keys t)
      | None => index_keys t
      end
  end.

Definition for_in_keys (o : obj) : list string :=
  let ks := map fst (oprops o) in
  (map fst (index_keys ks)
   ++ List.filter (fun k => negb (is_index_key k)) ks)%list.

Definition is_kind (h : heap) (v : value) (kd : kind) : bool :=
  match v with
  | VRef a =>
      match h !! a with
      | Some o => kind_eqb (okind o) kd
      | None => false
      end
  | _ => false
  end.

(** ** object-path: the dotted-path accessor the Box delegates to

    The external library, as its version 0.11 behaves on own properties:
    [get] returns the object itself for an empty path, [undefined] as soon
    as a segment is missing or leads through null or undefined. *)

Fixpoint objectPath_get_segs (h : heap) (v : value) (segs : list string) : value :=
  match segs with
  | [] => v
  | k :: rest =>
      match v with
      | VUndef | VNull => VUndef
      | _ =>
          match own_prop h v k with
          | None | Some VUndef => VUndef
          | Some w => objectPath_get_segs h w rest
          end
      end
  end.

Definition objectPath_get (h : heap) (v : value) (path : string) : value :=
  if String.eqb path "" then v
  else objectPath_get_segs h v (split_dot path).

(** [typeof getKey(key) === 'number']: the key is the numeral of an
    integer, or 'NaN', which [parseInt] yields for itself. *)
Definition is_int_key (k : string) : bool :=
  String.eqb k "NaN" || match getKey k with Some _ => true | None => false end.

(** [set]: creates the missing intermediate containers, an array when the
    next segment is a number, and assigns at the last segment. *)
Fixpoint objectPath_set_segs (h : heap) (o : value) (segs : list string)
    (x : value) : res heap :=
  match segs with
  | [] => Ok h
  | k :: rest =>
      match rest with
      | [] => assign_prop h o k x
      | k1 :: _ =>
          let cur := match o with
                     | VUndef | VNull => VUndef
                     | _ => prop_read h o k
                     end in
          match cur with
          | VUndef =>
              let fresh := if is_int_key k1 then mkObj KArray [] 0
                           else mkObj KObject [] 0 in
              let (h1, a) := alloc h fresh in
              let* h2 := assign_prop h1 o k (VRef a) in
              objectPath_set_segs h2 (prop_read h2 o k) rest x
          | _ => objectPath_set_segs h cur rest x
          end
      end
  end.

Definition objectPath_set (h : heap) (o : value) (path : string) (x : value)
  : res heap :=
  if String.eqb path "" then Ok h
  else objectPath_set_segs h o (split_dot path) x.

(** [has]: every segment names an own property (or, for a number on an
    array, lies below its length). *)
Fixpoint objectPath_has_segs (h : heap) (o : value) (segs : list string) : bool :=
  match segs with
  | [] => true
  | k :: rest =>
      let below_length :=
        match getKey k, o with
        | Some z, VRef a =>
            match h !! a with
            | Some ob => kind_eqb (okind ob) KArray && Z.ltb z (Z.of_nat (olen ob))
            | None => false
            end
        | _, _ => false
        end in
      let own := match own_prop h o k with Some _ => true | None => false end in
      if below_length || own
      then objectPath_has_segs h (prop_read h o k) rest
      else false
  end.

Definition objectPath_has (h : heap) (o : value) (path : string) : bool :=
  objectPath_has_segs h o (split_dot path).

(** [arr.splice(start, 1)] on the properties of an array. *)
Definition splice_start (k : string) (len : nat) : nat :=
  match getKey k with
  | Some z =>
      if Z.ltb z 0 then Z.to_nat (Z.max (Z.of_nat len + z) 0)
      else Nat.min (Z.to_nat z) len
  | None => 0
  end.

Fixpoint splice_props (start : nat) (l : list (string * value))
  : list (string * value) :=
  match l with
  | [] => []
  | (k, v) :: t =>
      match key_index k with
      | Some i =>
          if Nat.ltb i start then (k, v) :: splice_props start t
          else if Nat.eqb i start then splice_props start t
          else (string_of_nat (Nat.pred i), v) :: splice_props start t
      | None => (k, v) :: splice_props start t
      end
  end.

(** [del]: removes the property at the path when the path exists; an
    element of an array is spliced out. *)
Fixpoint objectPath_del_segs (h : heap) (o : value) (segs : list string)
  : res heap :=
  match segs with
  | [] => Ok h
  | k :: rest =>
      match o with
      | VUndef | VNull => Ok h
      | _ =>
          let is_arr := is_kind h o KArray in
          let own := match own_prop h o k with Some _ => true | None => false end in
          if (is_int_key k && is_arr) || own then
            match rest with
            | [] =>
                match o with
                | VRef a =>
                    match h !! a with
                    | Some ob =>
                        if is_arr then
                          let start := splice_start k (olen ob) in
                          if Nat.ltb start (olen ob) then
                            Ok (<[a := mkObj KArray (splice_props start (oprops ob))
                                             (Nat.pred (olen ob))]> h)
                          else Ok h
                        else
                          Ok (<[a := mkObj (okind ob) (alist_del k (oprops ob))
                                           (olen ob)]> h)
                    | None => Ok h
                    end
                | _ => Throw (TypeError "Cannot delete property of a primitive value")
                end
            | _ => objectPath_del_segs h (prop_read h o k) rest
            end
          else Ok h
      end
  end.

Definition objectPath_del (h : heap) (o : value) (path : string) : res heap :=
  if String.eqb path "" then Ok h
  else objectPath_del_segs h o (split_dot path).

(** ** extend: the deep merge the constructor calls

    [extend(true, target, options)] of the external library: every
    enumerable property of [options] is copied into [target]; a plain object
    or an array is merged into a clone (the value already in [target] when
    it is of the same sort, otherwise a fresh container), any other value is
    assigned as it is, and undefined values are not brought in.  A
    property is written as an own property whatever its name (version
    3.0.2 defines [__proto__] instead of assigning it).  The
    recursion is bounded by [fuel]; [None] means the bound was reached (on
    cyclic data the library recurses without end) or the store is ill-formed
    (a dangling reference, an array holding a [length] key). *)

Definition extend_step (rec : heap -> addr -> addr -> option heap)
    (target options : addr) (acc : option heap) (name : string) : option heap :=
  match acc with
  | None => None
  | Some h =>
      let src := prop_read h (VRef target) name in
      let copy := prop_read h (VRef options) name in
      if value_eqb (VRef target) copy then Some h
      else
        match copy with
        | VRef c =>
            if is_kind h copy KObject || is_kind h copy KArray then
              let want := if is_kind h copy KArray then KArray else KObject in
              let (h1, clone) :=
                if is_kind h src want
                then (h, match src with VRef s => s | _ => 0 end)
                else alloc h (mkObj want [] 0) in
              match rec h1 clone c with
              | Some h2 =>
                  match write_prop h2 (VRef target) name (VRef clone) with
                  | Ok h3 => Some h3
                  | Throw _ => None
                  end
              | None => None
              end
            else
              match write_prop h (VRef target) name copy with
              | Ok h3 => Some h3
              | Throw _ => None
              end
        | VUndef => Some h
        | _ =>
            match write_prop h (VRef target) name copy with
            | Ok h3 => Some h3
            | Throw _ => None
            end
        end
  end.

Fixpoint extend_deep (fuel : nat) (h : heap) (target options : addr) : option heap :=
  match fuel with
  | 0 => None
  | S fuel' =>
      match h !! options with
      | Some o =>
          fold_left (extend_step (extend_deep fuel') target options)
                    (for_in_keys o) (Some h)
      | None => None
      end
  end.

(** [extend(true, target, options)] as the constructor calls it: [options]
    is skipped when null; a null [target] is replaced by a fresh object
    that is then dropped. *)
Definition extend_true (fuel : nat) (h : heap) (target options : value)
  : option heap :=
  let (h1, t) := match target with
                 | VRef a => (h, Some a)
                 | _ => let (h', a) := alloc h (mkObj KObject [] 0) in (h', Some a)
                 end in
  match t, options with
  | Some a, VRef o => extend_deep fuel h1 a o
  | _, _ => Some h1
  end.

Section Runtime.

(** The primitive (a string) an object converts to. *)
Variable to_primitive : heap -> addr -> string.

(** ToString, as string concatenation and property keys apply it. *)
Definition to_str (h : heap) (v : value) : string :=
  match v with
  | VUndef => "undefined"
  | VNull => "null"
  | VBool true => "true"
  | VBool false => "false"
  | VNum n => number_to_string n
  | VStr s => s
  | VRef a => to_primitive h a
  end.

(** [v == false]: only a boolean, a number or a value converting to the
    number 0 is loosely equal to [false]; null and undefined are not. *)
Definition loose_eq_false (h : heap) (v : value) : bool :=
  match v with
  | VUndef | VNull => false
  | VBool b => negb b
  | VNum n => Z.eqb n 0
  | VStr s => number_is_zero s
  | VRef a => number_is_zero (to_primitive h a)
  end.

(** An element of an array as [join] prints it. *)
Definition join_elem (h : heap) (v : value) : string :=
  match v with
  | VUndef | VNull => ""
  | _ => to_str h v
  end.

(** [v.hasOwnProperty(k)]: a TypeError on null and undefined, and on an
    object whose own property of that name hides the method (no modelled
    value is a function). *)
Definition hasOwnProperty (h : heap) (v : value) (k : value) : res bool :=
  match v with
  | VUndef | VNull =>
      Throw (TypeError "Cannot read properties of null or undefined")
  | _ =>
      match own_prop h v "hasOwnProperty" with
      | Some _ => Throw (TypeError "hasOwnProperty is not a function")
      | None =>
          Ok (match own_prop h v (to_str h k) with
              | Some _ => true
              | None => false
              end)
      end
  end.

(** ** class Box *)

Definition tag_SCOPE : string := "scope".
Definition tag_GLOSSARY : string := "glossary".

(** [getTag(name)] (index.js:216). *)
Definition getTag (h : heap) (this : addr) (name : string) : res value :=
  let tags := field h this "_tags" in
  let* own := hasOwnProperty h tags (VStr name) in
  Ok (if own then prop_read h tags name else VNull).

(** [getGlossaryTag()] (index.js:304). *)
Definition getGlossaryTag (h : heap) (this : addr) : res value :=
  getTag h this tag_GLOSSARY.

(** The [for] loop of [pathMap] from index [i] on; [todo] is [keys] from
    [i], and the result is what the loop pushes onto [newPath].  The
    glossary is tested for the dotted prefix as an own property, and read
    under the segment through its prototypes. *)
Fixpoint pathMap_loop (h : heap) (glossary : value) (keys todo : list string)
    (i : nat) : res (list value) :=
  match todo with
  | [] => Ok []
  | key :: todo' =>
      let newKeys := join "." (take (S i) keys) in
      let* found :=
        (if truthy glossary then hasOwnProperty h glossary (VStr newKeys)
         else Ok false) in
      let* pushed :=
        (if found then read_prop h glossary key else Ok (VStr key)) in
      let* rest := pathMap_loop h glossary keys todo' (S i) in
      Ok (pushed :: rest)
  end.

(** [pathMap(path)] (index.js:143).  The console output of the debug block
    is not modelled. *)
Definition pathMap (h : heap) (this : addr) (path : jspath) : res string :=
  let* keys :=
    match path with
    | PArr segs => Ok segs
    | PStr s => Ok (split_dot s)
    | PNum _ => Throw (TypeError "path.split is not a function")
    | PUndef | PNull =>
        Throw (TypeError "Cannot read properties of null or undefined")
    end in
  let* glossary := getGlossaryTag h this in
  let* newPath := pathMap_loop h glossary keys keys 0 in
  Ok (join "." (map (join_elem h) newPath)).

(** [if (scope) path = scope + "." + path] *)
Definition scoped (h : heap) (this : addr) (path : jspath) : res jspath :=
  let* scope := getTag h this tag_SCOPE in
  Ok (if truthy scope
      then PStr (to_str h scope ++ "." ++ path_to_str path)
      else path).

(** [get(path)] (index.js:103). *)
Definition get (h : heap) (this : addr) (path : jspath) : res value :=
  if negb (path_truthy path) then
    Throw (Error "Could not access path [null | undefined] in Box")
  else
    let* path' := scoped h this path in
    let* p := pathMap h this path' in
    Ok (objectPath_get h (field h this "_payload") p).

(** [has(path)] (index.js:119): [!!v && v != false]. *)
Definition has (h : heap) (this : addr) (path : jspath) : res bool :=
  let* path' := scoped h this path in
  let* p := pathMap h this path' in
  let v := objectPath_get h (field h this "_payload") p in
  Ok (truthy v && negb (loose_eq_false h v)).

(** [set(path, value)] (index.js:89); the method returns [this]. *)
Definition set (h : heap) (this : addr) (path : jspath) (x : value) : res heap :=
  let* path' := scoped h this path in
  let* p := pathMap h this path' in
  objectPath_set h (field h this "_payload") p x.

(** [del(path)] (index.js:133); the method returns [this]. *)
Definition del (h : heap) (this : addr) (path : jspath) : res heap :=
  let* path' := scoped h this path in
  let* p := pathMap h this path' in
  if objectPath_has h (field h this "_payload") p then
    let* p' := pathMap h this path' in
    objectPath_del h (field h this "_payload") p'
  else Ok h.

(** [x == 'box'] *)
Definition loose_eq_box (h : heap) (v : value) : bool :=
  match v with
  | VStr s => String.eqb s "box"
  | VRef a => String.eqb (to_primitive h a) "box"
  | _ => false
  end.

(** [Box.isBox(object)] (index.js:55). *)
Definition isBox (h : heap) (object : value) : bool :=
  match object with
  | VRef _ => loose_eq_box h (prop_read h object "__type__")
  | _ => false
  end.

Definition Box_fields (seq : string) (payload tags : value)
  : list (string * value) :=
  [("__type__", VStr "box"); ("_seq", VStr seq); ("_error", VNull);
   ("_payload", payload); ("_tags", tags); ("_results", VNull)].

(** [new Box(content, tags)] (index.js:27).  [seq] is the identifier the
    generator hands out; an undefined [tags] is the default [{}].  The
    result is the new store and the address of the instance. *)
Definition new_Box (seq : string) (fuel : nat) (h : heap) (content tags : value)
  : option (heap * addr) :=
  let (h0, this) := alloc h (mkObj KBox [] 0) in
  let (h1, tags') :=
    match tags with
    | VUndef => let (h', t) := alloc h0 (mkObj KObject [] 0) in (h', VRef t)
    | _ => (h0, tags)
    end in
  let h2 := <[this := mkObj KBox (Box_fields seq content tags') 0]> h1 in
  if isBox h2 content then
    match extend_true fuel h2 (VRef this) content with
    | Some h3 => Some (h3, this)
    | None => None
    end
  else
    match content with
    | VNull | VRef _ =>
        match extend_true fuel h2 (field h2 this "_payload") content with
        | Some h3 => Some (h3, this)
        | None => None
        end
    | _ =>
        let (h3, p) := alloc h2 (mkObj KObject [("_v", content)] 0) in
        Some (<[this := mkObj KBox (Box_fields seq (VRef p) tags') 0]> h3, this)
    end.

(** The names [for (word in tag)] visits. *)
Definition for_in_value (h : heap) (v : value) : list string :=
  match v with
  | VRef a =>
      match h !! a with
      | Some o => for_in_keys o
      | None => []
      end
  | VStr s => map string_of_nat (seq 0 (String.length s))
  | _ => []
  end.

(** One turn of the loop of [addTag]. *)
Definition addTag_step (glossary tag : value) (acc : res heap) (word : string)
  : res heap :=
  let* h := acc in
  let entry := prop_read h tag word in
  let* own := hasOwnProperty h glossary entry in
  if own then assign_prop h tag word (prop_read h glossary (to_str h entry))
  else Ok h.

(** [addTag(name, tag)] (index.js:175); the method returns [this]. *)
Definition addTag (h : heap) (this : addr) (name : string) (tag : value)
  : res heap :=
  if String.eqb name tag_GLOSSARY then
    let* glossary := getGlossaryTag h this in
    if negb (truthy glossary) then
      assign_prop h (field h this "_tags") name tag
    else
      let* h1 := fold_left (addTag_step glossary tag) (for_in_value h tag) (Ok h) in
      assign_prop h1 (field h1 this "_tags") name tag
  else assign_prop h (field h this "_tags") name tag.

End Runtime.

(** ** Diff and merge

    The structural differ (deep-diff) is an external collaborator: [diff]
    returns the change records between two values, or nothing when they do
    not differ, and [applyChange] realises one record on the target in
    place.  A record has a kind ('N', 'D', 'E' or 'A'), the path of keys
    that leads to the difference (none for a difference at the root), the
    two values, and for an array record ('A') the index of the element and
    the record of what happened to it. *)

Inductive change_kind : Type := DiffNew | DiffDeleted | DiffEdit | DiffArray.

(** A key of a path: the name of a property or the index of an element. *)
Inductive pkey : Type :=
| PName (k : string)
| PIndex (i : nat).

Definition pkey_str (k : pkey) : string :=
  match k with
  | PName s => s
  | PIndex i => string_of_nat i
  end.

Inductive change : Type :=
| mkChange (kd : change_kind) (path : list pkey) (lhs rhs : value)
           (index : nat) (item : option change).

Definition ckind (d : change) : change_kind :=
  match d with mkChange kd _ _ _ _ _ => kd end.
Definition cpath (d : change) : list pkey :=
  match d with mkChange _ path _ _ _ _ => path end.
Definition clhs (d : change) : value :=
  match d with mkChange _ _ lhs _ _ _ => lhs end.
Definition crhs (d : change) : value :=
  match d with mkChange _ _ _ rhs _ _ => rhs end.
Definition cindex (d : change) : nat :=
  match d with mkChange _ _ _ _ index _ => index end.
Definition citem (d : change) : option change :=
  match d with mkChange _ _ _ _ _ item => item end.

(** [new DiffEdit(path, lhs, rhs)], [new DiffNew(path, rhs)],
    [new DiffDeleted(path, lhs)] and [new DiffArray(path, index, item)]. *)
Definition Edit (path : list pkey) (lhs rhs : value) : change :=
  mkChange DiffEdit path lhs rhs 0 None.
Definition New (path : list pkey) (rhs : value) : change :=
  mkChange DiffNew path VUndef rhs 0 None.
Definition Deleted (path : list pkey) (lhs : value) : change :=
  mkChange DiffDeleted path lhs VUndef 0 None.
Definition InArray (path : list pkey) (index : nat) (item : change) : change :=
  mkChange DiffArray path VUndef VUndef index (Some item).

Definition is_deleted (c : change) : bool :=
  match ckind c with DiffDeleted => true | _ => false end.

Section Differ.

Variable diff : heap -> value -> value -> res (option (list change)).
Variable applyChange : heap -> value -> value -> change -> res heap.

(** One turn of the loop of [merge]. *)
Definition merge_step (this : addr) (box : value) (acc : res heap) (d : change)
  : res heap :=
  let* h := acc in
  if is_deleted d then Ok h
  else applyChange h (field h this "_payload") box d.

(** [merge(box)] (index.js:246): the new store and the returned [this]. *)
Definition merge (h : heap) (this : addr) (box : value) : res (heap * addr) :=
  let* ds := diff h (field h this "_payload") box in
  match ds with
  | Some ds =>
      let* h' := fold_left (merge_step this box) ds (Ok h) in
      Ok (h', this)
  | None => Ok (h, this)
  end.

End Differ.

(** The conversion the examples run with, for stores of plain objects and
    arrays that define no [toString], [valueOf] or [join] of their own: a
    plain object converts to '[object Object]', an array to its elements
    joined by commas (nothing for an array that is being joined already).
    A Box converts through its own [toString] method, which is not
    followed here: no example converts a Box. *)
Fixpoint array_join (fuel : nat) (stack : list addr) (h : heap) (a : addr)
  : string :=
  match fuel with
  | 0 => ""
  | S fuel' =>
      match h !! a with
      | Some o =>
          match okind o with
          | KArray =>
              if existsb (Nat.eqb a) stack then ""
              else
                join ","
                  (map (fun i =>
                          join_elem (array_join fuel' (a :: stack)) h
                            (prop_read h (VRef a) (string_of_nat i)))
                       (seq 0 (olen o)))
          | _ => "[object Object]"
          end
      | None => "[object Object]"
      end
  end.

Definition plain_to_primitive (h : heap) (a : addr) : string :=
  array_join (S (length h)) [] h a.

(** ** The store of the repository's scoped-access test

    [new Box({a: {b: {c: 100}}, b: 'example text'})] after
    [addTag('scope', 'a.b')]: the Box is at address 4. *)
Definition scope_test_heap : heap :=
  [ mkObj KObject [("c", VNum 100)] 0;
    mkObj KObject [("b", VRef 0)] 0;
    mkObj KObject [("a", VRef 1); ("b", VStr "example text")] 0;
    mkObj KObject [("scope", VStr "a.b")] 0;
    mkObj KBox (Box_fields "seq1" (VRef 2) (VRef 3)) 0 ].

(** A Box (address 2) whose payload holds falsy values, strings that
    convert to the number 0, and values that do neither. *)
Definition falsy_heap : heap :=
  [ mkObj KObject
      [("zero", VNum 0); ("empty", VStr ""); ("no", VBool false);
       ("nothing", VNull); ("digit", VStr "0"); ("blank", VStr " ");
       ("tiny", VStr "1e-400"); ("one", VNum 1); ("yes", VBool true);
       ("text", VStr "example text"); ("small", VStr "1e-300");
       ("inner", VRef 1)] 0;
    mkObj KObject [] 0;
    mkObj KBox (Box_fields "seq1" (VRef 0) (VRef 1)) 0 ].

(** A Box (address 5) whose payload [{inner: ...}] holds another Box
    (address 2) with payload [{x: 1}]. *)
Definition nested_box_heap : heap :=
  [ mkObj KObject [("x", VNum 1)] 0;
    mkObj KObject [] 0;
    mkObj KBox (Box_fields "seq0" (VRef 0) (VRef 1)) 0;
    mkObj KObject [("inner", VRef 2)] 0;
    mkObj KObject [] 0;
    mkObj KBox (Box_fields "seq1" (VRef 3) (VRef 4)) 0 ].

(** A Box (address 2) whose payload holds itself: [p = {}; p.self = p]. *)
Definition cyclic_heap : heap :=
  [ mkObj KObject [("self", VRef 0)] 0;
    mkObj KObject [] 0;
    mkObj KBox (Box_fields "seq1" (VRef 0) (VRef 1)) 0 ].

(** ** Path resolution as the specification words it

    The segment is replaced by the glossary's value under the dotted prefix
    (index.js:157 reads the glossary under the segment instead). *)
Fixpoint pathMap_spec_loop (to_primitive : heap -> addr -> string) (h : heap)
    (glossary : value) (keys todo : list string) (i : nat) : res (list value) :=
  match todo with
  | [] => Ok []
  | key :: todo' =>
      let newKeys := join "." (take (S i) keys) in
      let* found :=
        (if truthy glossary
         then hasOwnProperty to_primitive h glossary (VStr newKeys)
         else Ok false) in
      let pushed := if found then prop_read h glossary newKeys else VStr key in
      let* rest := pathMap_spec_loop to_primitive h glossary keys todo' (S i) in
      Ok (pushed :: rest)
  end.

Definition pathMap_spec (to_primitive : heap -> addr -> string) (h : heap)
    (this : addr) (path : jspath) : res string :=
  let* keys :=
    match path with
    | PArr segs => Ok segs
    | PStr s => Ok (split_dot s)
    | PNum _ => Throw (TypeError "path.split is not a function")
    | PUndef | PNull =>
        Throw (TypeError "Cannot read properties of null or undefined")
    end in
  let* glossary := getGlossaryTag to_primitive h this in
  let* newPath := pathMap_spec_loop to_primitive h glossary keys keys 0 in
  Ok (join "." (map (join_elem to_primitive h) newPath)).

(** A Box (address 4) with payload [{a: {z: 7}}] and the glossary
    [{"a.b": "z"}], which renames the nested key [a.b]. *)
Definition nested_glossary_heap : heap :=
  [ mkObj KObject [("z", VNum 7)] 0;
    mkObj KObject [("a", VRef 0)] 0;
    mkObj KObject [("a.b", VStr "z")] 0;
    mkObj KObject [("glossary", VRef 2)] 0;
    mkObj KBox (Box_fields "seq1" (VRef 1) (VRef 3)) 0 ].

(** A Box (address 3) with payload [{a: 5}] and the glossary [{x: "a"}]. *)
Definition flat_glossary_heap : heap :=
  [ mkObj KObject [("a", VNum 5)] 0;
    mkObj KObject [("x", VStr "a")] 0;
    mkObj KObject [("glossary", VRef 1)] 0;
    mkObj KBox (Box_fields "seq1" (VRef 0) (VRef 2)) 0 ].

(** The caller's object [c = {a: {b: 1}}]: [c] is at address 1. *)
Definition caller_heap : heap :=
  [ mkObj KObject [("b", VNum 1)] 0;
    mkObj KObject [("a", VRef 0)] 0 ].

(** ** Layering a glossary *)

Definition is_prim (v : value) : bool :=
  match v with VRef _ => false | _ => true end.

(** An entry of a new glossary translated through the existing one: a value
    that is a key of [glossary] becomes that key's value. *)
Definition rewrite_entry (to_primitive : heap -> addr -> string) (h : heap)
    (glossary : value) (kv : string * value) : string * value :=
  (fst kv,
   match own_prop h glossary (to_str to_primitive h (snd kv)) with
   | Some w => w
   | None => snd kv
   end).

(** The entries with a key among [ks] translated, the others as they were. *)
Definition rewrite_keys (to_primitive : heap -> addr -> string) (h : heap)
    (glossary : value) (ks : list string) (props : list (string * value))
  : list (string * value) :=
  map (fun kv => if existsb (String.eqb (fst kv)) ks
                 then rewrite_entry to_primitive h glossary kv else kv) props.

(** The object [o] after [o[k] = v]. *)
Definition with_prop (o : obj) (k : string) (v : value) : obj :=
  mkObj (okind o) (alist_set k v (oprops o)) (olen o).

(** A Box (address 3) whose glossary is [{x: "y"}], and a new glossary
    [{w: "x", v: "q"}] at address 4. *)
Definition layered_glossary_heap : heap :=
  [ mkObj KObject [("y", VNum 5)] 0;
    mkObj KObject [("x", VStr "y")] 0;
    mkObj KObject [("glossary", VRef 1)] 0;
    mkObj KBox (Box_fields "seq1" (VRef 0) (VRef 2)) 0;
    mkObj KObject [("w", VStr "x"); ("v", VStr "q")] 0 ].

(** ** Merging: what is applied and what survives *)

(** Applying every record of [ds] in order, through the differ's
    [applyChange], to the payload of the Box. *)
Definition apply_records (applyChange : heap -> value -> value -> change -> res heap)
    (this : addr) (box : value) (acc : res heap) (ds : list change) : res heap :=
  fold_left (fun acc d =>
               let* h := acc in
               applyChange h (field h this "_payload") box d) ds acc.

Definition not_deleted (d : change) : bool := negb (is_deleted d).

(** No object other than an array loses a property between [h] and [h']. *)
Definition keys_kept (h h' : heap) : Prop :=
  forall a o,
    h !! a = Some o -> okind o <> KArray ->
    exists o', h' !! a = Some o' /\ okind o' = okind o /\
               incl (map fst (oprops o)) (map fst (oprops o')).

(** Box A (address 3) with payload [{a: 1, b: 2}]; the values
    [B = {a: 10, c: 3}] at address 1 and [{c: 3}] at address 4. *)
Definition merge_heap : heap :=
  [ mkObj KObject [("a", VNum 1); ("b", VNum 2)] 0;
    mkObj KObject [("a", VNum 10); ("c", VNum 3)] 0;
    mkObj KObject [] 0;
    mkObj KBox (Box_fields "seq1" (VRef 0) (VRef 2)) 0;
    mkObj KObject [("c", VNum 3)] 0 ].

(** A Box (address 3) with payload [{l: [1, 2]}], and the value [{l: [1]}]
    at address 5. *)
Definition array_merge_heap : heap :=
  [ mkObj KArray [("0", VNum 1); ("1", VNum 2)] 2;
    mkObj KObject [("l", VRef 0)] 0;
    mkObj KObject [] 0;
    mkObj KBox (Box_fields "seq1" (VRef 1) (VRef 2)) 0;
    mkObj KArray [("0", VNum 1)] 1;
    mkObj KObject [("l", VRef 4)] 0 ].

(** ** Tree-shaped data in the store

    The data model of a payload or of the tags: scalars, plain objects and
    arrays, nested to a finite depth.  [TNode kd len ts] is a container of
    kind [kd] with properties [ts]; [len] is the length of an array. *)
Inductive tree : Type :=
| TLeaf (v : value)
| TNode (kd : kind) (len : nat) (ts : list (string * tree)).

Fixpoint depth (t : tree) : nat :=
  match t with
  | TLeaf _ => 0
  | TNode _ _ ts => S (list_max (map (fun kt => depth (snd kt)) ts))
  end.

(** [tree_of P h v t]: in the store [h] the value [v] is the root of the
    tree [t], whose containers all sit at addresses satisfying [P].  The
    properties of a container are those of the tree in some order. *)
Inductive tree_of (P : addr -> Prop) (h : heap) : value -> tree -> Prop :=
| tree_leaf (v : value) :
    is_prim v = true -> tree_of P h v (TLeaf v)
| tree_node (a : addr) (o : obj) (ps : list (string * value))
            (ts : list (string * tree)) :
    P a ->
    h !! a = Some o ->
    okind o <> KBox ->
    (okind o = KObject -> olen o = 0) ->
    (okind o = KArray -> ~ In "length" (map fst (oprops o))) ->
    NoDup (map fst (oprops o)) ->
    Permutation ps (oprops o) ->
    Forall2 (fun p t => fst p = fst t /\ tree_of P h (snd p) (snd t)) ps ts ->
    tree_of P h (VRef a) (TNode (okind o) (olen o) ts).

(** The length an array needs for its index keys. *)
Definition needed_len {A : Type} (ts : list (string * A)) : nat :=
  fold_right (fun kt acc => match key_index (fst kt) with
                            | Some i => Nat.max (S i) acc
                            | None => acc
                            end) 0 ts.

Definition is_undef_leaf (t : tree) : bool :=
  match t with TLeaf VUndef => true | _ => false end.

(** What a deep merge into a fresh container brings over: every property
    but those holding undefined; an array is as long as its remaining
    elements need. *)
Fixpoint prune (t : tree) : tree :=
  match t with
  | TLeaf v => TLeaf v
  | TNode kd len ts =>
      let ts' := flat_map (fun kt => if is_undef_leaf (snd kt) then []
                                     else [(fst kt, prune (snd kt))]) ts in
      TNode kd (match kd with KArray => needed_len ts' | _ => 0 end) ts'
  end.

(** Deep equality of two values of the store: equal scalars, or containers
    of the same kind and length with the same keys and deeply equal values
    under each key.  [fuel] bounds the depth. *)
Fixpoint deep_equal (fuel : nat) (h : heap) (v w : value) : bool :=
  match fuel with
  | 0 => false
  | S fuel' =>
      match v, w with
      | VRef a, VRef b =>
          match h !! a, h !! b with
          | Some oa, Some ob =>
              kind_eqb (okind oa) (okind ob)
              && Nat.eqb (olen oa) (olen ob)
              && Nat.eqb (length (oprops oa)) (length (oprops ob))
              && forallb (fun kv =>
                            match alist_get (fst kv) (oprops ob) with
                            | Some w' => deep_equal fuel' h (snd kv) w'
                            | None => false
                            end) (oprops oa)
          | _, _ => false
          end
      | _, _ => value_eqb v w
      end
  end.

(** The object [o] after [o[k] = w] for a key other than the [length] of
    an array: an index key beyond the end lengthens an array. *)
Definition obj_write (o : obj) (k : string) (w : value) : obj :=
  mkObj (okind o) (alist_set k w (oprops o))
        (match okind o, key_index k with
         | KArray, Some i => Nat.max (olen o) (S i)
         | _, _ => olen o
         end).

Definition prune_children (ts : list (string * tree)) : list (string * tree) :=
  flat_map (fun kt => if is_undef_leaf (snd kt) then []
                      else [(fst kt, prune (snd kt))]) ts.

Definition tree_kind (t : tree) : kind :=
  match t with TNode kd _ _ => kd | TLeaf _ => KObject end.

(** The deep merge of the tree [t] into a fresh empty container of its kind
    succeeds with fuel [f], touches nothing else that exists, and builds
    [prune t] out of the container and fresh allocations. *)
Definition copies (f : nat) (t : tree) : Prop :=
  forall (N : nat) (h : heap) (c cl : addr),
    tree_of (fun a => a < N) h (VRef c) t ->
    N <= cl ->
    h !! cl = Some (mkObj (tree_kind t) [] 0) ->
    exists h',
      extend_deep f h cl c = Some h' /\
      length h <= length h' /\
      (forall a, a < length h -> a <> cl -> h' !! a = h !! a) /\
      tree_of (fun a => a = cl \/ length h <= a) h' (VRef cl) (prune t).

(** A property of the source as the merge meets it: key, value, subtree. *)
Definition zkey (z : string * value * tree) : string := fst (fst z).
Definition zval (z : string * value * tree) : value := snd (fst z).
Definition ztree (z : string * value * tree) : tree := snd z.

(** A tree without undefined properties whose arrays are exactly as long as
    their index keys need: such a tree is its own pruning. *)
Fixpoint defined_tree (t : tree) : bool :=
  match t with
  | TLeaf _ => true
  | TNode kd len ts =>
      match kd with
      | KObject => Nat.eqb len 0
      | KArray => Nat.eqb len (needed_len ts)
      | KBox => false
      end
      && forallb (fun kt => negb (is_undef_leaf (snd kt)) && defined_tree (snd kt)) ts
  end.

(** The payload and the tags of the Box of the scoped-access test. *)
Definition scope_test_payload : tree :=
  TNode KObject 0
    [("a", TNode KObject 0 [("b", TNode KObject 0 [("c", TLeaf (VNum 100))])]);
     ("b", TLeaf (VStr "example text"))].

Definition scope_test_tags : tree :=
  TNode KObject 0 [("scope", TLeaf (VStr "a.b"))].

(** Between [h] and [h'] every object keeps its kind, and an instance of
    [Box] is left exactly as it was. *)
Definition boxes_kept (h h' : heap) : Prop :=
  forall a o,
    h !! a = Some o ->
    exists o', h' !! a = Some o' /\ okind o' = okind o /\
               (okind o = KBox -> o' = o).

(** The error [get] raises on a falsy path. *)
Definition invalid_path : exn :=
  Error "Could not access path [null | undefined] in Box".


(** ** The rest of class Box: tags, identity, derived boxes *)

(** [delete v[k]] in strict-mode code: the [length] of an array and the
    own properties of a string cannot be deleted; deleting an element of an
    array leaves a hole and keeps its length. *)
Definition delete_prop (h : heap) (v : value) (k : string) : res heap :=
  match v with
  | VRef a =>
      match h !! a with
      | Some o =>
          if kind_eqb (okind o) KArray && String.eqb k "length"
          then Throw (TypeError "Cannot delete property 'length'")
          else Ok (<[a := mkObj (okind o) (alist_del k (oprops o)) (olen o)]> h)
      | None => Ok h
      end
  | VStr s =>
      match string_own s k with
      | Some _ => Throw (TypeError "Cannot delete property of a string")
      | None => Ok h
      end
  | VUndef | VNull =>
      Throw (TypeError "Cannot convert undefined or null to object")
  | _ => Ok h
  end.

(** ** deep-diff: the differ [merge] calls

    The external library, as its version 0.3 behaves: [diff] walks the two
    values together and records the differences in the order it meets them;
    [applyChange] follows the path of a record in the target, creating what
    is missing on the way, and realises the record at its end. *)

Module DeepDiff.

(** [realTypeOf(subject)]; there are no dates in the store. *)
Inductive real_type : Type :=
| RUndefined | RBoolean | RNumber | RString | RNull | RArray | RRegexp | RObject.

Definition real_type_eqb (s t : real_type) : bool :=
  match s, t with
  | RUndefined, RUndefined | RBoolean, RBoolean | RNumber, RNumber
  | RString, RString | RNull, RNull | RArray, RArray | RRegexp, RRegexp
  | RObject, RObject => true
  | _, _ => false
  end.

(** [/^\/.*\//.test(s)]: a slash, then another one before the line ends. *)
Fixpoint slash_on_line (s : string) : bool :=
  match s with
  | EmptyString => false
  | String c t =>
      if Ascii.eqb c "/"%char then true
      else if Nat.eqb (nat_of_ascii c) 10 || Nat.eqb (nat_of_ascii c) 13 then false
      else slash_on_line t
  end.

Definition regexp_like (s : string) : bool :=
  match s with
  | String c t => Ascii.eqb c "/"%char && slash_on_line t
  | EmptyString => false
  end.

(** [arr.splice]-free removal of the library: [arrayRemove(arr, from)] cuts
    the array at [from] and pushes the elements that followed the removed
    one.  Anything but an array has no [slice] to call or no [length] to
    set. *)
Definition arrayRemove (h : heap) (arr : value) (from : nat) : res heap :=
  match arr with
  | VRef a =>
      match h !! a with
      | Some o =>
          match okind o, alist_get "slice" (oprops o), alist_get "push" (oprops o) with
          | KArray, None, None =>
              let rest := map (fun i => prop_read h arr (string_of_nat i))
                              (seq (S from) (olen o - S from)) in
              let* n := array_length_of (VNum (Z.of_nat from)) in
              let pushed := combine (map string_of_nat (seq n (length rest))) rest in
              Ok (<[a := mkObj KArray (truncate_props n (oprops o) ++ pushed)
                               (n + length rest)]> h)
          | _, _, _ => Throw (TypeError "arr.slice is not a function")
          end
      | None => Throw (TypeError "arr.slice is not a function")
      end
  | _ => Throw (TypeError "arr.slice is not a function")
  end.

(** The loop of [applyChange]: [it] follows the path but for its last key,
    and a missing step is created, an array under an index and an object
    under a name. *)
Fixpoint walk (h : heap) (it : value) (path : list pkey) : res (heap * value) :=
  match path with
  | [] => Ok (h, it)
  | k :: rest =>
      match rest with
      | [] => Ok (h, it)
      | _ :: _ =>
          let* cur := read_prop h it (pkey_str k) in
          let* h1 :=
            match cur with
            | VUndef =>
                let fresh := match k with
                             | PIndex _ => mkObj KArray [] 0
                             | PName _ => mkObj KObject [] 0
                             end in
                let (h0, a) := alloc h fresh in
                assign_prop h0 it (pkey_str k) (VRef a)
            | _ => Ok h
            end in
          let* next := read_prop h1 it (pkey_str k) in
          walk h1 next rest
      end
  end.

(** The loop of [applyArrayChange]: [it] follows the path but for its last
    key, and nothing is created. *)
Fixpoint follow (h : heap) (it : value) (path : list pkey) : res value :=
  match path with
  | [] => Ok it
  | k :: rest =>
      match rest with
      | [] => Ok it
      | _ :: _ =>
          let* next := read_prop h it (pkey_str k) in
          follow h next rest
      end
  end.

(** [change.path[i]] after the loop: the last key.  A record without a path
    has none, and reading it throws. *)
Definition last_key (path : list pkey) : res string :=
  match List.last (map Some path) None with
  | Some k => Ok (pkey_str k)
  | None => Throw (TypeError "Cannot read properties of undefined")
  end.

(** [applyArrayChange(arr, index, change)]. *)
Fixpoint applyArrayChange (h : heap) (arr : value) (index : nat) (d : change)
  : res heap :=
  match d with
  | mkChange kd path lhs rhs idx item =>
      let nested (h : heap) (a : value) : res heap :=
        match item with
        | Some it => applyArrayChange h a idx it
        | None => Throw (TypeError "Cannot read properties of undefined")
        end in
      match path with
      | _ :: _ =>
          let* it0 := read_prop h arr (string_of_nat index) in
          let* it := follow h it0 path in
          let* k := last_key path in
          match kd with
          | DiffArray => let* a := read_prop h it k in nested h a
          | DiffDeleted => delete_prop h it k
          | DiffEdit | DiffNew => assign_prop h it k rhs
          end
      | [] =>
          match kd with
          | DiffArray => let* a := read_prop h arr (string_of_nat index) in nested h a
          | DiffDeleted => arrayRemove h arr index
          | DiffEdit | DiffNew => assign_prop h arr (string_of_nat index) rhs
          end
      end
  end.

(** [applyChange(target, source, change)]: nothing is done unless [target]
    and [source] are truthy.  A record of an element of the root itself
    (kind 'A' without a path) is left out: the releases of the library do
    not agree on it. *)
Definition applyChange (h : heap) (target source : value) (d : change) : res heap :=
  if truthy target && truthy source then
    let* hi := walk h target (cpath d) in
    let (h1, it) := hi in
    match ckind d, cpath d with
    | DiffArray, [] => Throw (Unmodelled "array record at the root")
    | kd, path =>
        let* k := last_key path in
        match kd with
        | DiffArray =>
            let* arr := read_prop h1 it k in
            match citem d with
            | Some item => applyArrayChange h1 arr (cindex d) item
            | None => Throw (TypeError "Cannot read properties of undefined")
            end
        | DiffDeleted => delete_prop h1 it k
        | DiffEdit | DiffNew => assign_prop h1 it k (crhs d)
        end
    end
  else Ok h.

(** The shape of the records [diff] builds: the item of an array record
    has no path and is an addition or a deletion. *)
Definition diff_record (d : change) : bool :=
  match ckind d, citem d with
  | DiffArray, Some it =>
      match cpath it, ckind it with
      | [], (DiffNew | DiffDeleted) => true
      | _, _ => false
      end
  | DiffArray, None => false
  | _, _ => true
  end.

(** The records of a list of things, one after the other. *)
Definition each {A : Type} (f : A -> res (list change)) (xs : list A)
  : res (list change) :=
  fold_left (fun acc x => let* ds := acc in let* d := f x in Ok (ds ++ d)%list)
            xs (Ok []).

Section Diff.

(** What [subject.toString()] returns is what the object converts to. *)
Variable to_primitive : heap -> addr -> string.

Definition realTypeOf (h : heap) (v : value) : res real_type :=
  match v with
  | VUndef => Ok RUndefined
  | VNull => Ok RNull
  | VBool _ => Ok RBoolean
  | VNum _ => Ok RNumber
  | VStr _ => Ok RString
  | VRef a =>
      if is_kind h v KArray then Ok RArray
      else
        match own_prop h v "toString" with
        | Some VUndef => Ok RObject
        | Some _ => Throw (TypeError "subject.toString is not a function")
        | None => Ok (if regexp_like (to_primitive h a) then RRegexp else RObject)
        end
  end.

(** [deepDiff(lhs, rhs, changes, prefilter, path, key, stack)] without a
    prefilter: [path] is [currentPath], the path with the key pushed, and
    the result is what the call hands to [changes].  [stack] holds the
    left-hand objects the call is inside of, so the depth is at most the
    number of objects; [fuel] bounds it. *)
Fixpoint deepDiff (fuel : nat) (h : heap) (stack : list addr) (path : list pkey)
    (lhs rhs : value) : res (list change) :=
  match fuel with
  | 0 => Throw (Unmodelled "depth of the diff")
  | S fuel' =>
      let* rl := realTypeOf h lhs in
      let* regexps :=
        match rl, lhs, rhs with
        | RRegexp, VRef a, VRef b =>
            let* rr := realTypeOf h rhs in
            Ok (match rr with
                | RRegexp => Some (VStr (to_primitive h a), VStr (to_primitive h b))
                | _ => None
                end)
        | _, _, _ => Ok None
        end in
      let (lhs, rhs) := match regexps with Some lr => lr | None => (lhs, rhs) end in
      match lhs, rhs with
      | VUndef, VUndef => Ok []
      | VUndef, _ => Ok [New path rhs]
      | _, VUndef => Ok [Deleted path lhs]
      | _, _ =>
          let* rl := realTypeOf h lhs in
          let* rr := realTypeOf h rhs in
          if negb (real_type_eqb rl rr) then Ok [Edit path lhs rhs]
          else
            match lhs, rhs with
            | VRef a, VRef b =>
                if existsb (Nat.eqb a) stack then Ok []
                else
                  match h !! a, h !! b with
                  | Some oa, Some ob =>
                      let rec := deepDiff fuel' h (a :: stack) in
                      match okind oa with
                      | KArray =>
                          let* common :=
                            each (fun i =>
                                    let l := prop_read h lhs (string_of_nat i) in
                                    if Nat.leb (olen ob) i
                                    then Ok [InArray path i (Deleted [] l)]
                                    else rec (path ++ [PIndex i])%list l
                                             (prop_read h rhs (string_of_nat i)))
                                 (seq 0 (olen oa)) in
                          Ok (common
                              ++ map (fun i =>
                                        InArray path i
                                          (New [] (prop_read h rhs (string_of_nat i))))
                                     (seq (olen oa) (olen ob - olen oa)))%list
                      | _ =>
                          let akeys := for_in_keys oa in
                          let pkeys := for_in_keys ob in
                          let* left :=
                            each (fun k => rec (path ++ [PName k])%list
                                               (prop_read h lhs k)
                                               (if existsb (String.eqb k) pkeys
                                                then prop_read h rhs k else VUndef))
                                 akeys in
                          let* right :=
                            each (fun k => rec (path ++ [PName k])%list VUndef
                                               (prop_read h rhs k))
                                 (List.filter
                                    (fun k => negb (existsb (String.eqb k) akeys))
                                    pkeys) in
                          Ok (left ++ right)%list
                      end
                  | _, _ => Throw (Unmodelled "reference out of the store")
                  end
            | _, _ =>
                if value_eqb lhs rhs then Ok [] else Ok [Edit path lhs rhs]
            end
      end
  end.

(** [diff(lhs, rhs)]: the records, or undefined when there are none. *)
Definition diff (h : heap) (lhs rhs : value) : res (option (list change)) :=
  let* ds := deepDiff (S (S (length h))) h [] [] lhs rhs in
  Ok (match ds with
      | [] => None
      | _ => Some ds
      end).

End Diff.

End DeepDiff.

Definition tag_ID : string := "id".
Definition tag_NOTIFY : string := "notify".

Section BoxRest.

Variable to_primitive : heap -> addr -> string.

(** [payload()] (index.js:79). *)
Definition payload (h : heap) (this : addr) : value := field h this "_payload".

(** [setTag(name, tag)] (index.js:194). *)
Definition setTag (h : heap) (this : addr) (name : string) (tag : value)
  : res heap :=
  addTag to_primitive h this name tag.

(** [hasTag(name)] (index.js:203). *)
Definition hasTag (h : heap) (this : addr) (name : string) : res bool :=
  hasOwnProperty to_primitive h (field h this "_tags") (VStr name).

(** [removeTag(name)] (index.js:225); the method returns [this]. *)
Definition removeTag (h : heap) (this : addr) (name : string) : res heap :=
  let* own := hasOwnProperty to_primitive h (field h this "_tags") (VStr name) in
  if own then delete_prop h (field h this "_tags") name else Ok h.

(** [getId()] (index.js:278). *)
Definition getId (h : heap) (this : addr) : res value :=
  let* id := getTag to_primitive h this tag_ID in
  Ok (if truthy id then id else field h this "_seq").

(** [getNotifyTag()] (index.js:288). *)
Definition getNotifyTag (h : heap) (this : addr) : res bool :=
  let* t := getTag to_primitive h this tag_NOTIFY in
  Ok (truthy t).

(** [setNotifyTag(tag)] (index.js:296). *)
Definition setNotifyTag (h : heap) (this : addr) (tag : value) : res heap :=
  if truthy tag then addTag to_primitive h this tag_NOTIFY (VBool true)
  else removeTag h this tag_NOTIFY.

(** [setGlossaryTag(tag)] (index.js:312). *)
Definition setGlossaryTag (h : heap) (this : addr) (tag : value) : res heap :=
  if negb (truthy tag) then removeTag h this tag_GLOSSARY
  else addTag to_primitive h this tag_GLOSSARY tag.

(** [getScopeTag()] (index.js:320). *)
Definition getScopeTag (h : heap) (this : addr) : res value :=
  getTag to_primitive h this tag_SCOPE.

(** [setScopeTag(scope)] (index.js:324); the method returns [this]. *)
Definition setScopeTag (h : heap) (this : addr) (scope : value) : res heap :=
  setTag h this tag_SCOPE scope.

(** [new(content, tags)] (index.js:69): a new Box that takes over the
    sequence of this one.  [None] when the constructor runs out of fuel. *)
Definition Box_new (seq : string) (fuel : nat) (h : heap) (this : addr)
    (content tags : value) : option (res (heap * addr)) :=
  match new_Box to_primitive seq fuel h content tags with
  | Some (h1, newBox) =>
      Some (let* h2 := assign_prop h1 (VRef newBox) "_seq" (field h1 this "_seq") in
            Ok (h2, newBox))
  | None => None
  end.

(** [union(box)] (index.js:270): nothing is done. *)
Definition union (h : heap) (this : addr) (box : value) : heap * addr := (h, this).

End BoxRest.

(** [diff(box)] (index.js:237), for the differ [differ]. *)
Definition Box_diff (differ : heap -> value -> value -> option (list change))
    (h : heap) (this : addr) (box : value) : option (list change) :=
  differ h (field h this "_payload") box.

(** The objects a dotted path runs through, from [o] on. *)
Fixpoint visited (h : heap) (o : value) (segs : list string) : list addr :=
  match segs with
  | [] => []
  | k :: rest =>
      match o with
      | VRef a => a :: visited h (prop_read h o k) rest
      | _ => []
      end
  end.

(** The container that holds the last segment of a path, when the path
    leads to one. *)
Fixpoint path_parent (h : heap) (o : value) (segs : list string) : value :=
  match segs with
  | [] => VUndef
  | [k] => o
  | k :: rest => path_parent h (prop_read h o k) rest
  end.

(** A Box (address 2) with payload [{a: 1}] and the tags
    [{notify: true, id: "box-7"}]. *)
Definition tagged_heap : heap :=
  [ mkObj KObject [("a", VNum 1)] 0;
    mkObj KObject [("notify", VBool true); ("id", VStr "box-7")] 0;
    mkObj KBox (Box_fields "seq1" (VRef 0) (VRef 1)) 0 ].

(** The tags of a Box are a plain object of its own that does not hide
    [hasOwnProperty]. *)
Definition plain_tags (h : heap) (this ta : addr) (ot : obj) : Prop :=
  field h this "_tags" = VRef ta /\
  h !! ta = Some ot /\
  okind ot = KObject /\
  ta <> this /\
  alist_get "hasOwnProperty" (oprops ot) = None.

(** The error of calling [hasOwnProperty] on an object that hides it. *)
Definition not_a_function : exn := TypeError "hasOwnProperty is not a function".

(** Between [h] and [h'] every object keeps its kind, and an instance of
    [Box] other than the one at [t] is left exactly as it was. *)
Definition boxes_kept_but (t : addr) (h h' : heap) : Prop :=
  forall a o,
    h !! a = Some o ->
    exists o', h' !! a = Some o' /\ okind o' = okind o /\
               (okind o = KBox -> a <> t -> o' = o).

(** Box A of [merge_heap] merged with the empty object at address 2. *)
Definition only_deletions : list change :=
  [Deleted [PName "a"] (VNum 1); Deleted [PName "b"] (VNum 2)].

(** Every object of the store has distinct keys. *)
Definition wf_keys (h : heap) : Prop :=
  forall a o, h !! a = Some o -> NoDup (map fst (oprops o)).

(** Tags that leave paths alone but for a scalar scope: no glossary. *)
Definition untranslated (ot : obj) : Prop :=
  alist_get tag_GLOSSARY (oprops ot) = None /\
  match alist_get tag_SCOPE (oprops ot) with
  | Some v => is_prim v = true
  | None => True
  end.

(** A value that is no dangling reference, and a store without dangling
    references. *)
Definition valid (h : heap) (v : value) : Prop :=
  match v with VRef a => a < length h | _ => True end.

Definition closed (h : heap) : Prop :=
  forall a o k v, h !! a = Some o -> In (k, v) (oprops o) -> valid h v.

(** * Properties *)

(** ** Assignment *)

Lemma assign_prop_ne (h : heap) (v : value) (k : string) (w : value) :
  k <> "__proto__" -> assign_prop h v k w = write_prop h v k w.
Proof.
  intros Hk. unfold assign_prop.
  destruct (String.eqb_spec k "__proto__"); [congruence|reflexivity].
Qed.

Lemma assign_prop_own (h : heap) (v : value) (k : string) (w u : value) :
  own_prop h v k = Some u -> assign_prop h v k w = write_prop h v k w.
Proof.
  intros Hown. unfold assign_prop.
  destruct (String.eqb k "__proto__"); [|reflexivity].
  destruct v; try reflexivity; rewrite Hown; reflexivity.
Qed.

Section Accessors.

Variable to_primitive : heap -> addr -> string.

Lemma objectPath_has_false_get (h : heap) (segs : list string) :
  forall o, objectPath_has_segs h o segs = false ->
            objectPath_get_segs h o segs = VUndef.
Proof.
  induction segs as [|k rest IH]; intros o Hhas; simpl in *.
  - discriminate.
  - destruct (own_prop h o k) as [w|] eqn:Hown.
    + unfold prop_read in Hhas. rewrite Hown in Hhas.
      rewrite orb_true_r in Hhas.
      destruct o; try reflexivity;
        destruct w; try reflexivity; apply IH; exact Hhas.
    + destruct o; reflexivity.
Qed.

(** C10: [get] raises the invalid-path error for every falsy path: null,
    undefined, the empty string and the number 0. *)
Theorem get_falsy_path_throws (h : heap) (this : addr) (path : jspath) :
  path_truthy path = false ->
  get to_primitive h this path = Throw invalid_path.
Proof.
  intros Hf. unfold get. rewrite Hf. reflexivity.
Qed.

(** C8: [get] with a null or undefined path raises the invalid-path error
    whatever the store holds, and [get] on a path that resolves to a
    non-empty dotted path absent from the payload returns undefined instead
    of failing. *)
Theorem get_invalid_path_and_missing_path :
  (forall h this,
      get to_primitive h this PNull = Throw invalid_path /\
      get to_primitive h this PUndef = Throw invalid_path) /\
  (forall h this path path' p,
      path_truthy path = true ->
      scoped to_primitive h this path = Ok path' ->
      pathMap to_primitive h this path' = Ok p ->
      p <> "" ->
      objectPath_has h (field h this "_payload") p = false ->
      get to_primitive h this path = Ok VUndef).
Proof.
  split.
  - intros h this. split; reflexivity.
  - intros h this path path' p Ht Hs Hp Hne Hhas.
    unfold get. rewrite Ht, Hs. simpl. rewrite Hp. simpl.
    unfold objectPath_get.
    destruct (String.eqb_spec p "") as [->|_]; [congruence|].
    f_equal. apply objectPath_has_false_get. exact Hhas.
Qed.



End Accessors.

(** Witnesses on the store of the scoped-access test. *)

Lemma get_falsy_path_throws_witness :
  path_truthy (PStr "") = false /\
  get plain_to_primitive scope_test_heap 4 (PStr "") = Throw invalid_path /\
  get plain_to_primitive scope_test_heap 4 (PNum 0) = Throw invalid_path.
Proof.
  split; [reflexivity|].
  split; apply get_falsy_path_throws; reflexivity.
Defined.

Lemma get_missing_path_witness :
  get plain_to_primitive scope_test_heap 4 (PStr "zz") = Ok VUndef.
Proof.
  apply (proj2 (get_invalid_path_and_missing_path plain_to_primitive)
           scope_test_heap 4 (PStr "zz") (PStr "a.b.zz") "a.b.zz");
    first [reflexivity | discriminate].
Defined.


(** Strings and the number 0. *)
Lemma number_is_zero_examples :
  Forall (fun s => number_is_zero s = true)
         [""; " "; "0"; "-0"; "+0.0"; "0e5"; ".0"; "0."; "0x0"; "0b00"; "0o0";
          "1e-400"; "2e-324"; "0.2e-323"] /\
  Forall (fun s => number_is_zero s = false)
         ["1"; "example text"; "0x"; "."; "+"; "- 0"; "0 0"; "0e"; "1e-300";
          "3e-324"; "0.5e-323"; "Infinity"; "NaN"; "-0x0"; "00x0"].
Proof.
  split; repeat (apply List.Forall_cons; [vm_compute; reflexivity|]);
    apply List.Forall_nil.
Qed.


(** ** Fresh allocations at the end of the store *)

Lemma insert_fresh (h l : heap) (o o' : obj) :
  <[length h := o]> (h ++ o' :: l)%list = (h ++ o :: l)%list.
Proof.
  rewrite insert_app_r_alt by lia. rewrite Nat.sub_diag. reflexivity.
Qed.

Lemma lookup_fresh (h l : heap) (k : nat) :
  (h ++ l)%list !! (length h + k) = l !! k.
Proof.
  rewrite lookup_app_r by lia. f_equal. lia.
Qed.

Lemma lookup_fresh0 (h l : heap) :
  (h ++ l)%list !! length h = l !! 0.
Proof.
  rewrite <- (lookup_fresh h l 0). f_equal. lia.
Qed.

Ltac heap_norm :=
  repeat first
    [ rewrite <- app_assoc
    | progress cbn [app]
    | match goal with
      | |- context [length ?h] => rewrite (insert_fresh h)
      end
    | rewrite lookup_fresh0
    | rewrite lookup_fresh
    | rewrite length_app ];
  cbn.

Ltac unfold_access :=
  unfold get, has, scoped, pathMap, getGlossaryTag, getTag, hasOwnProperty,
    isBox, field, prop_read, own_prop.

Section Construction.

Variable to_primitive : heap -> addr -> string.

(** A scalar other than null is wrapped: the payload is [{_v: v}] and
    [get('_v')] reads [v] back. *)
Lemma new_Box_scalar_wrapped (seq : string) (fuel : nat) (h : heap) (v : value) :
  match v with VNull | VRef _ => False | _ => True end ->
  exists h' p,
    new_Box to_primitive seq fuel h v VUndef = Some (h', length h) /\
    field h' (length h) "_payload" = VRef p /\
    h' !! p = Some (mkObj KObject [("_v", v)] 0) /\
    get to_primitive h' (length h) (PStr "_v") = Ok v.
Proof.
  intros Hv.
  exists (h ++ [mkObj KBox (Box_fields seq (VRef (length h + 2)) (VRef (length h + 1))) 0;
                mkObj KObject [] 0; mkObj KObject [("_v", v)] 0])%list,
         (length h + 2).
  repeat split.
  - unfold new_Box, alloc. cbv zeta iota beta.
    destruct v; try contradiction; heap_norm; reflexivity.
  - unfold_access. heap_norm. reflexivity.
  - heap_norm. reflexivity.
  - unfold_access. cbn [path_truthy String.eqb Ascii.eqb Bool.eqb negb].
    do 3 heap_norm. destruct v; try contradiction; reflexivity.
Qed.

(** C2 at null: [typeof null === 'object'] sends null down the container
    branch, the payload stays the bare null and [get('_v')] is undefined,
    not null. *)
Theorem new_Box_null_payload_stays_null (seq : string) (fuel : nat) (h : heap) :
  exists h',
    new_Box to_primitive seq fuel h VNull VUndef = Some (h', length h) /\
    field h' (length h) "_payload" = VNull /\
    get to_primitive h' (length h) (PStr "_v") = Ok VUndef /\
    get to_primitive h' (length h) (PStr "_v") <> Ok VNull.
Proof.
  set (h' := (h ++ [mkObj KBox (Box_fields seq VNull (VRef (length h + 1))) 0;
                     mkObj KObject [] 0; mkObj KObject [] 0])%list).
  assert (Hget : get to_primitive h' (length h) (PStr "_v") = Ok VUndef).
  { unfold h'. unfold_access.
    cbn [path_truthy String.eqb Ascii.eqb Bool.eqb negb].
    do 3 heap_norm. reflexivity. }
  exists h'. repeat split.
  - unfold new_Box, alloc. cbv zeta iota beta.
    heap_norm. unfold isBox, field, prop_read, own_prop. do 2 heap_norm.
    reflexivity.
  - unfold h'. unfold_access. heap_norm. reflexivity.
  - exact Hget.
  - rewrite Hget. discriminate.
Qed.

End Construction.

(** ** Glossary resolution *)

(** C1 at a glossary key with a dot: for the glossary [{"a.b": "z"}] and the
    path [a.b], given as a string or as segments, the prefix [a.b] is a key
    but the code reads the glossary under the segment [b], finds nothing and
    resolves to [a.]; replacing the segment by the value under the prefix
    gives [a.z]. *)
Theorem pathMap_reads_segment_not_prefix :
  pathMap plain_to_primitive nested_glossary_heap 4 (PStr "a.b") = Ok "a." /\
  pathMap plain_to_primitive nested_glossary_heap 4 (PArr ["a"; "b"]) = Ok "a." /\
  pathMap_spec plain_to_primitive nested_glossary_heap 4 (PStr "a.b") = Ok "a.z" /\
  get plain_to_primitive nested_glossary_heap 4 (PStr "a.b") = Ok VUndef.
Proof.
  repeat split; reflexivity.
Qed.

(** The glossary example of the specification: with glossary [{x: "a"}] and
    payload [{a: 5}], [get('x')] is 5. *)
Lemma glossary_translation_example :
  pathMap plain_to_primitive flat_glossary_heap 3 (PStr "x") = Ok "a" /\
  get plain_to_primitive flat_glossary_heap 3 (PStr "x") = Ok (VNum 5).
Proof.
  split; reflexivity.
Qed.

(** On a path of one segment the code and the specification's wording
    agree: the prefix is the segment. *)
Lemma pathMap_single_segment (to_primitive : heap -> addr -> string)
    (h : heap) (this : addr) (k : string) :
  pathMap to_primitive h this (PArr [k]) = pathMap_spec to_primitive h this (PArr [k]).
Proof.
  unfold pathMap, pathMap_spec. simpl.
  destruct (getGlossaryTag to_primitive h this) as [g|e]; [|reflexivity].
  cbn [bind]. destruct (truthy g) eqn:Hg; [|reflexivity].
  unfold hasOwnProperty. cbn [to_str].
  destruct g; try discriminate Hg;
    (destruct (own_prop h _ "hasOwnProperty"); [reflexivity|]);
    cbn [bind]; unfold read_prop, prop_read;
    destruct (own_prop h _ k); reflexivity.
Qed.

(** ** Construction from a container *)

(** C3 at [c = {a: {b: 1}}]: the payload of [new Box(c)] is the object [c]
    itself (address 1), and [set('a.b', 2)] on the Box changes the caller's
    [c.a.b]. *)
Theorem new_Box_payload_aliases_content :
  exists h1 box h2,
    new_Box plain_to_primitive "seq1" 3 caller_heap (VRef 1) VUndef = Some (h1, box) /\
    field h1 box "_payload" = VRef 1 /\
    set plain_to_primitive h1 box (PStr "a.b") (VNum 2) = Ok h2 /\
    objectPath_get caller_heap (VRef 1) "a.b" = VNum 1 /\
    objectPath_get h2 (VRef 1) "a.b" = VNum 2.
Proof.
  eexists _, _, _. repeat split; reflexivity.
Qed.

(** ** Property lists and enumeration order *)

Lemma alist_get_In (k : string) (l : list (string * value)) :
  In k (map fst l) -> exists v, alist_get k l = Some v.
Proof.
  induction l as [|[k' v'] t IH]; simpl; intros Hin; [contradiction|].
  destruct (String.eqb_spec k k') as [->|Hne]; [eauto|].
  destruct Hin as [->|Hin]; [congruence|auto].
Qed.

Lemma alist_get_Some_In (k : string) (v : value) (l : list (string * value)) :
  alist_get k l = Some v -> In k (map fst l).
Proof.
  induction l as [|[k' v'] t IH]; simpl; [discriminate|].
  destruct (String.eqb_spec k k') as [->|Hne]; auto.
Qed.

Lemma alist_set_same (k : string) (v : value) (l : list (string * value)) :
  alist_get k l = Some v -> alist_set k v l = l.
Proof.
  induction l as [|[k' v'] t IH]; simpl; [discriminate|].
  destruct (String.eqb_spec k k') as [->|Hne].
  - intros [= ->]. reflexivity.
  - intros H. rewrite IH by exact H. reflexivity.
Qed.

Lemma alist_set_keys (k : string) (v w : value) (l : list (string * value)) :
  alist_get k l = Some w -> map fst (alist_set k v l) = map fst l.
Proof.
  induction l as [|[k' v'] t IH]; simpl; [discriminate|].
  destruct (String.eqb_spec k k') as [->|Hne]; simpl.
  - reflexivity.
  - intros H. rewrite IH by exact H. reflexivity.
Qed.

Lemma alist_get_set_ne (k k' : string) (v : value) (l : list (string * value)) :
  k' <> k -> alist_get k' (alist_set k v l) = alist_get k' l.
Proof.
  intros Hne. induction l as [|[k0 v0] t IH]; simpl.
  - destruct (String.eqb_spec k' k); [congruence|reflexivity].
  - destruct (String.eqb_spec k k0) as [->|Hk]; simpl.
    + destruct (String.eqb_spec k' k0); [congruence|reflexivity].
    + destruct (String.eqb_spec k' k0); [reflexivity|exact IH].
Qed.

Lemma alist_get_set_eq (k : string) (v : value) (l : list (string * value)) :
  alist_get k (alist_set k v l) = Some v.
Proof.
  induction l as [|[k0 v0] t IH]; simpl.
  - rewrite String.eqb_refl. reflexivity.
  - destruct (String.eqb_spec k k0) as [->|Hk]; simpl.
    + rewrite String.eqb_refl. reflexivity.
    + destruct (String.eqb_spec k k0); [congruence|exact IH].
Qed.

Lemma insert_index_perm (k : string) (i : nat) (l : list (string * nat)) :
  Permutation (insert_index k i l) ((k, i) :: l).
Proof.
  induction l as [|[k' j] t IH]; simpl; [reflexivity|].
  destruct (Nat.leb i j); [reflexivity|].
  rewrite IH. apply perm_swap.
Qed.

Lemma index_keys_perm (ks : list string) :
  Permutation (map fst (index_keys ks)) (List.filter is_index_key ks).
Proof.
  induction ks as [|k t IH]; simpl; [reflexivity|].
  unfold is_index_key at 1.
  destruct (key_index k) as [i|]; [|exact IH].
  rewrite insert_index_perm. simpl. rewrite IH. reflexivity.
Qed.

Lemma filter_split_perm (p : string -> bool) (l : list string) :
  Permutation (List.filter p l ++ List.filter (fun k => negb (p k)) l)%list l.
Proof.
  induction l as [|k t IH]; simpl; [reflexivity|].
  destruct (p k); simpl.
  - rewrite IH. reflexivity.
  - rewrite <- Permutation_middle. rewrite IH. reflexivity.
Qed.

Lemma for_in_keys_perm (o : obj) :
  Permutation (for_in_keys o) (map fst (oprops o)).
Proof.
  unfold for_in_keys. rewrite index_keys_perm. apply filter_split_perm.
Qed.

(** ** Tags *)

Section Tags.

Variable to_primitive : heap -> addr -> string.

Lemma to_str_prim (h h' : heap) (v : value) :
  is_prim v = true -> to_str to_primitive h' v = to_str to_primitive h v.
Proof. destruct v; simpl; congruence. Qed.

Lemma own_prop_insert_other (h : heap) (a : addr) (o : obj) (g : value) (k : string) :
  g <> VRef a -> own_prop (<[a := o]> h) g k = own_prop h g k.
Proof.
  intros Hne. destruct g; try reflexivity. unfold own_prop.
  rewrite list_lookup_insert_ne by congruence. reflexivity.
Qed.

Lemma rewrite_keys_cons (h : heap) (g : value) (k : string) (v : value)
    (ks : list string) (props : list (string * value)) :
  NoDup (map fst props) ->
  alist_get k props = Some v ->
  ~ In k ks ->
  rewrite_keys to_primitive h g ks
    (alist_set k (snd (rewrite_entry to_primitive h g (k, v))) props)
  = rewrite_keys to_primitive h g (k :: ks) props.
Proof.
  intros Hnd Hget Hnin. unfold rewrite_keys.
  induction props as [|[k0 v0] t IH]; simpl in *; [discriminate|].
  apply NoDup_cons in Hnd as [Hk0 Hnd].
  destruct (String.eqb_spec k k0) as [->|Hne].
  - injection Hget as ->. simpl.
    rewrite String.eqb_refl. simpl.
    assert (Hex : existsb (String.eqb k0) ks = false).
    { apply not_true_is_false. intros Hex. apply existsb_exists in Hex.
      destruct Hex as [x [Hin Heq]]. apply String.eqb_eq in Heq. subst x.
      exact (Hnin Hin). }
    rewrite Hex. f_equal.
    apply map_ext_in. intros [k1 v1] Hin. simpl.
    destruct (String.eqb_spec k1 k0) as [->|_]; [|reflexivity].
    exfalso. apply Hk0. apply list_elem_of_In, in_map_iff. exists (k0, v1). auto.
  - simpl. destruct (String.eqb_spec k0 k) as [->|_]; [congruence|]. simpl.
    f_equal. apply IH; assumption.
Qed.

Lemma addTag_fold (h : heap) (g : value) (ma : addr) (len : nat) :
  truthy g = true ->
  own_prop h g "hasOwnProperty" = None ->
  g <> VRef ma ->
  forall ks props hcur,
    hcur !! ma = Some (mkObj KObject props len) ->
    NoDup ks ->
    (forall k, In k ks -> In k (map fst props)) ->
    NoDup (map fst props) ->
    (forall k v, In k ks -> alist_get k props = Some v -> is_prim v = true) ->
    (forall k, own_prop hcur g k = own_prop h g k) ->
    fold_left (addTag_step to_primitive g (VRef ma)) ks (Ok hcur)
    = Ok (<[ma := mkObj KObject (rewrite_keys to_primitive h g ks props) len]> hcur).
Proof.
  intros Hg Hhop Hne ks.
  induction ks as [|k ks IH]; intros props hcur Hma Hnd Hin Hkeys Hprim Hstable.
  - simpl. unfold rewrite_keys. simpl. rewrite map_id.
    rewrite list_insert_id by exact Hma. reflexivity.
  - apply NoDup_cons in Hnd as [Hk Hnd].
    rewrite list_elem_of_In in Hk.
    destruct (alist_get_In k props (Hin k (or_introl eq_refl))) as [v Hv].
    assert (Hpv : is_prim v = true) by (apply (Hprim k v); [left; reflexivity|exact Hv]).
    set (v' := snd (rewrite_entry to_primitive h g (k, v))).
    set (h1 := <[ma := mkObj KObject (alist_set k v' props) len]> hcur).
    assert (Hstep : addTag_step to_primitive g (VRef ma) (Ok hcur) k = Ok h1).
    { unfold addTag_step. simpl bind.
      assert (Hentry : prop_read hcur (VRef ma) k = v).
      { unfold prop_read, own_prop. rewrite Hma. simpl. rewrite Hv. reflexivity. }
      rewrite Hentry. unfold hasOwnProperty.
      rewrite (Hstable "hasOwnProperty"), Hhop.
      rewrite (Hstable (to_str to_primitive hcur v)).
      rewrite (to_str_prim h hcur v Hpv).
      unfold h1, v', rewrite_entry. simpl fst. simpl snd.
      unfold prop_read. rewrite (Hstable (to_str to_primitive h v)).
      assert (Hk_own : own_prop hcur (VRef ma) k = Some v).
      { unfold own_prop. rewrite Hma. simpl. exact Hv. }
      destruct g; try discriminate Hg;
        (destruct (own_prop h _ (to_str to_primitive h v)) as [w|] eqn:Hown; simpl;
         [ rewrite (assign_prop_own _ _ _ _ _ Hk_own);
           unfold write_prop; rewrite Hma; reflexivity
         | rewrite (alist_set_same k v props Hv);
           rewrite list_insert_id by exact Hma; reflexivity ]). }
    cbn [fold_left]. rewrite Hstep.
    assert (Hlt : ma < length hcur) by (eapply lookup_lt_Some; exact Hma).
    rewrite (IH (alist_set k v' props) h1).
    + unfold h1. rewrite list_insert_insert_eq.
      unfold v'. rewrite rewrite_keys_cons by assumption. reflexivity.
    + unfold h1. apply list_lookup_insert_eq. exact Hlt.
    + exact Hnd.
    + intros k1 Hk1. rewrite (alist_set_keys k v' v props Hv). apply Hin. right. exact Hk1.
    + rewrite (alist_set_keys k v' v props Hv). exact Hkeys.
    + intros k1 v1 Hk1 Hget1. apply (Hprim k1 v1); [right; exact Hk1|].
      rewrite alist_get_set_ne in Hget1; [exact Hget1|]. intros ->. exact (Hk Hk1).
    + intros k1. unfold h1. rewrite own_prop_insert_other by exact Hne. apply Hstable.
Qed.

Lemma rewrite_keys_all (h : heap) (g : value) (ks : list string)
    (props : list (string * value)) :
  (forall k, In k (map fst props) -> In k ks) ->
  rewrite_keys to_primitive h g ks props = map (rewrite_entry to_primitive h g) props.
Proof.
  intros Hall. unfold rewrite_keys. apply map_ext_in. intros [k v] Hin. simpl.
  assert (Hex : existsb (String.eqb k) ks = true).
  { apply existsb_exists. exists k. split; [|apply String.eqb_refl].
    apply Hall. apply in_map_iff. exists (k, v). auto. }
  rewrite Hex. reflexivity.
Qed.

Lemma write_tag (h : heap) (ta : addr) (ot : obj) (m : value) :
  h !! ta = Some ot ->
  write_prop h (VRef ta) tag_GLOSSARY m = Ok (<[ta := with_prop ot tag_GLOSSARY m]> h).
Proof.
  intros Hta. unfold write_prop, with_prop. rewrite Hta.
  destruct ot as [[| |] props len]; reflexivity.
Qed.

(** C7: when the Box holds a glossary, [addTag('glossary', m)] rewrites every
    entry of the plain object [m] whose value is a key of that glossary to
    the key's value there, and stores [m] as the glossary tag; when it holds
    none, [m] is stored as it is.  [m] is a mapping of its own (not the
    object of the existing glossary, of the tags or the Box) with primitive
    values. *)
Theorem addTag_glossary_layers
    (h : heap) (this ta : addr) (ot : obj) (g : value) :
  field h this "_tags" = VRef ta ->
  h !! ta = Some ot ->
  getGlossaryTag to_primitive h this = Ok g ->
  (truthy g = true ->
   own_prop h g "hasOwnProperty" = None ->
   forall ma om,
     h !! ma = Some om ->
     okind om = KObject ->
     NoDup (map fst (oprops om)) ->
     (forall k v, alist_get k (oprops om) = Some v -> is_prim v = true) ->
     g <> VRef ma -> ma <> ta -> ma <> this ->
     addTag to_primitive h this tag_GLOSSARY (VRef ma)
     = Ok (<[ta := with_prop ot tag_GLOSSARY (VRef ma)]>
             (<[ma := mkObj KObject
                        (map (rewrite_entry to_primitive h g) (oprops om))
                        (olen om)]> h))) /\
  (truthy g = false ->
   forall m,
     addTag to_primitive h this tag_GLOSSARY m
     = Ok (<[ta := with_prop ot tag_GLOSSARY m]> h)).
Proof.
  intros Htags Hta Hgl. split.
  - intros Hg Hhop ma om Hma Hkind Hnd Hprim Hne Hmt Hmthis.
    unfold addTag. rewrite String.eqb_refl, Hgl. simpl bind. rewrite Hg. simpl negb.
    cbv iota. unfold for_in_value. rewrite Hma.
    destruct om as [kd props len]. simpl in Hkind, Hnd, Hprim. subst kd.
    pose proof (for_in_keys_perm (mkObj KObject props len)) as Hperm. simpl in Hperm.
    rewrite (addTag_fold h g ma len Hg Hhop Hne _ props h Hma).
    + simpl bind.
      rewrite rewrite_keys_all
        by (intros k Hk; apply (Permutation_in k (Permutation_sym Hperm) Hk)).
      assert (Hf : field (<[ma := mkObj KObject
                   (map (rewrite_entry to_primitive h g) props) len]> h) this "_tags"
                   = VRef ta).
      { unfold field, prop_read, own_prop.
        rewrite list_lookup_insert_ne by exact Hmthis. exact Htags. }
      rewrite Hf. rewrite assign_prop_ne by (unfold tag_GLOSSARY; discriminate).
      apply write_tag.
      rewrite list_lookup_insert_ne by exact Hmt. exact Hta.
    + rewrite Hperm. exact Hnd.
    + intros k Hk. apply (Permutation_in k Hperm Hk).
    + exact Hnd.
    + intros k v _ Hv. exact (Hprim k v Hv).
    + reflexivity.
  - intros Hg m. unfold addTag. rewrite String.eqb_refl, Hgl. simpl bind.
    rewrite Hg. simpl negb. cbv iota. rewrite Htags.
    rewrite assign_prop_ne by (unfold tag_GLOSSARY; discriminate).
    apply write_tag. exact Hta.
Qed.

End Tags.

(** With the glossary [{x: "y"}], adding [{w: "x", v: "q"}] stores
    [{w: "y", v: "q"}]. *)
Lemma addTag_glossary_layers_witness :
  exists h',
    addTag plain_to_primitive layered_glossary_heap 3 tag_GLOSSARY (VRef 4) = Ok h' /\
    h' !! 4 = Some (mkObj KObject [("w", VStr "y"); ("v", VStr "q")] 0) /\
    getGlossaryTag plain_to_primitive h' 3 = Ok (VRef 4).
Proof.
  eexists. split.
  - apply (proj1 (addTag_glossary_layers plain_to_primitive layered_glossary_heap
                    3 2 (mkObj KObject [("glossary", VRef 1)] 0) (VRef 1)
                    eq_refl eq_refl eq_refl) eq_refl eq_refl 4
             (mkObj KObject [("w", VStr "x"); ("v", VStr "q")] 0) eq_refl eq_refl).
    + repeat constructor; simpl; rewrite ?list_elem_of_In; simpl; intuition discriminate.
    + intros k v. simpl.
      destruct (String.eqb k "w"); [intros [= <-]; reflexivity|].
      destruct (String.eqb k "v"); [intros [= <-]; reflexivity|discriminate].
    + discriminate.
    + discriminate.
    + discriminate.
  - split; reflexivity.
Defined.

(** ** Merge *)

Lemma keys_kept_refl (h : heap) : keys_kept h h.
Proof.
  intros a o Ha _. exists o. repeat split; [exact Ha|apply incl_refl].
Qed.

Lemma keys_kept_trans (h1 h2 h3 : heap) :
  keys_kept h1 h2 -> keys_kept h2 h3 -> keys_kept h1 h3.
Proof.
  intros H12 H23 a o Ha Hk.
  destruct (H12 a o Ha Hk) as [o2 [Ha2 [Hk2 Hi2]]].
  destruct (H23 a o2 Ha2 ltac:(congruence)) as [o3 [Ha3 [Hk3 Hi3]]].
  exists o3. repeat split; [exact Ha3|congruence|].
  eapply incl_tran; eassumption.
Qed.

Lemma alist_set_incl (k : string) (v : value) (l : list (string * value)) :
  incl (map fst l) (map fst (alist_set k v l)).
Proof.
  induction l as [|[k' v'] t IH]; simpl.
  - intros x [].
  - destruct (String.eqb_spec k k') as [->|Hne]; simpl.
    + apply incl_refl.
    + intros x [->|Hx]; [left; reflexivity|right; apply IH; exact Hx].
Qed.

Lemma keys_kept_insert (h : heap) (a : addr) (o o' : obj) :
  h !! a = Some o ->
  (okind o <> KArray ->
   okind o' = okind o /\ incl (map fst (oprops o)) (map fst (oprops o'))) ->
  keys_kept h (<[a := o']> h).
Proof.
  intros Ha Ho a0 o0 Ha0 Hk0.
  destruct (Nat.eq_dec a a0) as [<-|Hne].
  - rewrite Ha in Ha0. injection Ha0 as <-.
    exists o'. split; [|exact (Ho Hk0)].
    apply list_lookup_insert_eq. eapply lookup_lt_Some; exact Ha.
  - exists o0. rewrite list_lookup_insert_ne by exact Hne.
    repeat split; [exact Ha0|apply incl_refl].
Qed.

Lemma keys_kept_alloc (h : heap) (o : obj) : keys_kept h (h ++ [o])%list.
Proof.
  intros a o0 Ha _. exists o0. repeat split; [|apply incl_refl].
  rewrite lookup_app_l by (eapply lookup_lt_Some; exact Ha). exact Ha.
Qed.

Lemma write_prop_keys_kept (h h' : heap) (v : value) (k : string) (w : value) :
  write_prop h v k w = Ok h' -> keys_kept h h'.
Proof.
  unfold write_prop. destruct v; try discriminate.
  destruct (h !! a) as [o|] eqn:Ha; [|discriminate].
  destruct (okind o) eqn:Hk.
  - intros [= <-]. apply (keys_kept_insert h a o _ Ha). intros _. simpl.
    split; [auto|apply alist_set_incl].
  - destruct (String.eqb k "length").
    + destruct (array_length_of w) as [n|e]; [|discriminate].
      intros [= <-]. apply (keys_kept_insert h a o _ Ha). congruence.
    + intros [= <-]. apply (keys_kept_insert h a o _ Ha). congruence.
  - intros [= <-]. apply (keys_kept_insert h a o _ Ha). intros _. simpl.
    split; [auto|apply alist_set_incl].
Qed.

Lemma assign_prop_keys_kept (h h' : heap) (v : value) (k : string) (w : value) :
  assign_prop h v k w = Ok h' -> keys_kept h h'.
Proof.
  unfold assign_prop. destruct (String.eqb k "__proto__");
    [|apply write_prop_keys_kept].
  destruct v; try apply write_prop_keys_kept;
    (destruct (own_prop h _ k); [apply write_prop_keys_kept|]);
    destruct w; try discriminate; intros [= <-]; apply keys_kept_refl.
Qed.

Lemma objectPath_set_segs_keys_kept (segs : list string) (x : value) :
  forall h o h', objectPath_set_segs h o segs x = Ok h' -> keys_kept h h'.
Proof.
  induction segs as [|k rest IH]; intros h o h' Hset; simpl in Hset.
  - injection Hset as <-. apply keys_kept_refl.
  - destruct rest as [|k1 rest'].
    + eapply assign_prop_keys_kept; exact Hset.
    + set (cur := match o with VUndef | VNull => VUndef | _ => prop_read h o k end) in *.
      assert (Hcase :
        (cur = VUndef /\
         exists fresh,
           (let* h2 := assign_prop (h ++ [fresh]) o k (VRef (length h)) in
            objectPath_set_segs h2 (prop_read h2 o k) (k1 :: rest') x) = Ok h') \/
        objectPath_set_segs h cur (k1 :: rest') x = Ok h').
      { destruct cur; try (right; exact Hset).
        left. split; [reflexivity|]. unfold alloc in Hset. eexists. exact Hset. }
      destruct Hcase as [[_ [fresh Hfresh]]|Hrec].
      * destruct (assign_prop (h ++ [fresh]) o k (VRef (length h))) as [h2|e] eqn:Hw;
          [|discriminate].
        simpl in Hfresh.
        eapply keys_kept_trans; [apply (keys_kept_alloc h fresh)|].
        eapply keys_kept_trans; [eapply assign_prop_keys_kept; exact Hw|].
        eapply IH; exact Hfresh.
      * eapply IH; exact Hrec.
Qed.

(** *** The differ keeps the keys of objects *)

Lemma each_Forall {A : Type} (P : change -> Prop) (f : A -> res (list change))
    (xs : list A) :
  (forall x ds, In x xs -> f x = Ok ds -> Forall P ds) ->
  forall ds, DeepDiff.each f xs = Ok ds -> Forall P ds.
Proof.
  unfold DeepDiff.each.
  assert (Hgen : forall acc,
            (forall x ds, In x xs -> f x = Ok ds -> Forall P ds) ->
            (forall ds0, acc = Ok ds0 -> Forall P ds0) ->
            forall ds,
              fold_left (fun acc x => let* ds := acc in let* d := f x in
                                      Ok (ds ++ d)%list) xs acc = Ok ds ->
              Forall P ds).
  { induction xs as [|x xs IH]; intros acc Hf Hacc ds Hfold; simpl in Hfold.
    - apply Hacc. exact Hfold.
    - eapply IH; [| |exact Hfold].
      + intros y dy Hy. apply Hf. right. exact Hy.
      + intros ds0 H0. destruct acc as [da|e]; [|discriminate].
        simpl in H0. destruct (f x) as [dx|e] eqn:Hx; [|discriminate].
        injection H0 as <-. apply Forall_app. split.
        * apply Hacc. reflexivity.
        * eapply Hf; [left; reflexivity|exact Hx]. }
  intros Hf. apply Hgen; [exact Hf|]. intros ds0 [= <-]. constructor.
Qed.

(** Every record of a diff has the shape [diff_record]. *)
Lemma deepDiff_records (to_primitive : heap -> addr -> string) (h : heap) :
  forall fuel stack path lhs rhs ds,
    DeepDiff.deepDiff to_primitive fuel h stack path lhs rhs = Ok ds ->
    Forall (fun d => DeepDiff.diff_record d = true) ds.
Proof.
  induction fuel as [|fuel IH]; intros stack path lhs rhs ds Hd;
    [discriminate|].
  cbn [DeepDiff.deepDiff] in Hd.
  destruct (DeepDiff.realTypeOf to_primitive h lhs) as [rl|e]; [|discriminate].
  cbn [bind] in Hd.
  match type of Hd with
  | (let* regexps := ?m in _) = _ => destruct m as [regexps|e]; [|discriminate]
  end.
  cbn [bind] in Hd.
  set (lr := match regexps with Some lr => lr | None => (lhs, rhs) end) in Hd.
  destruct lr as [l r]. clear regexps rl.
  assert (Hone : forall d, Ok [d] = Ok ds -> DeepDiff.diff_record d = true ->
                           Forall (fun d => DeepDiff.diff_record d = true) ds).
  { intros d [= <-] Hrec. constructor; [exact Hrec|constructor]. }
  assert (Hnil : @Ok (list change) [] = Ok ds ->
                 Forall (fun d => DeepDiff.diff_record d = true) ds).
  { intros [= <-]. constructor. }
  assert (Hmain :
    (let* rl := DeepDiff.realTypeOf to_primitive h l in
     let* rr := DeepDiff.realTypeOf to_primitive h r in
     if negb (DeepDiff.real_type_eqb rl rr) then Ok [Edit path l r]
     else
       match l, r with
       | VRef a, VRef b =>
           if existsb (Nat.eqb a) stack then Ok []
           else
             match h !! a, h !! b with
             | Some oa, Some ob =>
                 let rec := DeepDiff.deepDiff to_primitive fuel h (a :: stack) in
                 match okind oa with
                 | KArray =>
                     let* common :=
                       DeepDiff.each
                         (fun i =>
                            let l0 := prop_read h l (string_of_nat i) in
                            if Nat.leb (olen ob) i
                            then Ok [InArray path i (Deleted [] l0)]
                            else rec (path ++ [PIndex i])%list l0
                                     (prop_read h r (string_of_nat i)))
                         (seq 0 (olen oa)) in
                     Ok (common
                         ++ map (fun i =>
                                   InArray path i
                                     (New [] (prop_read h r (string_of_nat i))))
                                (seq (olen oa) (olen ob - olen oa)))%list
                 | _ =>
                     let akeys := for_in_keys oa in
                     let pkeys := for_in_keys ob in
                     let* left :=
                       DeepDiff.each
                         (fun k => rec (path ++ [PName k])%list
                                       (prop_read h l k)
                                       (if existsb (String.eqb k) pkeys
                                        then prop_read h r k else VUndef))
                         akeys in
                     let* right :=
                       DeepDiff.each
                         (fun k => rec (path ++ [PName k])%list VUndef
                                       (prop_read h r k))
                         (List.filter
                            (fun k => negb (existsb (String.eqb k) akeys))
                            pkeys) in
                     Ok (left ++ right)%list
                 end
             | _, _ => Throw (Unmodelled "reference out of the store")
             end
       | _, _ => if value_eqb l r then Ok [] else Ok [Edit path l r]
       end) = Ok ds ->
    Forall (fun d => DeepDiff.diff_record d = true) ds).
  { clear Hd. intros Hd.
    destruct (DeepDiff.realTypeOf to_primitive h l) as [tl|e]; [|discriminate].
    destruct (DeepDiff.realTypeOf to_primitive h r) as [tr|e]; [|discriminate].
    cbn [bind] in Hd.
    destruct (negb (DeepDiff.real_type_eqb tl tr)); [apply (Hone _ Hd); reflexivity|].
    assert (Hscalar : (if value_eqb l r then Ok [] else Ok [Edit path l r]) = Ok ds ->
                      Forall (fun d => DeepDiff.diff_record d = true) ds).
    { destruct (value_eqb l r); [exact Hnil|].
      intros H1. apply (Hone _ H1). reflexivity. }
    destruct l as [| | | | |a]; try exact (Hscalar Hd).
    destruct r as [| | | | |b]; try exact (Hscalar Hd).
    clear Hscalar.
    destruct (existsb (Nat.eqb a) stack); [exact (Hnil Hd)|].
    destruct (h !! a) as [oa|]; [|discriminate].
    destruct (h !! b) as [ob|]; [|discriminate].
    cbv zeta in Hd.
    assert (Harr :
      (let* common :=
         DeepDiff.each
           (fun i =>
              let l0 := prop_read h (VRef a) (string_of_nat i) in
              if Nat.leb (olen ob) i
              then Ok [InArray path i (Deleted [] l0)]
              else DeepDiff.deepDiff to_primitive fuel h (a :: stack)
                     (path ++ [PIndex i])%list l0
                     (prop_read h (VRef b) (string_of_nat i)))
           (seq 0 (olen oa)) in
       Ok (common
           ++ map (fun i =>
                     InArray path i
                       (New [] (prop_read h (VRef b) (string_of_nat i))))
                  (seq (olen oa) (olen ob - olen oa)))%list) = Ok ds ->
      Forall (fun d => DeepDiff.diff_record d = true) ds).
    { clear Hd. intros Hd.
      match type of Hd with
      | (let* common := ?m in _) = _ => destruct m as [common|e] eqn:Hc; [|discriminate]
      end.
      cbn [bind] in Hd. injection Hd as <-. apply Forall_app. split.
      - revert Hc. apply each_Forall. intros i di _ Hi. cbv zeta in Hi.
        destruct (Nat.leb (olen ob) i).
        + injection Hi as <-. constructor; [reflexivity|constructor].
        + eapply IH. exact Hi.
      - generalize (seq (olen oa) (olen ob - olen oa)). intros js.
        induction js as [|i js IHjs]; constructor; [reflexivity|exact IHjs]. }
    assert (Hobj :
      (let* left :=
         DeepDiff.each
           (fun k => DeepDiff.deepDiff to_primitive fuel h (a :: stack)
                       (path ++ [PName k])%list
                       (prop_read h (VRef a) k)
                       (if existsb (String.eqb k) (for_in_keys ob)
                        then prop_read h (VRef b) k else VUndef))
           (for_in_keys oa) in
       let* right :=
         DeepDiff.each
           (fun k => DeepDiff.deepDiff to_primitive fuel h (a :: stack)
                       (path ++ [PName k])%list VUndef
                       (prop_read h (VRef b) k))
           (List.filter
              (fun k => negb (existsb (String.eqb k) (for_in_keys oa)))
              (for_in_keys ob)) in
       Ok (left ++ right)%list) = Ok ds ->
      Forall (fun d => DeepDiff.diff_record d = true) ds).
    { clear Hd Harr. intros Hd.
      match type of Hd with
      | (let* left := ?m in _) = _ => destruct m as [left|e] eqn:Hl; [|discriminate]
      end.
      cbn [bind] in Hd.
      match type of Hd with
      | (let* right := ?m in _) = _ => destruct m as [right|e] eqn:Hr; [|discriminate]
      end.
      cbn [bind] in Hd. injection Hd as <-. apply Forall_app. split.
      - revert Hl. apply each_Forall. intros k dk _ Hk. eapply IH. exact Hk.
      - revert Hr. apply each_Forall. intros k dk _ Hk. eapply IH. exact Hk. }
    destruct (okind oa); [exact (Hobj Hd)|exact (Harr Hd)|exact (Hobj Hd)]. }
  destruct l as [| |?|?|?|a]; destruct r as [| |?|?|?|c];
    try exact (Hnil Hd); try (apply (Hone _ Hd); reflexivity); exact (Hmain Hd).
Qed.

Lemma diff_records (to_primitive : heap -> addr -> string) (h : heap)
    (lhs rhs : value) (ds : list change) :
  DeepDiff.diff to_primitive h lhs rhs = Ok (Some ds) ->
  Forall (fun d => DeepDiff.diff_record d = true) ds.
Proof.
  unfold DeepDiff.diff.
  destruct (DeepDiff.deepDiff to_primitive (S (S (length h))) h [] [] lhs rhs)
    as [ds0|e] eqn:Hd; [|discriminate].
  cbn [bind]. destruct ds0 as [|d0 ds0]; [discriminate|].
  intros [= <-]. eapply deepDiff_records. exact Hd.
Qed.

Lemma walk_keys_kept (path : list pkey) :
  forall h it h1 it1,
    DeepDiff.walk h it path = Ok (h1, it1) -> keys_kept h h1.
Proof.
  induction path as [|k rest IH]; intros h it h1 it1 Hw; cbn [DeepDiff.walk] in Hw.
  - injection Hw as <- _. apply keys_kept_refl.
  - destruct rest as [|k1 rest'].
    + injection Hw as <- _. apply keys_kept_refl.
    + destruct (read_prop h it (pkey_str k)) as [cur|e]; [|discriminate].
      cbn [bind] in Hw.
      match type of Hw with
      | (let* h1 := ?m in _) = _ => destruct m as [h2|e] eqn:Hm; [|discriminate]
      end.
      cbn [bind] in Hw.
      destruct (read_prop h2 it (pkey_str k)) as [next|e]; [|discriminate].
      cbn [bind] in Hw.
      eapply keys_kept_trans; [|eapply IH; exact Hw].
      destruct cur; try (injection Hm as <-; apply keys_kept_refl).
      unfold alloc in Hm.
      eapply keys_kept_trans; [apply keys_kept_alloc|].
      eapply assign_prop_keys_kept. exact Hm.
Qed.

Lemma arrayRemove_keys_kept (h h' : heap) (arr : value) (from : nat) :
  DeepDiff.arrayRemove h arr from = Ok h' -> keys_kept h h'.
Proof.
  unfold DeepDiff.arrayRemove.
  destruct arr as [| | | | |a]; try discriminate.
  destruct (h !! a) as [o|] eqn:Ha; [|discriminate].
  destruct (okind o) eqn:Hk; try discriminate.
  destruct (alist_get "slice" (oprops o)); [discriminate|].
  destruct (alist_get "push" (oprops o)); [discriminate|].
  cbv zeta.
  destruct (array_length_of (VNum (Z.of_nat from))) as [n|e]; [|discriminate].
  cbn [bind]. intros [= <-].
  apply (keys_kept_insert h a o _ Ha). congruence.
Qed.

(** A record of a diff that is not a deletion removes no key of an
    object. *)
Lemma applyChange_keys_kept (h : heap) (target source : value) (d : change)
    (h' : heap) :
  DeepDiff.diff_record d = true -> is_deleted d = false ->
  DeepDiff.applyChange h target source d = Ok h' -> keys_kept h h'.
Proof.
  intros Hrec Hdel. unfold DeepDiff.applyChange.
  destruct (truthy target && truthy source);
    [|intros [= <-]; apply keys_kept_refl].
  destruct (DeepDiff.walk h target (cpath d)) as [[h1 it]|e] eqn:Hw;
    [|discriminate].
  cbn [bind]. intros Happ.
  eapply keys_kept_trans; [eapply walk_keys_kept; exact Hw|].
  unfold is_deleted in Hdel. unfold DeepDiff.diff_record in Hrec.
  destruct d as [kd path lhs rhs index item].
  cbn [ckind cpath citem cindex crhs] in *.
  destruct kd; try discriminate.
  - destruct (DeepDiff.last_key path) as [k|e]; [|discriminate].
    cbn [bind] in Happ. eapply assign_prop_keys_kept. exact Happ.
  - destruct (DeepDiff.last_key path) as [k|e]; [|discriminate].
    cbn [bind] in Happ. eapply assign_prop_keys_kept. exact Happ.
  - destruct path as [|k0 path0]; [discriminate|].
    destruct (DeepDiff.last_key (k0 :: path0)) as [k|e]; [|discriminate].
    cbn [bind] in Happ.
    destruct (read_prop h1 it k) as [arr|e]; [|discriminate].
    cbn [bind] in Happ.
    destruct item as [[ikd ipath ilhs irhs iindex iitem]|]; [|discriminate].
    cbn [ckind cpath] in Hrec.
    destruct ipath; [|discriminate].
    cbn [DeepDiff.applyArrayChange] in Happ.
    destruct ikd; try discriminate.
    + eapply assign_prop_keys_kept. exact Happ.
    + eapply arrayRemove_keys_kept. exact Happ.
Qed.

Section MergeProperties.

Variable diff : heap -> value -> value -> res (option (list change)).
Variable applyChange : heap -> value -> value -> change -> res heap.

Lemma merge_fold_is_filter (this : addr) (box : value) (ds : list change) :
  forall acc,
    fold_left (merge_step applyChange this box) ds acc
    = apply_records applyChange this box acc (List.filter not_deleted ds).
Proof.
  unfold apply_records.
  induction ds as [|d ds IH]; intros acc; simpl; [reflexivity|].
  unfold not_deleted at 1, merge_step at 2.
  destruct (is_deleted d); simpl.
  - rewrite <- IH. f_equal. destruct acc; reflexivity.
  - apply IH.
Qed.

Lemma merge_fold_throw (this : addr) (box : value) (ds : list change) (e : exn) :
  fold_left (merge_step applyChange this box) ds (Throw e) = Throw e.
Proof.
  induction ds as [|d ds IH]; simpl; [reflexivity|exact IH].
Qed.

Lemma merge_is_filter (h : heap) (this : addr) (other : value) :
  merge diff applyChange h this other
  = let* ds := diff h (field h this "_payload") other in
    match ds with
    | Some ds =>
        let* h' := apply_records applyChange this other (Ok h)
                     (List.filter not_deleted ds) in
        Ok (h', this)
    | None => Ok (h, this)
    end.
Proof.
  unfold merge. destruct (diff h (field h this "_payload") other) as [[ds|]|e];
    try reflexivity.
  cbn [bind]. rewrite merge_fold_is_filter. reflexivity.
Qed.

Lemma merge_fold_keys_kept (P : change -> Prop) (this : addr) (box : value)
    (ds : list change) :
  (forall h target source d h',
     P d -> is_deleted d = false ->
     applyChange h target source d = Ok h' -> keys_kept h h') ->
  Forall P ds ->
  forall h h',
    fold_left (merge_step applyChange this box) ds (Ok h) = Ok h' ->
    keys_kept h h'.
Proof.
  intros Hkeeps.
  induction ds as [|d ds IH]; intros Hall h h' Hfold; simpl in Hfold.
  - injection Hfold as <-. apply keys_kept_refl.
  - pose proof (Forall_inv Hall) as Hd0. apply Forall_inv_tail in Hall.
    destruct (is_deleted d) eqn:Hd.
    + apply IH; [exact Hall|exact Hfold].
    + destruct (applyChange h (field h this "_payload") box d) as [h1|e] eqn:Happ.
      * eapply keys_kept_trans; [eapply Hkeeps; eassumption|].
        apply IH; [exact Hall|exact Hfold].
      * rewrite merge_fold_throw in Hfold. discriminate.
Qed.

End MergeProperties.



(** Merging with [{c: 3}] alone: [a] and [b] survive. *)
Lemma merge_keeps_absent_keys_example :
  DeepDiff.diff plain_to_primitive merge_heap (VRef 0) (VRef 4)
  = Ok (Some [Deleted [PName "a"] (VNum 1); Deleted [PName "b"] (VNum 2);
              New [PName "c"] (VNum 3)]) /\
  exists h',
    merge (DeepDiff.diff plain_to_primitive) DeepDiff.applyChange
          merge_heap 3 (VRef 4) = Ok (h', 3) /\
    h' !! 0 = Some (mkObj KObject [("a", VNum 1); ("b", VNum 2); ("c", VNum 3)] 0).
Proof.
  split; [vm_compute; reflexivity|].
  eexists. split; [vm_compute; reflexivity|reflexivity].
Qed.


(** ** Trees in the store *)

Lemma tree_forall_ind (Q : tree -> Prop) :
  (forall v, Q (TLeaf v)) ->
  (forall kd len ts, Forall (fun kt => Q (snd kt)) ts -> Q (TNode kd len ts)) ->
  forall t, Q t.
Proof.
  intros Hleaf Hnode. fix IH 1. intros [v|kd len ts].
  - apply Hleaf.
  - apply Hnode. induction ts as [|[k c] r IHr]; constructor.
    + apply IH.
    + exact IHr.
Qed.

Lemma Forall2_children_impl (R R' : value -> tree -> Prop)
    (ps : list (string * value)) (ts : list (string * tree)) :
  Forall (fun kt => forall v, R v (snd kt) -> R' v (snd kt)) ts ->
  Forall2 (fun p t => fst p = fst t /\ R (snd p) (snd t)) ps ts ->
  Forall2 (fun p t => fst p = fst t /\ R' (snd p) (snd t)) ps ts.
Proof.
  intros Hall H2. induction H2 as [|p t ps ts [Hk Hr] _ IH]; constructor.
  - split; [exact Hk|]. apply Forall_inv in Hall. apply Hall. exact Hr.
  - apply IH. apply Forall_inv_tail in Hall. exact Hall.
Qed.

(** A tree stays a tree in any store that holds its containers unchanged. *)
Lemma tree_of_transfer (P Q : addr -> Prop) (h h' : heap) (t : tree) :
  (forall a o, P a -> h !! a = Some o -> Q a /\ h' !! a = Some o) ->
  forall v, tree_of P h v t -> tree_of Q h' v t.
Proof.
  intros Hsame. induction t as [w|kd len ts IH] using tree_forall_ind;
    intros v Ht; inversion Ht; subst.
  - constructor. assumption.
  - match goal with
    | Hp : P ?a, Ha : h !! ?a = Some ?o |- _ =>
        destruct (Hsame a o Hp Ha) as [Hq Ha']
    end.
    eapply tree_node; try eassumption.
    eapply Forall2_children_impl; eassumption.
Qed.

Lemma tree_of_weaken (P Q : addr -> Prop) (h : heap) (v : value) (t : tree) :
  (forall a, P a -> Q a) -> tree_of P h v t -> tree_of Q h v t.
Proof.
  intros HPQ. apply tree_of_transfer. intros a o Hp Ha. split; auto.
Qed.

Lemma Forall2_perm_r {A B : Type} (R : A -> B -> Prop) (l : list A) (r r' : list B) :
  Permutation r r' -> Forall2 R l r ->
  exists l', Permutation l l' /\ Forall2 R l' r'.
Proof.
  intros Hperm. revert l.
  induction Hperm as [|x r r' _ IH|x y r|r1 r2 r3 _ IH1 _ IH2]; intros l H2.
  - inversion H2; subst. exists []. split; constructor.
  - inversion H2 as [|a b l0 r0 Hab Hrest]; subst.
    destruct (IH l0 Hrest) as [l' [Hp Hf]].
    exists (a :: l'). split; [constructor; exact Hp|constructor; assumption].
  - inversion H2 as [|a b l0 r0 Hab Hrest]; subst.
    inversion Hrest as [|a1 b1 l1 r1 Hab1 Hrest1]; subst.
    exists (a1 :: a :: l1). split; [apply perm_swap|].
    repeat constructor; assumption.
  - destruct (IH1 l H2) as [l1 [Hp1 Hf1]].
    destruct (IH2 l1 Hf1) as [l2 [Hp2 Hf2]].
    exists l2. split; [eapply perm_trans; eassumption|exact Hf2].
Qed.

Lemma tree_of_perm (P : addr -> Prop) (h : heap) (v : value)
    (kd : kind) (len : nat) (ts ts' : list (string * tree)) :
  Permutation ts ts' ->
  tree_of P h v (TNode kd len ts) -> tree_of P h v (TNode kd len ts').
Proof.
  intros Hperm Ht. inversion Ht; subst.
  match goal with
  | H2 : Forall2 _ ?ps ts |- _ =>
      destruct (Forall2_perm_r _ _ _ _ Hperm H2) as [ps' [Hps' H2']]
  end.
  apply (tree_node P h a o ps' ts'); try assumption.
  eapply perm_trans; [apply Permutation_sym; exact Hps'|assumption].
Qed.

Lemma needed_len_snoc {A : Type} (l : list (string * A)) (k : string) (x : A) :
  needed_len (l ++ [(k, x)])%list
  = match key_index k with
    | Some i => Nat.max (needed_len l) (S i)
    | None => needed_len l
    end.
Proof.
  unfold needed_len. induction l as [|[k0 x0] t IH]; simpl.
  - destruct (key_index k); [lia|reflexivity].
  - rewrite IH. destruct (key_index k0), (key_index k); lia.
Qed.

Lemma needed_len_perm {A : Type} (l l' : list (string * A)) :
  Permutation l l' -> needed_len l = needed_len l'.
Proof.
  unfold needed_len.
  induction 1 as [|[k x] l l' _ IH|[k x] [k' x'] l|l1 l2 l3 _ IH1 _ IH2]; simpl.
  - reflexivity.
  - rewrite IH. reflexivity.
  - destruct (key_index k), (key_index k'); lia.
  - congruence.
Qed.

(** ** Steps of the deep merge *)

Lemma write_prop_obj (h : heap) (a : addr) (o : obj) (k : string) (w : value) :
  h !! a = Some o ->
  (okind o = KArray -> k <> "length") ->
  write_prop h (VRef a) k w = Ok (<[a := obj_write o k w]> h).
Proof.
  intros Ha Hk. unfold write_prop, obj_write. rewrite Ha.
  destruct (okind o) eqn:Hkd; try reflexivity.
  destruct (String.eqb_spec k "length") as [->|_];
    [exfalso; exact (Hk eq_refl eq_refl)|reflexivity].
Qed.

Lemma prop_read_obj (h : heap) (a : addr) (o : obj) (k : string) :
  h !! a = Some o ->
  (okind o = KArray -> k <> "length") ->
  prop_read h (VRef a) k = match alist_get k (oprops o) with
                           | Some w => w
                           | None => VUndef
                           end.
Proof.
  intros Ha Hk. unfold prop_read, own_prop. rewrite Ha.
  destruct (okind o) eqn:Hkd; try reflexivity. simpl.
  destruct (String.eqb_spec k "length") as [->|_];
    [exfalso; exact (Hk eq_refl eq_refl)|reflexivity].
Qed.

Lemma is_kind_obj (h : heap) (a : addr) (o : obj) (kd : kind) :
  h !! a = Some o -> is_kind h (VRef a) kd = kind_eqb (okind o) kd.
Proof. intros Ha. unfold is_kind. rewrite Ha. reflexivity. Qed.

Section ExtendSteps.

Variable rec : heap -> addr -> addr -> option heap.
Variables target options : addr.

Lemma extend_step_undef (hc : heap) (name : string) :
  prop_read hc (VRef options) name = VUndef ->
  extend_step rec target options (Some hc) name = Some hc.
Proof.
  intros Hcopy. unfold extend_step. rewrite Hcopy. reflexivity.
Qed.

Lemma extend_step_prim (hc : heap) (name : string) (ot : obj) (copy : value) :
  prop_read hc (VRef options) name = copy ->
  is_prim copy = true -> copy <> VUndef ->
  hc !! target = Some ot ->
  (okind ot = KArray -> name <> "length") ->
  extend_step rec target options (Some hc) name
  = Some (<[target := obj_write ot name copy]> hc).
Proof.
  intros Hcopy Hprim Hdef Ht Hlen. unfold extend_step. rewrite Hcopy.
  rewrite (write_prop_obj hc target ot name copy Ht Hlen).
  destruct copy; try reflexivity; [congruence|discriminate].
Qed.

Lemma extend_step_fresh (hc h2 : heap) (name : string) (ot oc : obj) (c : addr) :
  prop_read hc (VRef options) name = VRef c ->
  c <> target ->
  hc !! c = Some oc ->
  okind oc <> KBox ->
  is_kind hc (prop_read hc (VRef target) name) (okind oc) = false ->
  rec (hc ++ [mkObj (okind oc) [] 0])%list (length hc) c = Some h2 ->
  h2 !! target = Some ot ->
  (okind ot = KArray -> name <> "length") ->
  extend_step rec target options (Some hc) name
  = Some (<[target := obj_write ot name (VRef (length hc))]> h2).
Proof.
  intros Hcopy Hne Hc Hkd Hsrc Hrec Ht Hlen. unfold extend_step. rewrite Hcopy.
  assert (Heq : value_eqb (VRef target) (VRef c) = false).
  { simpl. apply Nat.eqb_neq. congruence. }
  rewrite Heq. rewrite !(is_kind_obj hc c oc) by exact Hc.
  destruct (okind oc) eqn:Hk; try congruence; cbn -[write_prop alloc];
    rewrite Hsrc; unfold alloc; rewrite Hrec;
    rewrite (write_prop_obj h2 target ot name _ Ht Hlen); reflexivity.
Qed.

Lemma extend_step_reuse (hc h2 : heap) (name : string) (ot oc os : obj) (c s : addr) :
  prop_read hc (VRef options) name = VRef c ->
  c <> target ->
  hc !! c = Some oc ->
  okind oc <> KBox ->
  prop_read hc (VRef target) name = VRef s ->
  hc !! s = Some os ->
  okind os = okind oc ->
  rec hc s c = Some h2 ->
  h2 !! target = Some ot ->
  (okind ot = KArray -> name <> "length") ->
  extend_step rec target options (Some hc) name
  = Some (<[target := obj_write ot name (VRef s)]> h2).
Proof.
  intros Hcopy Hne Hc Hkd Hsrc Hs Hsk Hrec Ht Hlen. unfold extend_step.
  rewrite Hcopy, Hsrc.
  assert (Heq : value_eqb (VRef target) (VRef c) = false).
  { simpl. apply Nat.eqb_neq. congruence. }
  rewrite Heq. rewrite !(is_kind_obj hc c oc) by exact Hc.
  rewrite !(is_kind_obj hc s os) by exact Hs. rewrite Hsk.
  destruct (okind oc) eqn:Hk; try congruence; cbn -[write_prop alloc];
    rewrite Hrec;
    rewrite (write_prop_obj h2 target ot name _ Ht Hlen); reflexivity.
Qed.

End ExtendSteps.

Lemma alist_set_new (k : string) (v : value) (l : list (string * value)) :
  alist_get k l = None -> alist_set k v l = (l ++ [(k, v)])%list.
Proof.
  induction l as [|[k' v'] t IH]; simpl; [reflexivity|].
  destruct (String.eqb_spec k k'); [discriminate|].
  intros H. rewrite IH by exact H. reflexivity.
Qed.

Lemma alist_get_snoc_ne (k k' : string) (v : value) (l : list (string * value)) :
  k' <> k -> alist_get k' (l ++ [(k, v)])%list = alist_get k' l.
Proof.
  intros Hne. induction l as [|[k0 v0] t IH]; simpl.
  - destruct (String.eqb_spec k' k); [congruence|reflexivity].
  - destruct (String.eqb_spec k' k0); [reflexivity|exact IH].
Qed.

Lemma obj_write_new (kd : kind) (props : list (string * value)) (len : nat)
    (k : string) (w : value) :
  alist_get k props = None ->
  obj_write (mkObj kd props len) k w
  = mkObj kd (props ++ [(k, w)])%list
          (match kd, key_index k with
           | KArray, Some i => Nat.max len (S i)
           | _, _ => len
           end).
Proof.
  intros Hnone. unfold obj_write. simpl. rewrite alist_set_new by exact Hnone.
  reflexivity.
Qed.

Section DeepMerge.

Variables (f N : nat) (h : heap) (src clone : addr) (o : obj).
Hypothesis Hsrc : h !! src = Some o.
Hypothesis HsrcN : src < N.
Hypothesis Hclone : N <= clone.

Lemma extend_fold :
  forall zs hc cprops clen,
    Forall (fun z => copies f (ztree z)) zs ->
    Forall (fun z => tree_of (fun a => a < N) h (zval z) (ztree z) /\
                     alist_get (zkey z) (oprops o) = Some (zval z)) zs ->
    NoDup (map zkey zs) ->
    (forall z, In z zs -> alist_get (zkey z) cprops = None) ->
    (okind o = KArray -> forall z, In z zs -> zkey z <> "length") ->
    (forall a, a < N -> hc !! a = h !! a) ->
    hc !! clone = Some (mkObj (okind o) cprops clen) ->
    exists h' new,
      fold_left (extend_step (extend_deep f) clone src) (map zkey zs) (Some hc)
      = Some h' /\
      length hc <= length h' /\
      (forall a, a < length hc -> a <> clone -> h' !! a = hc !! a) /\
      h' !! clone
      = Some (mkObj (okind o) (cprops ++ new)%list
                    (match okind o with
                     | KArray => Nat.max clen (needed_len new)
                     | _ => clen
                     end)) /\
      Forall2 (fun p t => fst p = fst t /\
                          tree_of (fun a => length hc <= a) h' (snd p) (snd t))
              new (prune_children (map (fun z => (zkey z, ztree z)) zs)).
Proof.
  induction zs as [|[[k v] t] zs IH];
    intros hc cprops clen Hcop Hfacts Hnd Hfresh Hlen Hagree Hcl.
  - exists hc, []. simpl. repeat split; try lia.
    + rewrite app_nil_r. rewrite Hcl. destruct (okind o); f_equal; f_equal; lia.
    + constructor.
  - apply Forall_cons_1 in Hcop as [Hcop1 Hcop].
    apply Forall_cons_1 in Hfacts as [[Htree Hget] Hfacts].
    simpl in Hnd. apply NoDup_cons in Hnd as [Hk Hnd].
    change (k ∉ map zkey zs) in Hk.
    unfold zkey, zval, ztree in Hcop1, Htree, Hget. simpl in Hcop1, Htree, Hget.
    assert (Hklen : okind o = KArray -> k <> "length").
    { intros Ha. apply (Hlen Ha (k, v, t)). left. reflexivity. }
    assert (Hsrc' : hc !! src = Some o) by (rewrite Hagree by exact HsrcN; exact Hsrc).
    assert (Hcopy : prop_read hc (VRef src) k = v).
    { rewrite (prop_read_obj hc src o k Hsrc' Hklen), Hget. reflexivity. }
    assert (Hknew : alist_get k cprops = None).
    { apply (Hfresh (k, v, t)). left. reflexivity. }
    assert (Htgt : prop_read hc (VRef clone) k = VUndef).
    { rewrite (prop_read_obj hc clone _ k Hcl Hklen). simpl. rewrite Hknew. reflexivity. }
    assert (Hcl_lt : clone < length hc) by (eapply lookup_lt_Some; exact Hcl).
    assert (Hcont : forall h1 w tw,
      length hc <= length h1 ->
      (forall a, a < length hc -> a <> clone -> h1 !! a = hc !! a) ->
      h1 !! clone = Some (obj_write (mkObj (okind o) cprops clen) k w) ->
      tree_of (fun a => length hc <= a) h1 w tw ->
      exists h' new,
        fold_left (extend_step (extend_deep f) clone src) (map zkey zs) (Some h1)
        = Some h' /\
        length hc <= length h' /\
        (forall a, a < length hc -> a <> clone -> h' !! a = hc !! a) /\
        h' !! clone
        = Some (mkObj (okind o) (cprops ++ new)%list
                      (match okind o with
                       | KArray => Nat.max clen (needed_len new)
                       | _ => clen
                       end)) /\
        Forall2 (fun p t => fst p = fst t /\
                            tree_of (fun a => length hc <= a) h' (snd p) (snd t))
                new ((k, tw) :: prune_children (map (fun z => (zkey z, ztree z)) zs))).
    { intros h1 w tw Hlen1 Hagree1 Hcl1 Htw.
      rewrite obj_write_new in Hcl1 by exact Hknew.
      destruct (IH h1 (cprops ++ [(k, w)])%list
                  (match okind o, key_index k with
                   | KArray, Some i => Nat.max clen (S i)
                   | _, _ => clen
                   end) Hcop Hfacts Hnd)
        as [h' [new [Hfold [Hlen' [Hagree' [Hcl' Hnew]]]]]].
      - intros z Hz. rewrite alist_get_snoc_ne.
        + apply Hfresh. right. exact Hz.
        + intros Heq. apply Hk. rewrite <- Heq.
          apply list_elem_of_In, in_map. exact Hz.
      - intros Ha z Hz. apply (Hlen Ha). right. exact Hz.
      - intros a Ha. rewrite Hagree1 by lia. apply Hagree. exact Ha.
      - exact Hcl1.
      - exists h', ((k, w) :: new). repeat split.
        + exact Hfold.
        + lia.
        + intros a Ha Hne. rewrite Hagree' by lia. apply Hagree1; assumption.
        + rewrite Hcl'. rewrite <- app_assoc. simpl. f_equal. f_equal.
          unfold needed_len. simpl. fold (needed_len new).
          destruct (okind o), (key_index k); lia.
        + constructor.
          * split; [reflexivity|]. simpl.
            eapply tree_of_transfer; [|exact Htw].
            intros a oa Ha Hoa. split; [exact Ha|]. cbv beta in Ha.
            rewrite Hagree'; [exact Hoa| |lia].
            eapply lookup_lt_Some; exact Hoa.
          * eapply Forall2_impl; [exact Hnew|].
            intros p t' [Hkk Htt]. split; [exact Hkk|].
            eapply tree_of_weaken; [|exact Htt]. simpl. intros a Ha. lia. }
    change (map zkey ((k, v, t) :: zs)) with (k :: map zkey zs).
    cbn [fold_left].
    pose proof Htree as Htree0.
    destruct Htree0 as [v Hprim|c oc ps tsc Hc Hoc Hkd Hl0 Hnl Hndc Hperm Hch].
    + (* a scalar *)
      destruct (value_eqb v VUndef) eqn:Hundef.
      * destruct v; try discriminate Hundef.
        rewrite extend_step_undef by exact Hcopy.
        apply (IH hc cprops clen Hcop Hfacts Hnd).
        -- intros z Hz. apply Hfresh. right. exact Hz.
        -- intros Ha z Hz. apply (Hlen Ha). right. exact Hz.
        -- exact Hagree.
        -- exact Hcl.
      * rewrite (extend_step_prim _ clone src hc k (mkObj (okind o) cprops clen) v Hcopy Hprim);
          [| destruct v; try discriminate; congruence | exact Hcl | exact Hklen].
        replace (prune_children (map (fun z => (zkey z, ztree z)) ((k, v, TLeaf v) :: zs)))
          with ((k, TLeaf v) :: prune_children (map (fun z => (zkey z, ztree z)) zs))
          by (destruct v; try reflexivity; discriminate).
        apply (Hcont _ v (TLeaf v)).
        -- rewrite length_insert. lia.
        -- intros a Ha Hne. apply list_lookup_insert_ne. congruence.
        -- apply list_lookup_insert_eq. exact Hcl_lt.
        -- constructor. exact Hprim.
    + (* a container *)
      cbv beta in Hc.
      set (t := TNode (okind oc) (olen oc) tsc) in *.
      assert (Hhc : forall a oa, a < N -> h !! a = Some oa -> hc !! a = Some oa).
      { intros a oa Ha Hoa. rewrite Hagree by exact Ha. exact Hoa. }
      destruct (Hcop1 N (hc ++ [mkObj (okind oc) [] 0])%list c (length hc))
        as [h2 [Hext [Hlen2 [Hagree2 Htree2]]]].
      * eapply tree_of_transfer; [|exact Htree].
        intros a oa Ha Hoa. cbv beta in Ha. split; [exact Ha|].
        rewrite lookup_app_l by lia. apply Hhc; assumption.
      * lia.
      * rewrite lookup_fresh0. reflexivity.
      * rewrite length_app in Hlen2, Hagree2. simpl in Hlen2, Hagree2.
        assert (Hcl2 : h2 !! clone = Some (mkObj (okind o) cprops clen)).
        { rewrite Hagree2 by lia. rewrite lookup_app_l by lia. exact Hcl. }
        rewrite (extend_step_fresh _ clone src hc h2 k (mkObj (okind o) cprops clen) oc c Hcopy);
          [| lia | apply (Hhc c oc Hc Hoc) | exact Hkd
           | rewrite Htgt; reflexivity | exact Hext | exact Hcl2 | exact Hklen].
        change (prune_children (map (fun z => (zkey z, ztree z)) ((k, VRef c, t) :: zs)))
          with ((k, prune t) :: prune_children (map (fun z => (zkey z, ztree z)) zs)).
        apply (Hcont _ (VRef (length hc)) (prune t)).
        -- rewrite length_insert. lia.
        -- intros a Ha Hne. rewrite list_lookup_insert_ne by congruence.
           rewrite Hagree2 by lia. apply lookup_app_l. exact Ha.
        -- apply list_lookup_insert_eq. lia.
        -- eapply tree_of_transfer; [|exact Htree2].
           intros a oa Ha Hoa. cbv beta in Ha. rewrite length_app in Ha. simpl in Ha.
           split; [lia|]. rewrite list_lookup_insert_ne by lia. exact Hoa.
Qed.

End DeepMerge.

Lemma Forall2_triples (R : value -> tree -> Prop)
    (ps : list (string * value)) (ts : list (string * tree)) :
  Forall2 (fun p t => fst p = fst t /\ R (snd p) (snd t)) ps ts ->
  exists zs : list (string * value * tree),
    map (fun z => (zkey z, zval z)) zs = ps /\
    map (fun z => (zkey z, ztree z)) zs = ts /\
    Forall (fun z => R (zval z) (ztree z)) zs.
Proof.
  induction 1 as [|[k v] [k' t] ps ts [Hk Hr] _ [zs [Hps [Hts Hall]]]].
  - exists []. repeat split; constructor.
  - simpl in Hk, Hr. subst k'. exists ((k, v, t) :: zs). simpl.
    rewrite Hps, Hts. repeat split. constructor; assumption.
Qed.

Lemma alist_get_NoDup_In (k : string) (v : value) (l : list (string * value)) :
  NoDup (map fst l) -> In (k, v) l -> alist_get k l = Some v.
Proof.
  induction l as [|[k0 v0] t IH]; simpl; intros Hnd Hin; [contradiction|].
  apply NoDup_cons in Hnd as [Hk0 Hnd].
  destruct Hin as [[= -> ->]|Hin].
  - rewrite String.eqb_refl. reflexivity.
  - destruct (String.eqb_spec k k0) as [->|_]; [|auto].
    exfalso. apply Hk0. apply list_elem_of_In, in_map_iff. exists (k0, v). auto.
Qed.

Lemma prune_children_keys (l : list (string * tree)) (k : string) :
  In k (map fst (prune_children l)) -> In k (map fst l).
Proof.
  unfold prune_children. induction l as [|[k0 t0] r IH]; simpl; [auto|].
  destruct (is_undef_leaf t0); simpl.
  - intros H. right. auto.
  - intros [->|H]; [left; reflexivity|right; auto].
Qed.

Lemma prune_children_NoDup (l : list (string * tree)) :
  NoDup (map fst l) -> NoDup (map fst (prune_children l)).
Proof.
  induction l as [|[k0 t0] r IH]; simpl; intros Hnd; [constructor|].
  apply NoDup_cons in Hnd as [Hk0 Hnd].
  unfold prune_children. simpl. fold (prune_children r).
  destruct (is_undef_leaf t0); simpl; [auto|].
  apply NoDup_cons. split; [|auto].
  intros Hin. apply Hk0. apply list_elem_of_In.
  apply prune_children_keys. apply list_elem_of_In. exact Hin.
Qed.

Lemma Forall2_keys (R : value -> tree -> Prop)
    (ps : list (string * value)) (ts : list (string * tree)) :
  Forall2 (fun p t => fst p = fst t /\ R (snd p) (snd t)) ps ts ->
  map fst ps = map fst ts.
Proof.
  induction 1 as [|p t ps ts [Hk _] _ IH]; simpl; congruence.
Qed.

Lemma needed_len_keys {A B : Type} (l : list (string * A)) (r : list (string * B)) :
  map fst l = map fst r -> needed_len l = needed_len r.
Proof.
  unfold needed_len. revert r.
  induction l as [|[k a] l IH]; intros [|[k' b] r]; simpl; try discriminate.
  - reflexivity.
  - intros [= -> Hrest]. rewrite (IH r Hrest). reflexivity.
Qed.

(** A deep merge of a tree into a fresh empty container of its kind builds
    the pruned tree, with fuel for its depth. *)
Lemma extend_deep_copies (t : tree) : forall f, depth t <= f -> copies f t.
Proof.
  induction t as [v|kd len ts IH] using tree_forall_ind; intros f Hd.
  - intros N h c cl Htree. inversion Htree. discriminate.
  - destruct f as [|f']; [simpl in Hd; lia|].
    intros N h c cl Htree HN Hcl.
    inversion Htree as [|a o ps ts0 Hc Hoc Hkd Hl0 Hnl Hndc Hperm Hch]; subst.
    cbv beta in Hc. simpl tree_kind in Hcl.
    destruct (Forall2_triples _ _ _ Hch) as [zs0 [Hps [Hts Hall0]]].
    pose proof (for_in_keys_perm o) as Hks.
    assert (Hks0 : Permutation (for_in_keys o) (map zkey zs0)).
    { rewrite Hks. rewrite <- Hperm. rewrite <- Hps. rewrite map_map. reflexivity. }
    destruct (Permutation_map_inv _ _ Hks0) as [zs [Hkeys Hzs]].
    assert (Hin0 : forall z, In z zs -> In z zs0).
    { intros z Hz. apply (Permutation_in z (Permutation_sym Hzs) Hz). }
    assert (Hprops : forall z, In z zs -> In (zkey z, zval z) (oprops o)).
    { intros z Hz. apply (Permutation_in _ Hperm). rewrite <- Hps.
      apply (in_map (fun z => (zkey z, zval z))). auto. }
    assert (Htsin : forall z, In z zs -> In (zkey z, ztree z) ts).
    { intros z Hz. rewrite <- Hts.
      apply (in_map (fun z => (zkey z, ztree z))). auto. }
    simpl in Hd. apply le_S_n in Hd. apply list_max_le in Hd.
    destruct (extend_fold f' N h c cl o Hoc Hc HN zs h [] 0)
      as [h' [new [Hfold [Hlen' [Hagree' [Hcl' Hnew]]]]]].
    + apply List.Forall_forall. intros z Hz.
      rewrite List.Forall_forall in IH. apply (IH _ (Htsin z Hz)).
      rewrite List.Forall_forall in Hd. apply Hd.
      apply (in_map (fun kt => depth (snd kt)) _ _ (Htsin z Hz)).
    + apply List.Forall_forall. intros z Hz. split.
      * rewrite List.Forall_forall in Hall0. apply Hall0. auto.
      * apply alist_get_NoDup_In; auto.
    + rewrite <- Hkeys, Hks. exact Hndc.
    + reflexivity.
    + intros Ha z Hz Heq. apply (Hnl Ha). rewrite <- Heq.
      apply (in_map fst _ _ (Hprops z Hz)).
    + reflexivity.
    + exact Hcl.
    + exists h'. repeat split.
      * simpl. rewrite Hoc, Hkeys. exact Hfold.
      * exact Hlen'.
      * exact Hagree'.
      * assert (Hpt : Permutation
                        (prune_children (map (fun z => (zkey z, ztree z)) zs))
                        (prune_children ts)).
        { unfold prune_children. apply Permutation_flat_map.
          rewrite <- Hts. apply Permutation_map. apply Permutation_sym. exact Hzs. }
        assert (Hnk : map fst new
                      = map fst (prune_children (map (fun z => (zkey z, ztree z)) zs)))
          by (eapply Forall2_keys; exact Hnew).
        assert (Hsub : forall k, In k (map fst new) -> In k (map fst (oprops o))).
        { intros k Hk. rewrite Hnk in Hk. apply prune_children_keys in Hk.
          rewrite map_map in Hk. simpl in Hk.
          apply in_map_iff in Hk as [z [<- Hz]].
          apply (in_map fst _ _ (Hprops z Hz)). }
        change (prune (TNode (okind o) (olen o) ts))
          with (TNode (okind o)
                      (match okind o with
                       | KArray => needed_len (prune_children ts)
                       | _ => 0
                       end) (prune_children ts)).
        apply (tree_of_perm _ _ _ _ _ _ _ Hpt).
        replace (match okind o with
                 | KArray => needed_len (prune_children ts)
                 | _ => 0
                 end)
          with (olen (mkObj (okind o) new
                            (match okind o with
                             | KArray => Nat.max 0 (needed_len new)
                             | _ => 0
                             end))).
        2:{ simpl. destruct (okind o); try reflexivity.
            rewrite (needed_len_keys _ _ Hnk). apply needed_len_perm. exact Hpt. }
        apply (tree_node _ h' cl
                 (mkObj (okind o) new
                        (match okind o with
                         | KArray => Nat.max 0 (needed_len new)
                         | _ => 0
                         end)) new).
        -- left. reflexivity.
        -- exact Hcl'.
        -- exact Hkd.
        -- simpl. intros ->. reflexivity.
        -- simpl. intros Ha Hin. apply (Hnl Ha). apply Hsub. exact Hin.
        -- simpl. rewrite Hnk. apply prune_children_NoDup.
           replace (map fst (map (fun z => (zkey z, ztree z)) zs))
             with (map zkey zs) by (rewrite map_map; reflexivity).
           rewrite <- Hkeys, Hks. exact Hndc.
        -- reflexivity.
        -- eapply Forall2_impl; [exact Hnew|].
           intros p t' [Hkk Htt]. split; [exact Hkk|].
           eapply tree_of_weaken; [|exact Htt]. intros a Ha. right. exact Ha.
Qed.

(** ** Copying one field of a Box *)

Section CopyField.

Variables (f N : nat) (h hc : heap) (this b : addr) (name : string)
          (ot : obj) (copy : value) (t : tree).
Hypothesis Hagree : forall a, a < N -> hc !! a = h !! a.
Hypothesis HthisN : N <= this.
Hypothesis HbN : b < N.
Hypothesis Hthis : hc !! this = Some ot.
Hypothesis Hbox : okind ot = KBox.
Hypothesis Hcopy : prop_read hc (VRef b) name = copy.
Hypothesis Htree : tree_of (fun a => a < N) h copy t.
Hypothesis Hdef : copy <> VUndef.
Hypothesis Hdepth : depth t <= f.

Lemma copy_field_leaf :
  is_prim copy = true ->
  extend_step (extend_deep f) this b (Some hc) name
  = Some (<[this := obj_write ot name copy]> hc).
Proof.
  intros Hprim. apply extend_step_prim; try assumption.
  rewrite Hbox. discriminate.
Qed.

Lemma copy_field_fresh :
  is_prim copy = true \/
  is_kind hc (prop_read hc (VRef this) name) (tree_kind t) = false ->
  exists h' w,
    extend_step (extend_deep f) this b (Some hc) name = Some h' /\
    length hc <= length h' /\
    (forall a, a < length hc -> a <> this -> h' !! a = hc !! a) /\
    h' !! this = Some (obj_write ot name w) /\
    tree_of (fun a => length hc <= a) h' w (prune t).
Proof.
  intros Hsrc.
  assert (Hlt : this < length hc) by (eapply lookup_lt_Some; exact Hthis).
  pose proof Htree as Htree0.
  destruct Htree0 as [v Hprim|c oc ps ts Hc Hoc Hkd Hl0 Hnl Hnd Hperm Hch].
  - exists (<[this := obj_write ot name v]> hc), v. repeat split.
    + apply extend_step_prim; try assumption. rewrite Hbox. discriminate.
    + rewrite length_insert. lia.
    + intros a _ Hne. apply list_lookup_insert_ne. congruence.
    + apply list_lookup_insert_eq. exact Hlt.
    + constructor. exact Hprim.
  - cbv beta in Hc. set (tn := TNode (okind oc) (olen oc) ts) in *.
    destruct (extend_deep_copies tn f Hdepth N
                (hc ++ [mkObj (okind oc) [] 0])%list c (length hc))
      as [h2 [Hext [Hlen2 [Hagree2 Htree2]]]].
    + eapply tree_of_transfer; [|exact Htree].
      intros a oa Ha Hoa. cbv beta in Ha. split; [exact Ha|].
      rewrite lookup_app_l by lia. rewrite Hagree by exact Ha. exact Hoa.
    + lia.
    + rewrite lookup_fresh0. reflexivity.
    + rewrite length_app in Hlen2, Hagree2. simpl in Hlen2, Hagree2.
      assert (Hthis2 : h2 !! this = Some ot).
      { rewrite Hagree2 by lia. rewrite lookup_app_l by lia. exact Hthis. }
      exists (<[this := obj_write ot name (VRef (length hc))]> h2), (VRef (length hc)).
      repeat split.
      * apply (extend_step_fresh _ this b hc h2 name ot oc c Hcopy);
          try assumption; try lia.
        -- rewrite Hagree by exact Hc. exact Hoc.
        -- destruct Hsrc as [Hp|Hsrc]; [discriminate Hp|exact Hsrc].
        -- rewrite Hbox. discriminate.
      * rewrite length_insert. lia.
      * intros a Ha Hne. rewrite list_lookup_insert_ne by congruence.
        rewrite Hagree2 by lia. apply lookup_app_l. exact Ha.
      * apply list_lookup_insert_eq. lia.
      * eapply tree_of_transfer; [|exact Htree2].
        intros a oa Ha Hoa. cbv beta in Ha. rewrite length_app in Ha. simpl in Ha.
        split; [lia|]. rewrite list_lookup_insert_ne by lia. exact Hoa.
Qed.

Lemma copy_field_into_empty (s : addr) :
  prop_read hc (VRef this) name = VRef s ->
  hc !! s = Some (mkObj KObject [] 0) ->
  N <= s -> s <> this ->
  exists h' w,
    extend_step (extend_deep f) this b (Some hc) name = Some h' /\
    length hc <= length h' /\
    (forall a, a < length hc -> a <> this -> a <> s -> h' !! a = hc !! a) /\
    h' !! this = Some (obj_write ot name w) /\
    tree_of (fun a => a = s \/ length hc <= a) h' w (prune t).
Proof.
  intros Hsrc Hs HsN Hsne.
  destruct (kind_eqb (tree_kind t) KObject && negb (is_prim copy)) eqn:Hcase.
  - (* a plain object is merged into the empty object already there *)
    apply andb_prop in Hcase as [Hk Hnp].
    pose proof Htree as Htree0.
    destruct Htree0 as [v Hprim|c oc ps ts Hc Hoc Hkd Hl0 Hnl Hnd Hperm Hch];
      [rewrite Hprim in Hnp; discriminate|].
    cbv beta in Hc. simpl in Hk.
    assert (Hko : okind oc = KObject) by (destruct (okind oc); try discriminate; reflexivity).
    set (tn := TNode (okind oc) (olen oc) ts) in *.
    assert (Hlt : this < length hc) by (eapply lookup_lt_Some; exact Hthis).
    destruct (extend_deep_copies tn f Hdepth N hc c s)
      as [h2 [Hext [Hlen2 [Hagree2 Htree2]]]].
    + eapply tree_of_transfer; [|exact Htree].
      intros a oa Ha Hoa. cbv beta in Ha. split; [exact Ha|].
      rewrite Hagree by exact Ha. exact Hoa.
    + exact HsN.
    + simpl. rewrite Hko. exact Hs.
    + assert (Hthis2 : h2 !! this = Some ot).
      { rewrite Hagree2 by (try lia; congruence). exact Hthis. }
      exists (<[this := obj_write ot name (VRef s)]> h2), (VRef s).
      repeat split.
      * apply (extend_step_reuse _ this b hc h2 name ot oc (mkObj KObject [] 0) c s Hcopy);
          try assumption; try lia.
        -- rewrite Hagree by exact Hc. exact Hoc.
        -- simpl. symmetry. exact Hko.
        -- rewrite Hbox. discriminate.
      * rewrite length_insert. lia.
      * intros a Ha Hne Hnes. rewrite list_lookup_insert_ne by congruence.
        apply Hagree2; assumption.
      * apply list_lookup_insert_eq. lia.
      * eapply tree_of_transfer; [|exact Htree2].
        intros a oa Ha Hoa. cbv beta in Ha.
        split; [exact Ha|]. rewrite list_lookup_insert_ne; [exact Hoa|].
        destruct Ha as [->|Ha]; [congruence|lia].
  - (* anything else: as into a field that holds no container of that kind *)
    destruct copy_field_fresh as [h' [w [Hstep [Hlen' [Hagree' [Hthis' Htree']]]]]].
    + pose proof Htree as Htree0.
      destruct Htree0 as [v Hprim|c oc ps ts Hc Hoc Hkd Hl0 Hnl Hnd Hperm Hch].
      * left. exact Hprim.
      * right. rewrite Hsrc. rewrite (is_kind_obj hc s _ _ Hs). simpl.
        simpl in Hcase. rewrite andb_true_r in Hcase.
        destruct (okind oc); try discriminate; reflexivity.
    + exists h', w. repeat split; try assumption.
      * intros a Ha Hne _. apply Hagree'; assumption.
      * eapply tree_of_weaken; [|exact Htree']. intros a Ha. right. exact Ha.
Qed.

End CopyField.

(** ** Copying a Box *)

Lemma Box_for_in_keys (seq : string) (p g : value) :
  for_in_keys (mkObj KBox (Box_fields seq p g) 0)
  = ["__type__"; "_seq"; "_error"; "_payload"; "_tags"; "_results"].
Proof. reflexivity. Qed.

Lemma Box_prop_read (h : heap) (b : addr) (seq : string) (p g : value) (k : string) :
  h !! b = Some (mkObj KBox (Box_fields seq p g) 0) ->
  prop_read h (VRef b) k
  = match alist_get k (Box_fields seq p g) with Some w => w | None => VUndef end.
Proof.
  intros Hb. apply (prop_read_obj h b _ k Hb). discriminate.
Qed.

Section BoxCopy.

Variable to_primitive : heap -> addr -> string.

Lemma new_Box_copy_steps (seq seq' : string) (f : nat) (h : heap) (b : addr)
    (p g : value) (tp tg : tree) :
  h !! b = Some (mkObj KBox (Box_fields seq p g) 0) ->
  tree_of (fun a => a < length h) h p tp -> p <> VUndef ->
  tree_of (fun a => a < length h) h g tg -> g <> VUndef ->
  depth tp <= f -> depth tg <= f ->
  exists h' wp wg,
    new_Box to_primitive seq' (S f) h (VRef b) VUndef = Some (h', length h) /\
    h' !! length h = Some (mkObj KBox (Box_fields seq wp wg) 0) /\
    tree_of (fun a => length h <= a) h' wp (prune tp) /\
    tree_of (fun a => length h <= a) h' wg (prune tg) /\
    (forall a, a < length h -> h' !! a = h !! a).
Proof.
  intros Hb Htp Hp Htg Hg Hdp Hdg.
  set (N := length h) in *.
  assert (HbN : b < N) by (eapply lookup_lt_Some; exact Hb).
  set (E := mkObj KObject [] 0).
  set (B0 := mkObj KBox (Box_fields seq' (VRef b) (VRef (N + 1))) 0).
  set (h2 := (h ++ [B0; E])%list).
  assert (Hnew : new_Box to_primitive seq' (S f) h (VRef b) VUndef
                 = match extend_deep (S f) h2 N b with
                   | Some h3 => Some (h3, N)
                   | None => None
                   end).
  { unfold new_Box, alloc. cbv zeta iota beta.
    rewrite <- app_assoc. cbn [app]. rewrite insert_fresh.
    rewrite length_app. cbn [length].
    change (h ++ [mkObj KBox (Box_fields seq' (VRef b) (VRef (length h + 1))) 0;
                  mkObj KObject [] 0])%list with h2.
    change (length h) with N.
    assert (His : isBox to_primitive h2 (VRef b) = true).
    { unfold isBox. rewrite (Box_prop_read h2 b seq p g).
      - reflexivity.
      - unfold h2. rewrite lookup_app_l by exact HbN. exact Hb. }
    rewrite His. reflexivity. }
  assert (Hlen2 : length h2 = N + 2).
  { unfold h2. rewrite length_app. reflexivity. }
  assert (Hag2 : forall a, a < N -> h2 !! a = h !! a).
  { intros a Ha. unfold h2. apply lookup_app_l. exact Ha. }
  assert (Hthis2 : h2 !! N = Some B0).
  { unfold h2, N. rewrite lookup_fresh0. reflexivity. }
  assert (HE2 : h2 !! (N + 1) = Some E).
  { unfold h2, N. rewrite lookup_fresh. reflexivity. }
  (* the scalar fields [__type__], [_seq] and [_error] *)
  set (B3 := mkObj KBox (Box_fields seq (VRef b) (VRef (N + 1))) 0).
  set (h3 := <[N := B3]> h2).
  assert (Hlen3 : length h3 = N + 2) by (unfold h3; rewrite length_insert; exact Hlen2).
  assert (Hag3 : forall a, a < N -> h3 !! a = h !! a).
  { intros a Ha. unfold h3. rewrite list_lookup_insert_ne by lia. auto. }
  assert (Hthis3 : h3 !! N = Some B3).
  { unfold h3. apply list_lookup_insert_eq. lia. }
  assert (HE3 : h3 !! (N + 1) = Some E).
  { unfold h3. rewrite list_lookup_insert_ne by lia. exact HE2. }
  assert (Hb3 : h3 !! b = Some (mkObj KBox (Box_fields seq p g) 0)).
  { rewrite Hag3 by exact HbN. exact Hb. }
  (* the payload *)
  destruct (copy_field_fresh f N h h3 N b "_payload" B3 p tp Hag3 (le_n N) HbN
              Hthis3 eq_refl (Box_prop_read h3 b seq p g "_payload" Hb3)
              Htp Hp Hdp)
    as [h4 [wp [Hstep4 [Hlen4 [Hag4 [Hthis4 Hwp]]]]]].
  { rewrite (Box_prop_read h3 N seq (VRef b) (VRef (N + 1)) "_payload" Hthis3).
    cbn [alist_get Box_fields String.eqb Ascii.eqb Bool.eqb].
    rewrite (is_kind_obj h3 b _ _ Hb3). cbn [okind].
    inversion Htp; subst; [left; assumption|right].
    simpl. destruct (okind o); try reflexivity. congruence. }
  change (obj_write B3 "_payload" wp)
    with (mkObj KBox (Box_fields seq wp (VRef (N + 1))) 0) in Hthis4.
  rewrite Hlen3 in Hlen4, Hag4, Hwp.
  assert (Hag4N : forall a, a < N -> h4 !! a = h !! a).
  { intros a Ha. rewrite Hag4 by lia. auto. }
  assert (HE4 : h4 !! (N + 1) = Some E) by (rewrite Hag4 by lia; exact HE3).
  assert (Hb4 : h4 !! b = Some (mkObj KBox (Box_fields seq p g) 0)).
  { rewrite Hag4N by exact HbN. exact Hb. }
  (* the tags, merged into the default [{}] *)
  destruct (copy_field_into_empty f N h h4 N b "_tags" _ g tg Hag4N (le_n N) HbN
              Hthis4 eq_refl (Box_prop_read h4 b seq p g "_tags" Hb4)
              Htg Hg Hdg (N + 1))
    as [h5 [wg [Hstep5 [Hlen5 [Hag5 [Hthis5 Hwg]]]]]]; try lia.
  { rewrite (Box_prop_read h4 N seq wp (VRef (N + 1)) "_tags" Hthis4). reflexivity. }
  { exact HE4. }
  change (obj_write (mkObj KBox (Box_fields seq wp (VRef (N + 1))) 0) "_tags" wg)
    with (mkObj KBox (Box_fields seq wp wg) 0) in Hthis5.
  set (B5 := mkObj KBox (Box_fields seq wp wg) 0) in *.
  assert (Hb5 : h5 !! b = Some (mkObj KBox (Box_fields seq p g) 0)).
  { rewrite Hag5 by lia. exact Hb4. }
  exists (<[N := B5]> h5), wp, wg. repeat split.
  - rewrite Hnew. simpl extend_deep.
    rewrite Hag2 by exact HbN. rewrite Hb. rewrite Box_for_in_keys.
    cbn [fold_left].
    rewrite (extend_step_prim _ N b h2 "__type__" B0 (VStr "box"));
      [| rewrite (Box_prop_read h2 b seq p g) by (rewrite Hag2 by exact HbN; exact Hb);
         reflexivity
       | reflexivity | discriminate | exact Hthis2 | discriminate ].
    change (obj_write B0 "__type__" (VStr "box")) with B0.
    rewrite (list_insert_id h2 N B0 Hthis2).
    rewrite (extend_step_prim _ N b h2 "_seq" B0 (VStr seq));
      [| rewrite (Box_prop_read h2 b seq p g) by (rewrite Hag2 by exact HbN; exact Hb);
         reflexivity
       | reflexivity | discriminate | exact Hthis2 | discriminate ].
    change (obj_write B0 "_seq" (VStr seq)) with B3. fold h3.
    rewrite (extend_step_prim _ N b h3 "_error" B3 VNull);
      [| rewrite (Box_prop_read h3 b seq p g) by exact Hb3; reflexivity
       | reflexivity | discriminate | exact Hthis3 | discriminate ].
    change (obj_write B3 "_error" VNull) with B3.
    rewrite (list_insert_id h3 N B3 Hthis3).
    rewrite Hstep4, Hstep5.
    rewrite (extend_step_prim _ N b h5 "_results" B5 VNull);
      [| rewrite (Box_prop_read h5 b seq p g) by exact Hb5; reflexivity
       | reflexivity | discriminate | exact Hthis5 | discriminate ].
    reflexivity.
  - apply list_lookup_insert_eq. eapply lookup_lt_Some. exact Hthis5.
  - eapply tree_of_transfer; [|exact Hwp].
    intros a oa Ha Hoa. cbv beta in Ha. split; [lia|].
    rewrite list_lookup_insert_ne by lia.
    rewrite Hag5; [exact Hoa| |lia|lia].
    eapply lookup_lt_Some; exact Hoa.
  - eapply tree_of_transfer; [|exact Hwg].
    intros a oa Ha Hoa. cbv beta in Ha. split; [lia|].
    rewrite list_lookup_insert_ne by lia. exact Hoa.
  - intros a Ha. rewrite list_lookup_insert_ne by lia.
    rewrite Hag5 by lia. apply Hag4N. exact Ha.
Qed.

End BoxCopy.

Lemma prune_defined (t : tree) : defined_tree t = true -> prune t = t.
Proof.
  induction t as [v|kd len ts IH] using tree_forall_ind; intros Hd.
  - reflexivity.
  - simpl in Hd. apply andb_prop in Hd as [Hlen Hall].
    change (prune (TNode kd len ts))
      with (TNode kd (match kd with
                      | KArray => needed_len (prune_children ts)
                      | _ => 0
                      end) (prune_children ts)).
    assert (Hts : prune_children ts = ts).
    { clear Hlen. unfold prune_children.
      induction ts as [|[k c] r IHr]; [reflexivity|].
      simpl in Hall. apply andb_prop in Hall as [Hc Hr].
      apply andb_prop in Hc as [Hu Hc].
      apply Forall_cons_1 in IH as [IHc IH]. simpl in IHc.
      simpl. destruct (is_undef_leaf c); [discriminate|].
      simpl. rewrite (IHc Hc). rewrite (IHr IH Hr). reflexivity. }
    rewrite Hts.
    destruct kd; try discriminate; apply Nat.eqb_eq in Hlen; subst; reflexivity.
Qed.

Section BoxCopyTheorem.

Variable to_primitive : heap -> addr -> string.


End BoxCopyTheorem.

Lemma extend_step_None (rec : heap -> addr -> addr -> option heap)
    (target options : addr) (names : list string) :
  fold_left (extend_step rec target options) names None = None.
Proof. induction names as [|n names IH]; [reflexivity|exact IH]. Qed.

(** Merging an object that holds itself into an empty object never ends:
    every turn merges it again, into a fresh clone. *)
Lemma extend_deep_cycle (fuel : nat) :
  forall h t,
    h !! 0 = Some (mkObj KObject [("self", VRef 0)] 0) ->
    h !! t = Some (mkObj KObject [] 0) ->
    extend_deep fuel h t 0 = None.
Proof.
  induction fuel as [|f IH]; intros h t H0 Ht; [reflexivity|].
  assert (Hne : t <> 0) by (intros ->; rewrite H0 in Ht; discriminate).
  cbn [extend_deep]. rewrite H0.
  change (for_in_keys (mkObj KObject [("self", VRef 0)] 0)) with ["self"].
  cbn [fold_left extend_step].
  unfold prop_read, own_prop. rewrite Ht, H0. cbn [okind oprops kind_eqb andb alist_get].
  cbn [String.eqb Ascii.eqb Bool.eqb]. cbn.
  destruct (Nat.eqb_spec t 0) as [|_]; [contradiction|].
  rewrite H0. cbn.
  rewrite IH; [reflexivity| |].
  - rewrite lookup_app_l; [exact H0|]. apply lookup_lt_Some in H0. exact H0.
  - rewrite lookup_app_r by lia. rewrite Nat.sub_diag. reflexivity.
Qed.


Ltac tree_shape :=
  repeat first
    [ apply tree_leaf; reflexivity
    | match goal with
      | |- tree_of _ ?h (VRef ?a) (TNode _ _ ?ts) =>
          let o := eval vm_compute in (h !! a) in
          match o with
          | Some ?ob =>
              apply (tree_node _ h a ob (oprops ob) ts);
              [ simpl; lia | reflexivity | discriminate | reflexivity
              | discriminate
              | simpl; repeat (apply NoDup_cons; split;
                               [rewrite list_elem_of_In; simpl; intuition discriminate|]);
                apply NoDup_nil; exact I
              | reflexivity
              | simpl ]
          end
      end
    | apply List.Forall2_nil
    | apply List.Forall2_cons; [split; [reflexivity|simpl]|] ].


(** ** The payload of a Box built from a container *)

Lemma boxes_kept_refl (h : heap) : boxes_kept h h.
Proof. intros a o Ha. exists o. auto. Qed.

Lemma boxes_kept_trans (h1 h2 h3 : heap) :
  boxes_kept h1 h2 -> boxes_kept h2 h3 -> boxes_kept h1 h3.
Proof.
  intros H12 H23 a o Ha.
  destruct (H12 a o Ha) as [o2 [Ha2 [Hk2 Hb2]]].
  destruct (H23 a o2 Ha2) as [o3 [Ha3 [Hk3 Hb3]]].
  exists o3. repeat split; [exact Ha3|congruence|].
  intros Hb. rewrite Hb3 by congruence. auto.
Qed.

Lemma boxes_kept_alloc (h : heap) (o : obj) : boxes_kept h (h ++ [o])%list.
Proof.
  intros a o0 Ha. exists o0. repeat split.
  rewrite lookup_app_l by (eapply lookup_lt_Some; exact Ha). exact Ha.
Qed.

Lemma write_prop_boxes_kept (h h' : heap) (a : addr) (o : obj) (k : string) (w : value) :
  h !! a = Some o -> okind o <> KBox ->
  write_prop h (VRef a) k w = Ok h' -> boxes_kept h h'.
Proof.
  intros Ha Hk Hw a0 o0 Ha0. unfold write_prop in Hw. rewrite Ha in Hw.
  assert (Hgen : forall o', okind o' = okind o ->
            exists o1, <[a := o']> h !! a0 = Some o1 /\ okind o1 = okind o0 /\
                       (okind o0 = KBox -> o1 = o0)).
  { intros o' Hk'. destruct (Nat.eq_dec a a0) as [<-|Hne].
    - rewrite Ha in Ha0. injection Ha0 as <-. exists o'.
      rewrite list_lookup_insert_eq by (eapply lookup_lt_Some; exact Ha).
      repeat split; [exact Hk'|]. intros Hb. congruence.
    - exists o0. rewrite list_lookup_insert_ne by exact Hne. auto. }
  destruct (okind o) eqn:Hkd; try congruence.
  - injection Hw as <-. apply Hgen. reflexivity.
  - destruct (String.eqb k "length").
    + destruct (array_length_of w) as [n|e]; [|discriminate].
      injection Hw as <-. apply Hgen. reflexivity.
    + injection Hw as <-. apply Hgen. reflexivity.
Qed.

Lemma extend_step_boxes_kept (rec : heap -> addr -> addr -> option heap)
    (target options : addr) (hc h1 : heap) (k : string) (ot : obj) :
  (forall hx t o hy ox,
     hx !! t = Some ox -> okind ox <> KBox -> rec hx t o = Some hy ->
     boxes_kept hx hy) ->
  hc !! target = Some ot -> okind ot <> KBox ->
  extend_step rec target options (Some hc) k = Some h1 ->
  boxes_kept hc h1.
Proof.
  intros Hrec Ht Hk Hstep.
  assert (Hw : forall hx w hy,
            boxes_kept hc hx ->
            match write_prop hx (VRef target) k w with
            | Ok h3 => Some h3
            | Throw _ => None
            end = Some hy -> boxes_kept hc hy).
  { intros hx w hy Hx Hwr.
    destruct (write_prop hx (VRef target) k w) as [h3|] eqn:Hwp; [|discriminate].
    injection Hwr as <-.
    destruct (Hx target ot Ht) as [otx [Htx [Hkx _]]].
    eapply boxes_kept_trans; [exact Hx|].
    eapply write_prop_boxes_kept; [exact Htx|congruence|exact Hwp]. }
  unfold extend_step in Hstep.
  destruct (value_eqb (VRef target) (prop_read hc (VRef options) k));
    [injection Hstep as <-; apply boxes_kept_refl|].
  destruct (prop_read hc (VRef options) k) as [| | | | |c] eqn:Hcopy;
    try (injection Hstep as <-; apply boxes_kept_refl);
    try (eapply Hw; [apply boxes_kept_refl|exact Hstep]).
  destruct (is_kind hc (VRef c) KObject || is_kind hc (VRef c) KArray);
    [|eapply Hw; [apply boxes_kept_refl|exact Hstep]].
  set (want := if is_kind hc (VRef c) KArray then KArray else KObject) in *.
  assert (Hwant : want <> KBox)
    by (unfold want; destruct (is_kind hc (VRef c) KArray); discriminate).
  destruct (is_kind hc (prop_read hc (VRef target) k) want) eqn:Hsrc.
  - destruct (prop_read hc (VRef target) k) as [| | | | |s]; try discriminate Hsrc.
    unfold is_kind in Hsrc. destruct (hc !! s) as [os|] eqn:Hs; [|discriminate].
    destruct (rec hc s c) as [h2|] eqn:Hr; [|discriminate].
    eapply Hw; [|exact Hstep].
    eapply (Hrec hc s c h2 os Hs); [|exact Hr].
    destruct (okind os), want; try discriminate; congruence.
  - unfold alloc in Hstep.
    destruct (rec (hc ++ [mkObj want [] 0])%list (length hc) c) as [h2|] eqn:Hr;
      [|discriminate].
    eapply Hw; [|exact Hstep].
    eapply boxes_kept_trans; [apply boxes_kept_alloc|].
    eapply (Hrec _ (length hc) c h2 (mkObj want [] 0)); [|exact Hwant|exact Hr].
    rewrite lookup_fresh0. reflexivity.
Qed.

Lemma extend_fold_none (rec : heap -> addr -> addr -> option heap)
    (target options : addr) (ks : list string) :
  fold_left (extend_step rec target options) ks None = None.
Proof. induction ks as [|k ks IH]; simpl; [reflexivity|exact IH]. Qed.

(** The deep merge into a plain object or an array writes to such
    containers only. *)
Lemma extend_deep_boxes_kept (f : nat) :
  forall h target options h' ot,
    h !! target = Some ot -> okind ot <> KBox ->
    extend_deep f h target options = Some h' -> boxes_kept h h'.
Proof.
  induction f as [|f IH]; intros h target options h' ot Ht Hk Hext;
    simpl in Hext; [discriminate|].
  destruct (h !! options) as [oo|]; [|discriminate].
  revert Hext. generalize (for_in_keys oo). intros ks.
  assert (Hgen : forall hc,
            boxes_kept h hc ->
            fold_left (extend_step (extend_deep f) target options) ks (Some hc)
            = Some h' -> boxes_kept h h').
  { induction ks as [|k ks IHks]; intros hc Hinv Hfold; cbn [fold_left] in Hfold.
    - injection Hfold as <-. exact Hinv.
    - destruct (extend_step (extend_deep f) target options (Some hc) k)
        as [h1|] eqn:Hstep; [|rewrite extend_fold_none in Hfold; discriminate].
      apply (IHks h1); [|exact Hfold].
      eapply boxes_kept_trans; [exact Hinv|].
      destruct (Hinv target ot Ht) as [otc [Htc [Hkc _]]].
      eapply (extend_step_boxes_kept _ target options hc h1 k otc);
        [exact IH|exact Htc|congruence|exact Hstep]. }
  intros Hfold. apply (Hgen h (boxes_kept_refl h) Hfold).
Qed.

(** Whatever plain object or array [c] (an object without a [__type__]
    property) the constructor is given, and whatever the tags, the payload
    of the new Box is [c] itself. *)
Lemma new_Box_container_payload_is_content
    (to_primitive : heap -> addr -> string) (seq : string) (fuel : nat)
    (h : heap) (c : addr) (oc : obj) (tags : value) (h' : heap) (this : addr) :
  h !! c = Some oc -> okind oc <> KBox ->
  alist_get "__type__" (oprops oc) = None ->
  new_Box to_primitive seq fuel h (VRef c) tags = Some (h', this) ->
  field h' this "_payload" = VRef c.
Proof.
  intros Hc Hk Hty Hnew.
  assert (HcN : c < length h) by (eapply lookup_lt_Some; exact Hc).
  assert (Hgen : forall l tags',
            (if isBox to_primitive
                  (h ++ mkObj KBox (Box_fields seq (VRef c) tags') 0 :: l)%list
                  (VRef c)
             then
               match extend_true fuel
                       (h ++ mkObj KBox (Box_fields seq (VRef c) tags') 0 :: l)%list
                       (VRef (length h)) (VRef c) with
               | Some h3 => Some (h3, length h)
               | None => None
               end
             else
               match extend_true fuel
                       (h ++ mkObj KBox (Box_fields seq (VRef c) tags') 0 :: l)%list
                       (field (h ++ mkObj KBox (Box_fields seq (VRef c) tags') 0 :: l)%list
                              (length h) "_payload") (VRef c) with
               | Some h3 => Some (h3, length h)
               | None => None
               end) = Some (h', this) ->
            field h' this "_payload" = VRef c).
  { intros l tags'.
    set (B := mkObj KBox (Box_fields seq (VRef c) tags') 0).
    set (h2 := (h ++ B :: l)%list).
    assert (Hc2 : h2 !! c = Some oc).
    { unfold h2. rewrite lookup_app_l by exact HcN. exact Hc. }
    assert (Hthis2 : h2 !! length h = Some B).
    { unfold h2. rewrite lookup_fresh0. reflexivity. }
    assert (His : isBox to_primitive h2 (VRef c) = false).
    { unfold isBox. rewrite (prop_read_obj h2 c oc "__type__" Hc2) by discriminate.
      rewrite Hty. reflexivity. }
    rewrite His.
    assert (Hf : field h2 (length h) "_payload" = VRef c).
    { unfold field. rewrite (Box_prop_read h2 _ seq (VRef c) tags' _ Hthis2).
      reflexivity. }
    rewrite Hf. unfold extend_true.
    destruct (extend_deep fuel h2 c c) as [h3|] eqn:Hext; [|discriminate].
    intros [= <- <-].
    destruct (extend_deep_boxes_kept fuel h2 c c h3 oc Hc2 Hk Hext (length h) B Hthis2)
      as [B' [Hthis3 [_ Hsame]]].
    rewrite (Hsame eq_refl) in Hthis3.
    unfold field. rewrite (Box_prop_read h3 _ seq (VRef c) tags' _ Hthis3).
    reflexivity. }
  unfold new_Box, alloc in Hnew. cbv zeta iota beta in Hnew.
  destruct tags; cbv iota beta in Hnew;
    repeat (rewrite <- app_assoc in Hnew; cbn [app] in Hnew);
    rewrite insert_fresh in Hnew;
    eapply Hgen; exact Hnew.
Qed.

(** * Further properties of the class *)

(** ** Dotted strings *)

Lemma split_dot_aux_nonempty (cur s : string) : split_dot_aux cur s <> [].
Proof.
  revert cur. induction s as [|c t IH]; intros cur; simpl; [discriminate|].
  destruct (Ascii.eqb c "."%char); [discriminate|apply IH].
Qed.

Lemma append_assoc (a b c : string) : ((a ++ b) ++ c = a ++ (b ++ c))%string.
Proof. induction a as [|x a IH]; simpl; [reflexivity|rewrite IH; reflexivity]. Qed.

Lemma append_empty_r (a : string) : (a ++ "" = a)%string.
Proof. induction a as [|x a IH]; simpl; [reflexivity|rewrite IH; reflexivity]. Qed.

Lemma join_split_dot_aux (s : string) :
  forall cur, join "." (split_dot_aux cur s) = (cur ++ s)%string.
Proof.
  induction s as [|c t IH]; intros cur; simpl.
  - symmetry. apply append_empty_r.
  - destruct (Ascii.eqb_spec c "."%char) as [->|Hne].
    + specialize (IH ""). pose proof (split_dot_aux_nonempty "" t) as Hnil.
      destruct (split_dot_aux "" t) as [|x l]; [congruence|].
      change (join "." (cur :: x :: l)) with (cur ++ "." ++ join "." (x :: l))%string.
      rewrite IH. reflexivity.
    + rewrite IH. rewrite append_assoc. reflexivity.
Qed.

(** Splitting a string at its dots and joining the segments with dots gives
    the string back. *)
Lemma join_split_dot (s : string) : join "." (split_dot s) = s.
Proof. unfold split_dot. apply join_split_dot_aux. Qed.

Section NoGlossary.

Variable to_primitive : heap -> addr -> string.

Lemma pathMap_loop_no_glossary (h : heap) (g : value) (keys : list string) :
  truthy g = false ->
  forall todo i,
    pathMap_loop to_primitive h g keys todo i = Ok (map VStr todo).
Proof.
  intros Hg todo. induction todo as [|k todo IH]; intros i; simpl; [reflexivity|].
  rewrite Hg. simpl. rewrite IH. reflexivity.
Qed.

Lemma join_elem_strings (h : heap) (keys : list string) :
  map (join_elem to_primitive h) (map VStr keys) = keys.
Proof.
  induction keys as [|k keys IH]; simpl; [reflexivity|]. rewrite IH. reflexivity.
Qed.

(** X1: Without a glossary (the tag is absent, or holds a falsy value) path
    resolution changes nothing: a dotted string resolves to itself and an
    array of segments to the segments joined by dots. *)
Theorem pathMap_without_glossary_is_identity (h : heap) (this : addr) (g : value) :
  getGlossaryTag to_primitive h this = Ok g ->
  truthy g = false ->
  (forall s, pathMap to_primitive h this (PStr s) = Ok s) /\
  (forall segs, pathMap to_primitive h this (PArr segs) = Ok (join "." segs)).
Proof.
  intros Hgl Hg. split.
  - intros s. unfold pathMap. simpl. rewrite Hgl. simpl.
    rewrite (pathMap_loop_no_glossary h g _ Hg). simpl.
    rewrite join_elem_strings. rewrite join_split_dot. reflexivity.
  - intros segs. unfold pathMap. simpl. rewrite Hgl. simpl.
    rewrite (pathMap_loop_no_glossary h g _ Hg). simpl.
    rewrite join_elem_strings. reflexivity.
Qed.

End NoGlossary.

Lemma pathMap_without_glossary_is_identity_witness :
  pathMap plain_to_primitive scope_test_heap 4 (PStr "a..b.") = Ok "a..b." /\
  pathMap plain_to_primitive scope_test_heap 4 (PArr ["a"; "b.c"]) = Ok "a.b.c".
Proof.
  destruct (pathMap_without_glossary_is_identity plain_to_primitive
              scope_test_heap 4 VNull eq_refl eq_refl) as [Hs Ha].
  split; [apply Hs|apply Ha].
Defined.

(** ** Tags as a mapping *)

Lemma alist_get_del_ne (k k' : string) (l : list (string * value)) :
  k' <> k -> alist_get k' (alist_del k l) = alist_get k' l.
Proof.
  intros Hne. induction l as [|[k0 v0] t IH]; simpl; [reflexivity|].
  destruct (String.eqb_spec k k0) as [->|Hk]; simpl.
  - destruct (String.eqb_spec k' k0); [congruence|reflexivity].
  - destruct (String.eqb_spec k' k0); [reflexivity|exact IH].
Qed.

Lemma alist_get_del_eq (k : string) (l : list (string * value)) :
  NoDup (map fst l) -> alist_get k (alist_del k l) = None.
Proof.
  induction l as [|[k0 v0] t IH]; simpl; intros Hnd; [reflexivity|].
  apply NoDup_cons in Hnd as [Hk0 Hnd].
  destruct (String.eqb_spec k k0) as [->|Hk]; simpl.
  - destruct (alist_get k0 t) as [v|] eqn:Hget; [|reflexivity].
    exfalso. apply Hk0. apply list_elem_of_In. eapply alist_get_Some_In. exact Hget.
  - destruct (String.eqb_spec k k0); [congruence|auto].
Qed.

Lemma alist_del_absent (k : string) (l : list (string * value)) :
  alist_get k l = None -> alist_del k l = l.
Proof.
  induction l as [|[k0 v0] t IH]; simpl; [reflexivity|].
  destruct (String.eqb_spec k k0); [discriminate|].
  intros H. rewrite IH by exact H. reflexivity.
Qed.

Section TagMapping.

Variable to_primitive : heap -> addr -> string.

Lemma own_prop_plain (h : heap) (ta : addr) (ot : obj) (k : string) :
  h !! ta = Some ot -> okind ot = KObject ->
  own_prop h (VRef ta) k = alist_get k (oprops ot).
Proof.
  intros Hta Hk. unfold own_prop. rewrite Hta, Hk. reflexivity.
Qed.

Lemma hasTag_plain (h : heap) (this ta : addr) (ot : obj) (name : string) :
  plain_tags h this ta ot ->
  hasTag to_primitive h this name
  = Ok (match alist_get name (oprops ot) with Some _ => true | None => false end).
Proof.
  intros (Hf & Hta & Hk & _ & Hsh). unfold hasTag, hasOwnProperty. rewrite Hf.
  rewrite !(own_prop_plain h ta ot) by assumption. rewrite Hsh. reflexivity.
Qed.

Lemma getTag_plain (h : heap) (this ta : addr) (ot : obj) (name : string) :
  plain_tags h this ta ot ->
  getTag to_primitive h this name
  = Ok (match alist_get name (oprops ot) with Some v => v | None => VNull end).
Proof.
  intros (Hf & Hta & Hk & _ & Hsh). unfold getTag, hasOwnProperty. rewrite Hf.
  rewrite !(own_prop_plain h ta ot) by assumption. rewrite Hsh. simpl.
  unfold prop_read. rewrite (own_prop_plain h ta ot) by assumption.
  destruct (alist_get name (oprops ot)); reflexivity.
Qed.

Lemma plain_tags_update (h : heap) (this ta : addr) (ot ot' : obj) :
  plain_tags h this ta ot ->
  okind ot' = KObject ->
  alist_get "hasOwnProperty" (oprops ot') = None ->
  plain_tags (<[ta := ot']> h) this ta ot'.
Proof.
  intros (Hf & Hta & Hk & Hne & Hsh) Hk' Hsh'. repeat split; try assumption.
  - unfold field, prop_read, own_prop.
    rewrite list_lookup_insert_ne by exact Hne. exact Hf.
  - apply list_lookup_insert_eq. eapply lookup_lt_Some. exact Hta.
Qed.

Lemma addTag_plain (h : heap) (this ta : addr) (ot : obj) (name : string) (v : value) :
  plain_tags h this ta ot ->
  name <> tag_GLOSSARY -> name <> "__proto__" ->
  addTag to_primitive h this name v = Ok (<[ta := with_prop ot name v]> h).
Proof.
  intros (Hf & Hta & Hk & _ & _) Hname Hproto. unfold addTag.
  destruct (String.eqb_spec name tag_GLOSSARY) as [->|_]; [congruence|].
  rewrite Hf. rewrite assign_prop_ne by exact Hproto.
  unfold write_prop, with_prop. rewrite Hta, Hk. reflexivity.
Qed.

Lemma removeTag_plain (h : heap) (this ta : addr) (ot : obj) (name : string) :
  plain_tags h this ta ot ->
  removeTag to_primitive h this name
  = Ok (<[ta := mkObj KObject (alist_del name (oprops ot)) (olen ot)]> h).
Proof.
  intros (Hf & Hta & Hk & _ & Hsh). unfold removeTag, hasOwnProperty. rewrite Hf.
  rewrite !(own_prop_plain h ta ot) by assumption. rewrite Hsh. simpl.
  destruct (alist_get name (oprops ot)) as [v|] eqn:Hget.
  - unfold delete_prop. rewrite Hta, Hk. reflexivity.
  - rewrite alist_del_absent by exact Hget.
    rewrite list_insert_id; [reflexivity|].
    rewrite Hta. destruct ot as [kd props len]. simpl in Hk. subst kd. reflexivity.
Qed.

(** X2: A tag that is added can be read back: after [addTag(name, v)], for a
    name other than [glossary], [hasOwnProperty] and [__proto__],
    [getTag(name)] is [v], [hasTag(name)] is true, and every other tag reads
    as before.  The name [__proto__] is no tag: unless the tags own a
    property of that name, [addTag('__proto__', v)] with a primitive [v]
    other than null stores nothing, and [getTag('__proto__')] stays null. *)
Theorem addTag_then_getTag (h : heap) (this ta : addr) (ot : obj)
    (name : string) (v : value) :
  plain_tags h this ta ot ->
  name <> tag_GLOSSARY -> name <> "hasOwnProperty" ->
  (name <> "__proto__" ->
   exists h',
     addTag to_primitive h this name v = Ok h' /\
     getTag to_primitive h' this name = Ok v /\
     hasTag to_primitive h' this name = Ok true /\
     (forall other, other <> name ->
        getTag to_primitive h' this other = getTag to_primitive h this other /\
        hasTag to_primitive h' this other = hasTag to_primitive h this other)) /\
  (name = "__proto__" ->
   alist_get name (oprops ot) = None ->
   is_prim v = true -> v <> VNull ->
   addTag to_primitive h this name v = Ok h /\
   getTag to_primitive h this name = Ok VNull /\
   hasTag to_primitive h this name = Ok false).
Proof.
  intros Hp Hg Hs. split.
  2:{ intros -> Habsent Hprim Hnull.
      rewrite (getTag_plain _ this ta _ _ Hp), (hasTag_plain _ this ta _ _ Hp).
      rewrite Habsent. repeat split.
      pose proof Hp as (Hf & Hta & Hk & _ & _).
      unfold addTag. cbn [String.eqb Ascii.eqb Bool.eqb tag_GLOSSARY].
      rewrite Hf. unfold assign_prop. cbn [String.eqb Ascii.eqb Bool.eqb].
      rewrite (own_prop_plain h ta ot) by assumption. rewrite Habsent.
      destruct v; try reflexivity; [congruence|discriminate Hprim]. }
  intros Hproto. exists (<[ta := with_prop ot name v]> h).
  pose proof Hp as (_ & _ & Hk & _ & Hsh).
  assert (Hp' : plain_tags (<[ta := with_prop ot name v]> h) this ta (with_prop ot name v)).
  { apply (plain_tags_update h this ta ot); [exact Hp|exact Hk|].
    simpl. rewrite alist_get_set_ne by congruence. exact Hsh. }
  split; [apply addTag_plain; assumption|].
  rewrite (getTag_plain _ this ta _ name Hp'), (hasTag_plain _ this ta _ name Hp').
  simpl. rewrite alist_get_set_eq. repeat split.
  - rewrite (getTag_plain _ this ta _ other Hp'), (getTag_plain _ this ta _ other Hp).
    simpl. rewrite alist_get_set_ne by assumption. reflexivity.
  - rewrite (hasTag_plain _ this ta _ other Hp'), (hasTag_plain _ this ta _ other Hp).
    simpl. rewrite alist_get_set_ne by assumption. reflexivity.
Qed.

(** X3: A removed tag is gone: after [removeTag(name)], [hasTag(name)] is
    false and [getTag(name)] is null, every other tag reads as before, and
    removing a tag that is not there changes nothing. *)
Theorem removeTag_then_hasTag (h : heap) (this ta : addr) (ot : obj) (name : string) :
  plain_tags h this ta ot ->
  NoDup (map fst (oprops ot)) ->
  exists h',
    removeTag to_primitive h this name = Ok h' /\
    hasTag to_primitive h' this name = Ok false /\
    getTag to_primitive h' this name = Ok VNull /\
    (forall other, other <> name ->
       getTag to_primitive h' this other = getTag to_primitive h this other) /\
    (hasTag to_primitive h this name = Ok false -> h' = h).
Proof.
  intros Hp Hnd.
  pose proof Hp as (_ & Hta & Hk & _ & Hsh).
  set (ot' := mkObj KObject (alist_del name (oprops ot)) (olen ot)).
  exists (<[ta := ot']> h).
  assert (Hp' : plain_tags (<[ta := ot']> h) this ta ot').
  { apply (plain_tags_update h this ta ot); [exact Hp|reflexivity|].
    simpl. destruct (String.eqb_spec "hasOwnProperty" name) as [<-|Hne].
    - apply alist_get_del_eq. exact Hnd.
    - rewrite alist_get_del_ne by exact Hne. exact Hsh. }
  split; [apply removeTag_plain; exact Hp|].
  rewrite (getTag_plain _ this ta _ name Hp'), (hasTag_plain _ this ta _ name Hp').
  simpl. rewrite (alist_get_del_eq name _ Hnd). repeat split.
  - intros other Hne.
    rewrite (getTag_plain _ this ta _ other Hp'), (getTag_plain _ this ta _ other Hp).
    simpl. rewrite alist_get_del_ne by exact Hne. reflexivity.
  - rewrite (hasTag_plain _ this ta _ name Hp).
    destruct (alist_get name (oprops ot)) eqn:Hget; [discriminate|]. intros _.
    unfold ot'. rewrite alist_del_absent by exact Hget.
    apply list_insert_id.
    rewrite Hta. destruct ot as [kd props len]. simpl in Hk. subst kd. reflexivity.
Qed.

(** X4: The notify flag is the presence of a tag: [setNotifyTag] of a truthy
    value stores [true], and of a falsy value removes the tag instead of
    storing [false]; [getNotifyTag] reads the flag back either way. *)
Theorem setNotifyTag_then_getNotifyTag (h : heap) (this ta : addr) (ot : obj)
    (v : value) :
  plain_tags h this ta ot ->
  NoDup (map fst (oprops ot)) ->
  exists h',
    setNotifyTag to_primitive h this v = Ok h' /\
    getNotifyTag to_primitive h' this = Ok (truthy v) /\
    hasTag to_primitive h' this tag_NOTIFY = Ok (truthy v) /\
    getTag to_primitive h' this tag_NOTIFY
    = Ok (if truthy v then VBool true else VNull).
Proof.
  intros Hp Hnd. unfold setNotifyTag, getNotifyTag.
  pose proof Hp as (_ & _ & Hk & _ & Hsh).
  destruct (truthy v).
  - exists (<[ta := with_prop ot tag_NOTIFY (VBool true)]> h).
    assert (Hp' : plain_tags (<[ta := with_prop ot tag_NOTIFY (VBool true)]> h)
                    this ta (with_prop ot tag_NOTIFY (VBool true))).
    { apply (plain_tags_update h this ta ot); [exact Hp|exact Hk|].
      simpl. rewrite alist_get_set_ne by discriminate. exact Hsh. }
    split; [apply addTag_plain; [exact Hp|discriminate|discriminate]|].
    rewrite (getTag_plain _ this ta _ _ Hp'), (hasTag_plain _ this ta _ _ Hp').
    simpl. rewrite alist_get_set_eq. repeat split.
  - set (ot' := mkObj KObject (alist_del tag_NOTIFY (oprops ot)) (olen ot)).
    exists (<[ta := ot']> h).
    assert (Hp' : plain_tags (<[ta := ot']> h) this ta ot').
    { apply (plain_tags_update h this ta ot); [exact Hp|reflexivity|].
      simpl. rewrite alist_get_del_ne by discriminate. exact Hsh. }
    split; [apply removeTag_plain; exact Hp|].
    rewrite (getTag_plain _ this ta _ _ Hp'), (hasTag_plain _ this ta _ _ Hp').
    simpl. rewrite (alist_get_del_eq tag_NOTIFY _ Hnd). repeat split.
Qed.

End TagMapping.

Lemma tagged_heap_plain_tags :
  plain_tags tagged_heap 2 1
    (mkObj KObject [("notify", VBool true); ("id", VStr "box-7")] 0).
Proof. repeat split; try reflexivity. discriminate. Qed.

Lemma tagged_heap_NoDup :
  NoDup (map fst [("notify", VBool true); ("id", VStr "box-7")]).
Proof.
  simpl. repeat (apply NoDup_cons; split;
                 [rewrite list_elem_of_In; simpl; intuition discriminate|]).
  apply NoDup_nil. exact I.
Qed.

Lemma addTag_then_getTag_witness :
  (exists h',
     addTag plain_to_primitive tagged_heap 2 "scope" (VStr "a") = Ok h' /\
     getTag plain_to_primitive h' 2 "scope" = Ok (VStr "a") /\
     hasTag plain_to_primitive h' 2 "scope" = Ok true /\
     (forall other, other <> "scope" ->
        getTag plain_to_primitive h' 2 other
        = getTag plain_to_primitive tagged_heap 2 other /\
        hasTag plain_to_primitive h' 2 other
        = hasTag plain_to_primitive tagged_heap 2 other)) /\
  (addTag plain_to_primitive tagged_heap 2 "__proto__" (VNum 5) = Ok tagged_heap /\
   getTag plain_to_primitive tagged_heap 2 "__proto__" = Ok VNull /\
   hasTag plain_to_primitive tagged_heap 2 "__proto__" = Ok false).
Proof.
  split.
  - apply (proj1 (addTag_then_getTag plain_to_primitive tagged_heap 2 1 _ "scope"
                    (VStr "a") tagged_heap_plain_tags ltac:(discriminate)
                    ltac:(discriminate))).
    discriminate.
  - apply (proj2 (addTag_then_getTag plain_to_primitive tagged_heap 2 1 _ "__proto__"
                    (VNum 5) tagged_heap_plain_tags ltac:(discriminate)
                    ltac:(discriminate))); [reflexivity|reflexivity|reflexivity|discriminate].
Defined.

Lemma removeTag_then_hasTag_witness :
  exists h',
    removeTag plain_to_primitive tagged_heap 2 "id" = Ok h' /\
    hasTag plain_to_primitive h' 2 "id" = Ok false /\
    getTag plain_to_primitive h' 2 "id" = Ok VNull /\
    (forall other, other <> "id" ->
       getTag plain_to_primitive h' 2 other = getTag plain_to_primitive tagged_heap 2 other) /\
    (hasTag plain_to_primitive tagged_heap 2 "id" = Ok false -> h' = tagged_heap).
Proof.
  apply (removeTag_then_hasTag plain_to_primitive tagged_heap 2 1 _ "id"
           tagged_heap_plain_tags tagged_heap_NoDup).
Defined.

Lemma setNotifyTag_then_getNotifyTag_witness :
  exists h',
    setNotifyTag plain_to_primitive tagged_heap 2 (VNum 0) = Ok h' /\
    getNotifyTag plain_to_primitive h' 2 = Ok false /\
    hasTag plain_to_primitive h' 2 tag_NOTIFY = Ok false /\
    getTag plain_to_primitive h' 2 tag_NOTIFY = Ok VNull.
Proof.
  apply (setNotifyTag_then_getNotifyTag plain_to_primitive tagged_heap 2 1 _ (VNum 0)
           tagged_heap_plain_tags tagged_heap_NoDup).
Defined.

Section TagEdges.

Variable to_primitive : heap -> addr -> string.

(** X5: A tag named [hasOwnProperty] hides the method every tag operation
    calls on the tags object: once it is added, [getTag], [hasTag] and
    [removeTag] throw a TypeError for every name, and so do [get], [set],
    [has] and [del] for every path (a truthy one for [get]). *)
Theorem addTag_hasOwnProperty_disables_box (h : heap) (this ta : addr) (ot : obj)
    (v : value) :
  plain_tags h this ta ot ->
  exists h',
    addTag to_primitive h this "hasOwnProperty" v = Ok h' /\
    (forall name,
       getTag to_primitive h' this name = Throw not_a_function /\
       hasTag to_primitive h' this name = Throw not_a_function /\
       removeTag to_primitive h' this name = Throw not_a_function) /\
    (forall path,
       (path_truthy path = true ->
        get to_primitive h' this path = Throw not_a_function) /\
       has to_primitive h' this path = Throw not_a_function /\
       del to_primitive h' this path = Throw not_a_function /\
       (forall x, set to_primitive h' this path x = Throw not_a_function)).
Proof.
  intros Hp. pose proof Hp as (Hf & Hta & Hk & Hne & Hsh).
  exists (<[ta := with_prop ot "hasOwnProperty" v]> h).
  split; [apply (addTag_plain to_primitive h this ta ot);
              [exact Hp|discriminate|discriminate]|].
  set (h' := <[ta := with_prop ot "hasOwnProperty" v]> h).
  assert (Hf' : field h' this "_tags" = VRef ta).
  { unfold h', field, prop_read, own_prop.
    rewrite list_lookup_insert_ne by exact Hne. exact Hf. }
  assert (Hown : own_prop h' (VRef ta) "hasOwnProperty" = Some v).
  { unfold h', own_prop.
    rewrite list_lookup_insert_eq by (eapply lookup_lt_Some; exact Hta).
    simpl. rewrite Hk. simpl. apply alist_get_set_eq. }
  assert (Hhas : forall k, hasOwnProperty to_primitive h' (VRef ta) k
                           = Throw not_a_function).
  { intros k. unfold hasOwnProperty. rewrite Hown. reflexivity. }
  assert (Hget : forall name, getTag to_primitive h' this name = Throw not_a_function).
  { intros name. unfold getTag. rewrite Hf', Hhas. reflexivity. }
  split.
  - intros name. repeat split.
    + apply Hget.
    + unfold hasTag. rewrite Hf'. apply Hhas.
    + unfold removeTag. rewrite Hf', Hhas. reflexivity.
  - intros path.
    assert (Hs : scoped to_primitive h' this path = Throw not_a_function).
    { unfold scoped. rewrite Hget. reflexivity. }
    repeat split.
    + intros Ht. unfold get. rewrite Ht, Hs. reflexivity.
    + unfold has. rewrite Hs. reflexivity.
    + unfold del. rewrite Hs. reflexivity.
    + intros x. unfold set. rewrite Hs. reflexivity.
Qed.

(** X6: [getId] is the sequence of the Box until an [id] tag with a truthy
    value is set, and that value from then on; a falsy [id] (the empty
    string, 0, null) is ignored. *)
Theorem getId_is_id_tag_or_sequence (h : heap) (this ta : addr) (ot : obj) :
  plain_tags h this ta ot ->
  (alist_get tag_ID (oprops ot) = None ->
   getId to_primitive h this = Ok (field h this "_seq")) /\
  (forall v,
     exists h',
       addTag to_primitive h this tag_ID v = Ok h' /\
       getId to_primitive h' this
       = Ok (if truthy v then v else field h this "_seq")).
Proof.
  intros Hp. pose proof Hp as (Hf & Hta & Hk & Hne & Hsh). split.
  - intros Hid. unfold getId. rewrite (getTag_plain to_primitive h this ta ot _ Hp).
    rewrite Hid. reflexivity.
  - intros v. exists (<[ta := with_prop ot tag_ID v]> h).
    assert (Hp' : plain_tags (<[ta := with_prop ot tag_ID v]> h) this ta
                    (with_prop ot tag_ID v)).
    { apply (plain_tags_update h this ta ot); [exact Hp|exact Hk|].
      simpl. rewrite alist_get_set_ne by discriminate. exact Hsh. }
    split; [apply (addTag_plain to_primitive h this ta ot);
              [exact Hp|discriminate|discriminate]|].
    unfold getId. rewrite (getTag_plain to_primitive _ this ta _ _ Hp').
    simpl. rewrite alist_get_set_eq. simpl.
    replace (field (<[ta := with_prop ot tag_ID v]> h) this "_seq")
      with (field h this "_seq"); [reflexivity|].
    unfold field, prop_read, own_prop.
    rewrite list_lookup_insert_ne by exact Hne. reflexivity.
Qed.

(** X7: Removing the glossary switches translation off: after
    [setGlossaryTag] of a falsy value every dotted path resolves to itself. *)
Theorem setGlossaryTag_falsy_stops_translation (h : heap) (this ta : addr)
    (ot : obj) (v : value) :
  plain_tags h this ta ot ->
  NoDup (map fst (oprops ot)) ->
  truthy v = false ->
  exists h',
    setGlossaryTag to_primitive h this v = Ok h' /\
    getGlossaryTag to_primitive h' this = Ok VNull /\
    (forall s, pathMap to_primitive h' this (PStr s) = Ok s).
Proof.
  intros Hp Hnd Hv. pose proof Hp as (Hf & Hta & Hk & Hne & Hsh).
  set (ot' := mkObj KObject (alist_del tag_GLOSSARY (oprops ot)) (olen ot)).
  exists (<[ta := ot']> h).
  assert (Hp' : plain_tags (<[ta := ot']> h) this ta ot').
  { apply (plain_tags_update h this ta ot); [exact Hp|reflexivity|].
    simpl. rewrite alist_get_del_ne by discriminate. exact Hsh. }
  assert (Hgl : getGlossaryTag to_primitive (<[ta := ot']> h) this = Ok VNull).
  { unfold getGlossaryTag. rewrite (getTag_plain to_primitive _ this ta _ _ Hp').
    simpl. rewrite (alist_get_del_eq tag_GLOSSARY _ Hnd). reflexivity. }
  repeat split.
  - unfold setGlossaryTag. rewrite Hv. simpl.
    apply (removeTag_plain to_primitive h this ta ot). exact Hp.
  - exact Hgl.
  - intros s. unfold pathMap. simpl. rewrite Hgl. simpl.
    rewrite (pathMap_loop_no_glossary to_primitive _ VNull _ eq_refl). simpl.
    rewrite join_elem_strings, join_split_dot. reflexivity.
Qed.

(** X8: Under a scope a path given as an array is not taken segment by segment:
    the scope is concatenated with the array, so the accessors behave as on
    the string of the segments joined by commas. *)
Theorem scoped_array_path_is_comma_joined (h : heap) (this : addr)
    (scope : value) (segs : list string) :
  getTag to_primitive h this tag_SCOPE = Ok scope ->
  truthy scope = true ->
  let joined := PStr (join "," segs) in
  (join "," segs <> "" ->
   get to_primitive h this (PArr segs) = get to_primitive h this joined) /\
  has to_primitive h this (PArr segs) = has to_primitive h this joined /\
  del to_primitive h this (PArr segs) = del to_primitive h this joined /\
  (forall x, set to_primitive h this (PArr segs) x = set to_primitive h this joined x).
Proof.
  intros Hsc Ht joined.
  assert (Hs : scoped to_primitive h this (PArr segs)
               = scoped to_primitive h this joined).
  { unfold scoped. rewrite Hsc. simpl. rewrite Ht. reflexivity. }
  repeat split.
  - intros Hne. unfold get. rewrite Hs. simpl.
    destruct (String.eqb_spec (join "," segs) "") as [He|_]; [congruence|].
    reflexivity.
  - unfold has. rewrite Hs. reflexivity.
  - unfold del. rewrite Hs. reflexivity.
  - intros x. unfold set. rewrite Hs. reflexivity.
Qed.

End TagEdges.

Lemma addTag_hasOwnProperty_disables_box_witness :
  exists h',
    addTag plain_to_primitive tagged_heap 2 "hasOwnProperty" (VNum 1) = Ok h' /\
    getTag plain_to_primitive h' 2 "id" = Throw not_a_function /\
    get plain_to_primitive h' 2 (PStr "a") = Throw not_a_function.
Proof.
  destruct (addTag_hasOwnProperty_disables_box plain_to_primitive tagged_heap 2 1 _
              (VNum 1) tagged_heap_plain_tags) as [h' [Hadd [Htags Hpaths]]].
  exists h'. split; [exact Hadd|]. split.
  - apply Htags.
  - apply (proj1 (Hpaths (PStr "a"))). reflexivity.
Defined.

Lemma getId_is_id_tag_or_sequence_witness :
  exists h',
    addTag plain_to_primitive tagged_heap 2 tag_ID (VStr "") = Ok h' /\
    getId plain_to_primitive h' 2 = Ok (VStr "seq1").
Proof.
  apply (proj2 (getId_is_id_tag_or_sequence plain_to_primitive tagged_heap 2 1 _
                  tagged_heap_plain_tags) (VStr "")).
Defined.

Lemma flat_glossary_heap_plain_tags :
  plain_tags flat_glossary_heap 3 2 (mkObj KObject [("glossary", VRef 1)] 0).
Proof. repeat split; try reflexivity. discriminate. Qed.

Lemma flat_glossary_heap_NoDup : NoDup (map fst [("glossary", VRef 1)]).
Proof.
  simpl. apply NoDup_cons. split; [rewrite list_elem_of_In; simpl; tauto|].
  apply NoDup_nil. exact I.
Qed.

(** The Box with the glossary [{x: "a"}] resolves [x] to [a]; once the
    glossary is set to null, [x] resolves to itself. *)
Lemma setGlossaryTag_falsy_stops_translation_witness :
  pathMap plain_to_primitive flat_glossary_heap 3 (PStr "x") = Ok "a" /\
  exists h',
    setGlossaryTag plain_to_primitive flat_glossary_heap 3 VNull = Ok h' /\
    getGlossaryTag plain_to_primitive h' 3 = Ok VNull /\
    (forall s, pathMap plain_to_primitive h' 3 (PStr s) = Ok s).
Proof.
  split; [reflexivity|].
  apply (setGlossaryTag_falsy_stops_translation plain_to_primitive flat_glossary_heap
           3 2 _ VNull flat_glossary_heap_plain_tags flat_glossary_heap_NoDup eq_refl).
Defined.

(** With scope [a.b] on the Box of the scoped-access test, [has(['c', 'd'])]
    looks for the key [c,d] under [a.b]. *)
Lemma scoped_array_path_is_comma_joined_witness :
  has plain_to_primitive scope_test_heap 4 (PArr ["c"; "d"])
  = has plain_to_primitive scope_test_heap 4 (PStr "c,d").
Proof.
  apply (proj1 (proj2 (scoped_array_path_is_comma_joined plain_to_primitive
           scope_test_heap 4 (VStr "a.b") ["c"; "d"] eq_refl eq_refl))).
Defined.

(** ** Merging when nothing is added *)

Section MergeNoop.

Variable diff : heap -> value -> value -> res (option (list change)).
Variable applyChange : heap -> value -> value -> change -> res heap.

Lemma merge_fold_all_deleted (this : addr) (box : value) (ds : list change) (h : heap) :
  forallb is_deleted ds = true ->
  fold_left (merge_step applyChange this box) ds (Ok h) = Ok h.
Proof.
  induction ds as [|d ds IH]; simpl; intros Hall; [reflexivity|].
  apply andb_prop in Hall as [Hd Hall]. rewrite Hd. apply IH. exact Hall.
Qed.

(** X9: Merging never shrinks: when the differ finds no difference, or only
    deletions (the other value merely lacks keys), [merge] leaves the store
    exactly as it is. *)
Theorem merge_with_only_deletions_changes_nothing
    (h : heap) (this : addr) (other : value) :
  match diff h (field h this "_payload") other with
  | Ok (Some ds) => forallb is_deleted ds = true
  | Ok None => True
  | Throw _ => False
  end ->
  merge diff applyChange h this other = Ok (h, this).
Proof.
  unfold merge.
  destruct (diff h (field h this "_payload") other) as [[ds|]|e]; cbn [bind].
  - intros Hall. rewrite merge_fold_all_deleted by exact Hall. reflexivity.
  - reflexivity.
  - intros [].
Qed.

End MergeNoop.

(** [{a: 1, b: 2}] merged with [{}] stays [{a: 1, b: 2}]. *)
Lemma merge_with_only_deletions_changes_nothing_witness :
  DeepDiff.diff plain_to_primitive merge_heap (VRef 0) (VRef 2)
  = Ok (Some only_deletions) /\
  merge (DeepDiff.diff plain_to_primitive) DeepDiff.applyChange
        merge_heap 3 (VRef 2) = Ok (merge_heap, 3).
Proof.
  split; [vm_compute; reflexivity|].
  apply (merge_with_only_deletions_changes_nothing
           (DeepDiff.diff plain_to_primitive) DeepDiff.applyChange
           merge_heap 3 (VRef 2)).
  vm_compute. reflexivity.
Defined.

(** ** Derived boxes *)

Lemma boxes_kept_but_refl (t : addr) (h : heap) : boxes_kept_but t h h.
Proof. intros a o Ha. exists o. auto. Qed.

Lemma boxes_kept_but_trans (t : addr) (h1 h2 h3 : heap) :
  boxes_kept_but t h1 h2 -> boxes_kept_but t h2 h3 -> boxes_kept_but t h1 h3.
Proof.
  intros H12 H23 a o Ha.
  destruct (H12 a o Ha) as [o2 [Ha2 [Hk2 Hb2]]].
  destruct (H23 a o2 Ha2) as [o3 [Ha3 [Hk3 Hb3]]].
  exists o3. repeat split; [exact Ha3|congruence|].
  intros Hb Hne. rewrite Hb3 by congruence. auto.
Qed.

Lemma boxes_kept_is_but (t : addr) (h h' : heap) :
  boxes_kept h h' -> boxes_kept_but t h h'.
Proof.
  intros Hk a o Ha. destruct (Hk a o Ha) as [o' [Ha' [Hkd Hb]]].
  exists o'. repeat split; auto.
Qed.

Lemma write_prop_boxes_kept_but (h h' : heap) (t : addr) (k : string) (w : value) :
  write_prop h (VRef t) k w = Ok h' -> boxes_kept_but t h h'.
Proof.
  intros Hw a0 o0 Ha0. unfold write_prop in Hw.
  destruct (h !! t) as [o|] eqn:Ht; [|discriminate].
  assert (Hgen : forall o', okind o' = okind o ->
            exists o1, <[t := o']> h !! a0 = Some o1 /\ okind o1 = okind o0 /\
                       (okind o0 = KBox -> a0 <> t -> o1 = o0)).
  { intros o' Hk'. destruct (Nat.eq_dec t a0) as [<-|Hne].
    - rewrite Ht in Ha0. injection Ha0 as <-. exists o'.
      rewrite list_lookup_insert_eq by (eapply lookup_lt_Some; exact Ht).
      repeat split; [exact Hk'|]. intros _ Hne. congruence.
    - exists o0. rewrite list_lookup_insert_ne by exact Hne. auto. }
  destruct (okind o) eqn:Hkd.
  - injection Hw as <-. apply Hgen. reflexivity.
  - destruct (String.eqb k "length").
    + destruct (array_length_of w) as [n|e]; [|discriminate].
      injection Hw as <-. apply Hgen. reflexivity.
    + injection Hw as <-. apply Hgen. reflexivity.
  - injection Hw as <-. apply Hgen. reflexivity.
Qed.

Lemma extend_step_boxes_kept_but (f : nat) (target options : addr)
    (hc h1 : heap) (k : string) :
  extend_step (extend_deep f) target options (Some hc) k = Some h1 ->
  boxes_kept_but target hc h1.
Proof.
  intros Hstep.
  assert (Hw : forall hx w hy,
            boxes_kept_but target hc hx ->
            match write_prop hx (VRef target) k w with
            | Ok h3 => Some h3
            | Throw _ => None
            end = Some hy -> boxes_kept_but target hc hy).
  { intros hx w hy Hx Hwr.
    destruct (write_prop hx (VRef target) k w) as [h3|] eqn:Hwp; [|discriminate].
    injection Hwr as <-.
    eapply boxes_kept_but_trans; [exact Hx|].
    eapply write_prop_boxes_kept_but. exact Hwp. }
  unfold extend_step in Hstep.
  destruct (value_eqb (VRef target) (prop_read hc (VRef options) k));
    [injection Hstep as <-; apply boxes_kept_but_refl|].
  destruct (prop_read hc (VRef options) k) as [| | | | |c] eqn:Hcopy;
    try (injection Hstep as <-; apply boxes_kept_but_refl);
    try (eapply Hw; [apply boxes_kept_but_refl|exact Hstep]).
  destruct (is_kind hc (VRef c) KObject || is_kind hc (VRef c) KArray);
    [|eapply Hw; [apply boxes_kept_but_refl|exact Hstep]].
  set (want := if is_kind hc (VRef c) KArray then KArray else KObject) in *.
  assert (Hwant : want <> KBox)
    by (unfold want; destruct (is_kind hc (VRef c) KArray); discriminate).
  destruct (is_kind hc (prop_read hc (VRef target) k) want) eqn:Hsrc.
  - destruct (prop_read hc (VRef target) k) as [| | | | |s]; try discriminate Hsrc.
    unfold is_kind in Hsrc. destruct (hc !! s) as [os|] eqn:Hs; [|discriminate].
    destruct (extend_deep f hc s c) as [h2|] eqn:Hr; [|discriminate].
    eapply Hw; [|exact Hstep]. apply boxes_kept_is_but.
    eapply (extend_deep_boxes_kept f hc s c h2 os Hs); [|exact Hr].
    destruct (okind os), want; try discriminate; congruence.
  - unfold alloc in Hstep.
    destruct (extend_deep f (hc ++ [mkObj want [] 0])%list (length hc) c) as [h2|] eqn:Hr;
      [|discriminate].
    eapply Hw; [|exact Hstep]. apply boxes_kept_is_but.
    eapply boxes_kept_trans; [apply boxes_kept_alloc|].
    eapply (extend_deep_boxes_kept f _ (length hc) c h2 (mkObj want [] 0));
      [|exact Hwant|exact Hr].
    rewrite lookup_fresh0. reflexivity.
Qed.

(** A deep merge changes no instance of [Box] other than its target. *)
Lemma extend_deep_boxes_kept_but (f : nat) (h : heap) (target options : addr)
    (h' : heap) :
  extend_deep f h target options = Some h' -> boxes_kept_but target h h'.
Proof.
  destruct f as [|f]; simpl; [discriminate|].
  destruct (h !! options) as [oo|]; [|discriminate].
  generalize (for_in_keys oo). intros ks.
  assert (Hgen : forall hc,
            boxes_kept_but target h hc ->
            fold_left (extend_step (extend_deep f) target options) ks (Some hc)
            = Some h' -> boxes_kept_but target h h').
  { induction ks as [|k ks IHks]; intros hc Hinv Hfold; cbn [fold_left] in Hfold.
    - injection Hfold as <-. exact Hinv.
    - destruct (extend_step (extend_deep f) target options (Some hc) k)
        as [h1|] eqn:Hstep; [|rewrite extend_fold_none in Hfold; discriminate].
      apply (IHks h1); [|exact Hfold].
      eapply boxes_kept_but_trans; [exact Hinv|].
      eapply extend_step_boxes_kept_but. exact Hstep. }
  intros Hfold. apply (Hgen h (boxes_kept_but_refl target h) Hfold).
Qed.

Section DerivedBox.

Variable to_primitive : heap -> addr -> string.

(** The constructor leaves every Box that exists as it is, and the
    instance it returns is a new one. *)
Lemma new_Box_keeps_boxes (seq : string) (fuel : nat) (h : heap)
    (content tags : value) (h1 : heap) (nb : addr)
    (this : addr) (s : string) (p g : value) :
  h !! this = Some (mkObj KBox (Box_fields s p g) 0) ->
  new_Box to_primitive seq fuel h content tags = Some (h1, nb) ->
  nb = length h /\
  h1 !! this = Some (mkObj KBox (Box_fields s p g) 0) /\
  exists onb, h1 !! nb = Some onb /\ okind onb = KBox.
Proof.
  intros Hthis Hnew.
  assert (HtN : this < length h) by (eapply lookup_lt_Some; exact Hthis).
  assert (Hgen : forall l tags',
    let B := mkObj KBox (Box_fields seq content tags') 0 in
    let h2 := (h ++ B :: l)%list in
    (if isBox to_primitive h2 content
     then match extend_true fuel h2 (VRef (length h)) content with
          | Some h3 => Some (h3, length h)
          | None => None
          end
     else match content with
          | VNull | VRef _ =>
              match extend_true fuel h2 (field h2 (length h) "_payload") content with
              | Some h3 => Some (h3, length h)
              | None => None
              end
          | _ =>
              let (h3, pa) := alloc h2 (mkObj KObject [("_v", content)] 0) in
              Some (<[length h := mkObj KBox (Box_fields seq (VRef pa) tags') 0]> h3,
                    length h)
          end) = Some (h1, nb) ->
    nb = length h /\
    h1 !! this = Some (mkObj KBox (Box_fields s p g) 0) /\
    exists onb, h1 !! nb = Some onb /\ okind onb = KBox).
  { intros l tags' B h2 Hrun.
    assert (Hthis2 : h2 !! this = Some (mkObj KBox (Box_fields s p g) 0)).
    { unfold h2. rewrite lookup_app_l by exact HtN. exact Hthis. }
    assert (HN2 : h2 !! length h = Some B).
    { unfold h2. rewrite lookup_fresh0. reflexivity. }
    assert (Hfrom : forall t h3,
              boxes_kept_but t h2 h3 -> t <> this ->
              h3 !! this = Some (mkObj KBox (Box_fields s p g) 0) /\
              exists onb, h3 !! length h = Some onb /\ okind onb = KBox).
    { intros t h3 Hk Hne. split.
      - destruct (Hk this _ Hthis2) as [o' [Ho' [_ Hsame]]].
        rewrite Ho'. f_equal. apply Hsame; [reflexivity|congruence].
      - destruct (Hk (length h) B HN2) as [o' [Ho' [Hkd _]]].
        exists o'. split; [exact Ho'|exact Hkd]. }
    destruct (isBox to_primitive h2 content) eqn:His.
    - destruct content as [| | | | |c]; try discriminate His.
      unfold extend_true in Hrun.
      destruct (extend_deep fuel h2 (length h) c) as [h3|] eqn:Hext; [|discriminate].
      injection Hrun as <- <-. split; [reflexivity|].
      apply (Hfrom (length h) h3); [|lia].
      eapply extend_deep_boxes_kept_but. exact Hext.
    - destruct content as [| | | | |c].
      + unfold alloc in Hrun. injection Hrun as <- <-. split; [reflexivity|].
        split.
        * rewrite list_lookup_insert_ne by lia.
          rewrite lookup_app_l by (eapply lookup_lt_Some; exact Hthis2). exact Hthis2.
        * eexists. split;
            [ apply list_lookup_insert_eq; rewrite length_app;
              apply lookup_lt_Some in HN2; lia
            | reflexivity ].
      + unfold extend_true, alloc in Hrun.
        replace (field h2 (length h) "_payload") with VNull in Hrun
          by (unfold field; rewrite (Box_prop_read h2 _ seq VNull tags' _ HN2); reflexivity).
        injection Hrun as <- <-. split; [reflexivity|]. split.
        * rewrite lookup_app_l by (eapply lookup_lt_Some; exact Hthis2). exact Hthis2.
        * exists B. split; [|reflexivity].
          rewrite lookup_app_l by (eapply lookup_lt_Some; exact HN2). exact HN2.
      + unfold alloc in Hrun. injection Hrun as <- <-. split; [reflexivity|].
        split.
        * rewrite list_lookup_insert_ne by lia.
          rewrite lookup_app_l by (eapply lookup_lt_Some; exact Hthis2). exact Hthis2.
        * eexists. split;
            [ apply list_lookup_insert_eq; rewrite length_app;
              apply lookup_lt_Some in HN2; lia
            | reflexivity ].
      + unfold alloc in Hrun. injection Hrun as <- <-. split; [reflexivity|].
        split.
        * rewrite list_lookup_insert_ne by lia.
          rewrite lookup_app_l by (eapply lookup_lt_Some; exact Hthis2). exact Hthis2.
        * eexists. split;
            [ apply list_lookup_insert_eq; rewrite length_app;
              apply lookup_lt_Some in HN2; lia
            | reflexivity ].
      + unfold alloc in Hrun. injection Hrun as <- <-. split; [reflexivity|].
        split.
        * rewrite list_lookup_insert_ne by lia.
          rewrite lookup_app_l by (eapply lookup_lt_Some; exact Hthis2). exact Hthis2.
        * eexists. split;
            [ apply list_lookup_insert_eq; rewrite length_app;
              apply lookup_lt_Some in HN2; lia
            | reflexivity ].
      + replace (field h2 (length h) "_payload") with (VRef c) in Hrun
          by (unfold field; rewrite (Box_prop_read h2 _ seq (VRef c) tags' _ HN2);
              reflexivity).
        unfold extend_true in Hrun.
        destruct (extend_deep fuel h2 c c) as [h3|] eqn:Hext; [|discriminate].
        injection Hrun as <- <-. split; [reflexivity|].
        apply (Hfrom c h3); [eapply extend_deep_boxes_kept_but; exact Hext|].
        intros ->. unfold isBox in His.
        rewrite (Box_prop_read h2 this s p g _ Hthis2) in His. discriminate His. }
  unfold new_Box, alloc in Hnew. cbv zeta iota beta in Hnew.
  destruct tags; cbv iota beta in Hnew;
    repeat (rewrite <- app_assoc in Hnew; cbn [app] in Hnew);
    rewrite insert_fresh in Hnew;
    eapply Hgen; exact Hnew.
Qed.

Ltac frame_lookup :=
  repeat first
    [ rewrite list_lookup_insert_ne by lia
    | rewrite lookup_app_l
        by (repeat (first [rewrite length_insert | rewrite length_app]); simpl; lia) ];
  reflexivity.

(** For a content that is not an object the constructor only allocates:
    it returns whatever the bound, and every object that existed is as it
    was. *)
Lemma new_Box_prim_frame (seq : string) (fuel : nat) (h : heap)
    (content tags : value) :
  is_prim content = true ->
  exists h1,
    new_Box to_primitive seq fuel h content tags = Some (h1, length h) /\
    forall a, a < length h -> h1 !! a = h !! a.
Proof.
  intros Hprim.
  unfold new_Box, alloc.
  destruct content; try discriminate Hprim; destruct tags;
    cbv zeta iota beta; cbn [isBox]; cbv iota;
    try (unfold extend_true, alloc;
         match goal with
         | |- context [field ?hh ?a ?f] => destruct (field hh a f)
         end;
         cbv zeta iota beta);
    (eexists; split; [reflexivity|]); intros q Hq; frame_lookup.
Qed.


End DerivedBox.


(** ** Writing and reading back along a path *)

(** An assignment is read back, but for the [length] of an array given a
    boolean or null (it is converted to a number). *)
Lemma write_prop_own (h h' : heap) (o : value) (k : string) (w : value) :
  k <> "length" \/ match w with VBool _ | VNull => False | _ => True end ->
  write_prop h o k w = Ok h' -> own_prop h' o k = Some w.
Proof.
  intros Hkw.
  unfold write_prop. destruct o as [| | | | |a]; try discriminate.
  destruct (h !! a) as [ob|] eqn:Ha; [|discriminate].
  assert (Hlt : a < length h) by (eapply lookup_lt_Some; exact Ha).
  unfold own_prop.
  destruct (okind ob) eqn:Hk.
  - intros [= <-]. rewrite list_lookup_insert_eq by exact Hlt. simpl.
    apply alist_get_set_eq.
  - destruct (String.eqb_spec k "length") as [->|Hlen].
    + destruct Hkw as [Hkw|Hw]; [congruence|]. unfold array_length_of.
      destruct w; try contradiction; try discriminate.
      destruct (Z.leb 0 n && Z.ltb n (2 ^ 32)) eqn:Hn; [|discriminate].
      apply andb_prop in Hn as [Hn _].
      intros [= <-]. rewrite list_lookup_insert_eq by exact Hlt. simpl.
      rewrite Z2Nat.id by (apply Z.leb_le; exact Hn). reflexivity.
    + intros [= <-]. rewrite list_lookup_insert_eq by exact Hlt. simpl.
      apply alist_get_set_eq.
  - intros [= <-]. rewrite list_lookup_insert_eq by exact Hlt. simpl.
    apply alist_get_set_eq.
Qed.

Lemma write_prop_own_ref (h h' : heap) (o : value) (k : string) (r : addr) :
  write_prop h o k (VRef r) = Ok h' -> own_prop h' o k = Some (VRef r).
Proof. apply write_prop_own. right. exact I. Qed.

Lemma assign_prop_frame (h h' : heap) (a : addr) (k : string) (w : value) :
  assign_prop h (VRef a) k w = Ok h' ->
  length h' = length h /\ forall b, b <> a -> h' !! b = h !! b.
Proof.
  assert (Hgen : forall o', length (<[a := o']> h) = length h /\
                            forall b, b <> a -> <[a := o']> h !! b = h !! b).
  { intros o'. split; [apply length_insert|].
    intros b Hb. apply list_lookup_insert_ne. congruence. }
  assert (Hw : write_prop h (VRef a) k w = Ok h' ->
               length h' = length h /\ forall b, b <> a -> h' !! b = h !! b).
  { unfold write_prop. destruct (h !! a) as [ob|] eqn:Ha; [|discriminate].
    destruct (okind ob).
    - intros [= <-]. apply Hgen.
    - destruct (String.eqb k "length").
      + destruct (array_length_of w) as [n|e]; [|discriminate].
        intros [= <-]. apply Hgen.
      + intros [= <-]. apply Hgen.
    - intros [= <-]. apply Hgen. }
  unfold assign_prop. destruct (String.eqb k "__proto__"); [|exact Hw].
  destruct (own_prop h (VRef a) k); [exact Hw|].
  destruct w; try discriminate; intros [= <-]; auto.
Qed.

Lemma assign_prop_is_ref (h h' : heap) (o : value) (k : string) (w : value) :
  k <> "__proto__" ->
  assign_prop h o k w = Ok h' -> exists a ob, o = VRef a /\ h !! a = Some ob.
Proof.
  intros Hk. rewrite assign_prop_ne by exact Hk.
  unfold write_prop. destruct o as [| | | | |a]; try discriminate.
  destruct (h !! a) as [ob|] eqn:Ha; [|discriminate]. intros _.
  exists a, ob. split; [reflexivity|exact Ha].
Qed.

Lemma write_prop_frame (h h' : heap) (a : addr) (k : string) (w : value) :
  write_prop h (VRef a) k w = Ok h' ->
  length h' = length h /\ forall b, b <> a -> h' !! b = h !! b.
Proof.
  unfold write_prop. destruct (h !! a) as [ob|] eqn:Ha; [|discriminate].
  assert (Hgen : forall o', length (<[a := o']> h) = length h /\
                            forall b, b <> a -> <[a := o']> h !! b = h !! b).
  { intros o'. split; [apply length_insert|].
    intros b Hb. apply list_lookup_insert_ne. congruence. }
  destruct (okind ob).
  - intros [= <-]. apply Hgen.
  - destruct (String.eqb k "length").
    + destruct (array_length_of w) as [n|e]; [|discriminate].
      intros [= <-]. apply Hgen.
    + intros [= <-]. apply Hgen.
  - intros [= <-]. apply Hgen.
Qed.

Lemma write_prop_is_ref (h h' : heap) (o : value) (k : string) (w : value) :
  write_prop h o k w = Ok h' -> exists a ob, o = VRef a /\ h !! a = Some ob.
Proof.
  unfold write_prop. destruct o as [| | | | |a]; try discriminate.
  destruct (h !! a) as [ob|] eqn:Ha; [|discriminate]. intros _.
  exists a, ob. split; [reflexivity|exact Ha].
Qed.

Lemma visited_not_ref (h : heap) (o : value) (segs : list string) :
  is_prim o = true -> visited h o segs = [].
Proof. destruct segs, o; simpl; congruence. Qed.

Lemma prop_read_is_prim_of_prim (h : heap) (o : value) (k : string) :
  is_prim o = true -> is_prim (prop_read h o k) = true.
Proof.
  intros Hp. unfold prop_read, own_prop. destruct o; try discriminate; try reflexivity.
  unfold string_own. destruct (String.eqb k "length"); [reflexivity|].
  destruct (key_index k); [|reflexivity].
  destruct (String.get n s); reflexivity.
Qed.

Lemma alist_get_In_pair (k : string) (v : value) (l : list (string * value)) :
  alist_get k l = Some v -> In (k, v) l.
Proof.
  induction l as [|[k' v'] t IH]; simpl; [discriminate|].
  destruct (String.eqb_spec k k') as [->|_]; [intros [= ->]; auto|auto].
Qed.

Lemma alist_set_In (k k' : string) (w v : value) (l : list (string * value)) :
  In (k', v) (alist_set k w l) -> (k', v) = (k, w) \/ In (k', v) l.
Proof.
  induction l as [|[k0 v0] t IH]; simpl.
  - intros [H|[]]. left. congruence.
  - destruct (String.eqb_spec k k0) as [->|_]; simpl.
    + intros [H|H]; [left; congruence|auto].
    + intros [H|H]; [auto|]. destruct (IH H); auto.
Qed.

Lemma valid_mono (h h' : heap) (v : value) :
  length h <= length h' -> valid h v -> valid h' v.
Proof. destruct v; simpl; auto. lia. Qed.

Lemma closed_alloc_empty (h : heap) (kd : kind) :
  closed h -> closed (h ++ [mkObj kd [] 0])%list.
Proof.
  intros Hc a o k v Ha Hin.
  assert (Hlen : length h <= length (h ++ [mkObj kd [] 0])%list)
    by (rewrite length_app; lia).
  destruct (Nat.lt_ge_cases a (length h)) as [Hlt|Hge].
  - rewrite lookup_app_l in Ha by exact Hlt.
    apply (valid_mono h); [exact Hlen|]. eapply Hc; eassumption.
  - rewrite lookup_app_r in Ha by exact Hge.
    destruct (a - length h) as [|n]; simpl in Ha; [|discriminate].
    injection Ha as <-. destruct Hin.
Qed.

Lemma write_prop_closed (h h' : heap) (o : value) (k : string) (w : value) :
  closed h -> valid h w -> write_prop h o k w = Ok h' -> closed h'.
Proof.
  intros Hc Hv Hw.
  destruct (write_prop_is_ref _ _ _ _ _ Hw) as [a [ob [-> Ha]]].
  destruct (write_prop_frame _ _ _ _ _ Hw) as [Hlen Hfr].
  assert (Hsub : forall o', h' !! a = Some o' ->
            forall k' v', In (k', v') (oprops o') ->
                          (k', v') = (k, w) \/ In (k', v') (oprops ob)).
  { unfold write_prop in Hw. rewrite Ha in Hw.
    assert (Hlt : a < length h) by (eapply lookup_lt_Some; exact Ha).
    intros o' Ho' k' v' Hin. destruct (okind ob).
    - injection Hw as <-. rewrite list_lookup_insert_eq in Ho' by exact Hlt.
      injection Ho' as <-. simpl in Hin. eapply alist_set_In. exact Hin.
    - destruct (String.eqb k "length").
      + destruct (array_length_of w) as [n|e]; [|discriminate].
        injection Hw as <-. rewrite list_lookup_insert_eq in Ho' by exact Hlt.
        injection Ho' as <-. simpl in Hin. unfold truncate_props in Hin.
        apply filter_In in Hin. right. tauto.
      + injection Hw as <-. rewrite list_lookup_insert_eq in Ho' by exact Hlt.
        injection Ho' as <-. simpl in Hin. eapply alist_set_In. exact Hin.
    - injection Hw as <-. rewrite list_lookup_insert_eq in Ho' by exact Hlt.
      injection Ho' as <-. simpl in Hin. eapply alist_set_In. exact Hin. }
  intros b o' k' v' Hb Hin.
  apply (valid_mono h h'); [lia|].
  destruct (Nat.eq_dec b a) as [->|Hne].
  - destruct (Hsub o' Hb k' v' Hin) as [[= -> ->]|Hold]; [exact Hv|].
    eapply Hc; eassumption.
  - rewrite Hfr in Hb by exact Hne. eapply Hc; eassumption.
Qed.

Lemma prop_read_valid (h : heap) (o : value) (k : string) :
  closed h -> valid h (prop_read h o k).
Proof.
  intros Hc. unfold prop_read.
  destruct (own_prop h o k) as [w|] eqn:Hown; [|exact I].
  unfold own_prop in Hown. destruct o as [| | | |s|a]; try discriminate.
  - unfold string_own in Hown. destruct (String.eqb k "length"); [injection Hown as <-; exact I|].
    destruct (key_index k); [|discriminate].
    destruct (String.get n s); [injection Hown as <-; exact I|discriminate].
  - destruct (h !! a) as [ob|] eqn:Ha; [|discriminate].
    destruct (kind_eqb (okind ob) KArray && String.eqb k "length");
      [injection Hown as <-; exact I|].
    eapply Hc; [exact Ha|]. apply alist_get_In_pair. exact Hown.
Qed.

(** In a store without dangling references, [set] writes only to the
    objects the path runs through and to fresh ones. *)
Lemma objectPath_set_segs_frame (segs : list string) (x : value) :
  forall h o h',
    ~ In "__proto__" segs ->
    closed h -> valid h o ->
    objectPath_set_segs h o segs x = Ok h' ->
    length h <= length h' /\
    forall b, b < length h -> ~ In b (visited h o segs) -> h' !! b = h !! b.
Proof.
  induction segs as [|k rest IH]; intros h o h' Hnp Hcl Hvo Hset; simpl in Hset.
  - injection Hset as <-. auto.
  - assert (Hk : k <> "__proto__") by (intros ->; apply Hnp; left; reflexivity).
    assert (Hrest : ~ In "__proto__" rest) by (intros Hin; apply Hnp; right; exact Hin).
    destruct rest as [|k1 rest'].
    + rewrite (assign_prop_ne _ _ _ _ Hk) in Hset.
      destruct (write_prop_is_ref _ _ _ _ _ Hset) as [a [ob [-> Ha]]].
      destruct (write_prop_frame _ _ _ _ _ Hset) as [Hlen Hfr].
      split; [lia|]. intros b Hb Hnin. apply Hfr. simpl in Hnin.
      intros ->. tauto.
    + set (rest := k1 :: rest') in *.
      set (cur := match o with VUndef | VNull => VUndef | _ => prop_read h o k end) in *.
      assert (Hvc : valid h cur).
      { unfold cur. destruct o; try exact I; apply prop_read_valid; exact Hcl. }
      destruct (is_prim o) eqn:Hprim.
      * assert (Hcase :
          (exists fresh h2, write_prop (h ++ [fresh]) o k (VRef (length h)) = Ok h2) \/
          (is_prim cur = true /\ objectPath_set_segs h cur rest x = Ok h')).
        { assert (Hpc : is_prim cur = true).
          { unfold cur. destruct o; try reflexivity; try discriminate.
            apply prop_read_is_prim_of_prim. reflexivity. }
          destruct cur eqn:Hcur; try (right; split; [exact Hpc|exact Hset]).
          left. unfold alloc in Hset. rewrite (assign_prop_ne _ _ _ _ Hk) in Hset.
          destruct (write_prop _ o k (VRef (length h))) as [h2|] eqn:Hw; [|discriminate].
          eauto. }
        destruct Hcase as [[fresh [h2 Hw]]|[Hpc Hrec]].
        -- destruct (write_prop_is_ref _ _ _ _ _ Hw) as [a [ob [-> _]]]. discriminate.
        -- destruct (IH h cur h' Hrest Hcl Hvc Hrec) as [Hlen Hfr]. split; [exact Hlen|].
           intros b Hb _. apply Hfr; [exact Hb|].
           rewrite visited_not_ref by exact Hpc. simpl. tauto.
      * destruct o as [| | | | |a]; try discriminate Hprim.
        change (visited h (VRef a) (k :: rest))
          with (a :: visited h (prop_read h (VRef a) k) rest).
        unfold cur in *. clear cur. simpl in Hvo.
        destruct (prop_read h (VRef a) k) eqn:Hcur;
          try (destruct (IH h _ h' Hrest Hcl Hvc Hset) as [Hlen Hfr]; split; [exact Hlen|];
               intros b0 Hb Hnin; apply Hfr; [exact Hb|]; simpl in Hnin; tauto).
        unfold alloc in Hset. rewrite (assign_prop_ne _ _ _ _ Hk) in Hset.
        set (fresh := if is_int_key k1 then mkObj KArray [] 0 else mkObj KObject [] 0) in *.
        destruct (write_prop (h ++ [fresh]) (VRef a) k (VRef (length h))) as [h2|] eqn:Hw;
          [|discriminate].
        simpl in Hset.
        destruct (write_prop_frame _ _ _ _ _ Hw) as [Hlen2 Hfr2].
        rewrite length_app in Hlen2. simpl in Hlen2.
        assert (Hcl1 : closed (h ++ [fresh])%list).
        { unfold fresh. destruct (is_int_key k1); apply closed_alloc_empty; exact Hcl. }
        assert (Hcl2 : closed h2).
        { eapply write_prop_closed; [exact Hcl1| |exact Hw].
          simpl. rewrite length_app. simpl. lia. }
        pose proof (write_prop_own_ref _ _ _ _ _ Hw) as Hown.
        assert (Hnext : prop_read h2 (VRef a) k = VRef (length h))
          by (unfold prop_read; rewrite Hown; reflexivity).
        rewrite Hnext in Hset.
        assert (Hv2 : valid h2 (VRef (length h))) by (simpl; lia).
        destruct (IH h2 _ h' Hrest Hcl2 Hv2 Hset) as [Hlen Hfr].
        split; [lia|]. intros b Hb Hnin. simpl in Hnin.
        assert (Hba : b <> a) by (intros ->; tauto).
        rewrite Hfr; [|lia|].
        -- rewrite Hfr2 by exact Hba. apply lookup_app_l. exact Hb.
        -- assert (Hfresh2 : h2 !! length h = Some fresh).
           { rewrite Hfr2 by lia. rewrite lookup_fresh0. reflexivity. }
           unfold rest. simpl visited. unfold prop_read, own_prop. rewrite Hfresh2.
           assert (Hk1 : (if kind_eqb (okind fresh) KArray && String.eqb k1 "length"
                          then Some (VNum (Z.of_nat (olen fresh)))
                          else alist_get k1 (oprops fresh)) = None).
           { unfold fresh. destruct (is_int_key k1) eqn:Hint; simpl; [|reflexivity].
             destruct (String.eqb_spec k1 "length") as [->|_];
               [discriminate Hint|reflexivity]. }
           rewrite Hk1. rewrite visited_not_ref by reflexivity.
           simpl. intros [Heq|[]]. lia.
Qed.

Lemma objectPath_set_segs_prim (segs : list string) (x : value) :
  forall h o h',
    ~ In "__proto__" segs ->
    segs <> [] -> is_prim o = true ->
    objectPath_set_segs h o segs x = Ok h' -> False.
Proof.
  induction segs as [|k rest IH]; intros h o h' Hnp Hne Hprim Hset; [congruence|].
  assert (Hk : k <> "__proto__") by (intros ->; apply Hnp; left; reflexivity).
  assert (Hrest : ~ In "__proto__" rest) by (intros Hin; apply Hnp; right; exact Hin).
  simpl in Hset. destruct rest as [|k1 rest'].
  - rewrite (assign_prop_ne _ _ _ _ Hk) in Hset.
    destruct (write_prop_is_ref _ _ _ _ _ Hset) as [a [ob [-> _]]]. discriminate.
  - set (cur := match o with VUndef | VNull => VUndef | _ => prop_read h o k end) in *.
    assert (Hpc : is_prim cur = true).
    { unfold cur. destruct o; try reflexivity; try discriminate;
        apply prop_read_is_prim_of_prim; reflexivity. }
    destruct cur eqn:Hcur;
      try (eapply (IH h _ h'); [exact Hrest|discriminate| |exact Hset]; reflexivity).
    + unfold alloc in Hset. rewrite (assign_prop_ne _ _ _ _ Hk) in Hset.
      destruct (write_prop _ o k (VRef (length h))) as [h2|] eqn:Hw; [|discriminate].
      destruct (write_prop_is_ref _ _ _ _ _ Hw) as [a [ob [-> _]]]. discriminate.
    + discriminate.
Qed.

Lemma visited_fresh (h : heap) (a : addr) (k1 : string) (rest : list string) :
  h !! a = Some (if is_int_key k1 then mkObj KArray [] 0 else mkObj KObject [] 0) ->
  visited h (VRef a) (k1 :: rest) = [a].
Proof.
  intros Ha. simpl. unfold prop_read, own_prop. rewrite Ha.
  assert (Hk1 : (if kind_eqb (okind (if is_int_key k1 then mkObj KArray [] 0
                                     else mkObj KObject [] 0)) KArray
                    && String.eqb k1 "length"
                 then Some (VNum (Z.of_nat (olen (if is_int_key k1 then mkObj KArray [] 0
                                                  else mkObj KObject [] 0))))
                 else alist_get k1 (oprops (if is_int_key k1 then mkObj KArray [] 0
                                            else mkObj KObject [] 0))) = None).
  { destruct (is_int_key k1) eqn:Hint; simpl; [|reflexivity].
    destruct (String.eqb_spec k1 "length") as [->|_]; [discriminate Hint|reflexivity]. }
  rewrite Hk1. rewrite visited_not_ref by reflexivity. reflexivity.
Qed.

Lemma own_prop_same_object (h h' : heap) (a : addr) (k : string) :
  h' !! a = h !! a -> own_prop h' (VRef a) k = own_prop h (VRef a) k.
Proof. intros H. unfold own_prop. rewrite H. reflexivity. Qed.

(** What [set] writes at a path, [get] reads back at that path, provided
    the path does not run through the same object twice. *)
Lemma objectPath_set_then_get (segs : list string) (x : value) :
  forall h o h',
    ~ In "__proto__" segs ->
    List.last segs "" <> "length" \/ (exists n, x = VNum n) ->
    segs <> [] -> closed h -> valid h o ->
    NoDup (visited h o segs) ->
    objectPath_set_segs h o segs x = Ok h' ->
    objectPath_get_segs h' o segs = x.
Proof.
  induction segs as [|k rest IH]; intros h o h' Hnp Hlast Hne Hcl Hvo Hnd Hset;
    [congruence|].
  assert (Hk : k <> "__proto__") by (intros ->; apply Hnp; left; reflexivity).
  assert (Hrest : ~ In "__proto__" rest) by (intros Hin; apply Hnp; right; exact Hin).
  destruct (is_prim o) eqn:Hprim;
    [exfalso; eapply objectPath_set_segs_prim;
       [exact Hnp|exact Hne|exact Hprim|exact Hset]|].
  simpl in Hset. destruct rest as [|k1 rest'].
  - rewrite (assign_prop_ne _ _ _ _ Hk) in Hset.
    assert (Hkx : k <> "length" \/ match x with VBool _ | VNull => False | _ => True end).
    { destruct Hlast as [Hl|[n ->]]; [left; exact Hl|right; exact I]. }
    pose proof (write_prop_own _ _ _ _ _ Hkx Hset) as Hown.
    destruct o as [| | | | |a]; try discriminate Hprim.
    cbn [objectPath_get_segs]. rewrite Hown. destruct x; reflexivity.
  - set (rest := k1 :: rest') in *.
    set (cur := match o with VUndef | VNull => VUndef | _ => prop_read h o k end) in *.
    destruct o as [| | | | |a]; try discriminate Hprim.
    unfold cur in *. clear cur. simpl in Hvo.
    change (visited h (VRef a) (k :: rest))
      with (a :: visited h (prop_read h (VRef a) k) rest) in Hnd.
    apply NoDup_cons in Hnd as [Ha Hnd]. rewrite list_elem_of_In in Ha.
    assert (Hvc : valid h (prop_read h (VRef a) k)) by (apply prop_read_valid; exact Hcl).
    assert (Hstep : forall cur,
              prop_read h (VRef a) k = cur -> cur <> VUndef ->
              objectPath_set_segs h cur rest x = Ok h' ->
              objectPath_get_segs h' (VRef a) (k :: rest) = x).
    { intros cur Hcur Hdef Hrec.
      assert (Hown : own_prop h (VRef a) k = Some cur).
      { unfold prop_read in Hcur. destruct (own_prop h (VRef a) k); congruence. }
      rewrite Hcur in Hnd, Ha, Hvc.
      destruct (objectPath_set_segs_frame rest x h cur h' Hrest Hcl Hvc Hrec) as [_ Hfr].
      change (objectPath_get_segs h' (VRef a) (k :: rest))
        with (match own_prop h' (VRef a) k with
              | None | Some VUndef => VUndef
              | Some w => objectPath_get_segs h' w rest
              end).
      rewrite (own_prop_same_object h h' a k (Hfr a Hvo Ha)), Hown.
      rewrite (IH h cur h' Hrest Hlast ltac:(discriminate) Hcl Hvc Hnd Hrec).
      destruct cur; try reflexivity. congruence. }
    destruct (prop_read h (VRef a) k) eqn:Hcur;
      try (apply (Hstep _ eq_refl); [discriminate|exact Hset]).
    clear Hstep. unfold alloc in Hset. rewrite (assign_prop_ne _ _ _ _ Hk) in Hset.
    set (fresh := if is_int_key k1 then mkObj KArray [] 0 else mkObj KObject [] 0) in *.
    destruct (write_prop (h ++ [fresh]) (VRef a) k (VRef (length h))) as [h2|] eqn:Hw;
      [|discriminate].
    simpl in Hset.
    destruct (write_prop_frame _ _ _ _ _ Hw) as [Hlen2 Hfr2].
    rewrite length_app in Hlen2. simpl in Hlen2.
    assert (Hcl1 : closed (h ++ [fresh])%list).
    { unfold fresh. destruct (is_int_key k1); apply closed_alloc_empty; exact Hcl. }
    assert (Hcl2 : closed h2).
    { eapply write_prop_closed; [exact Hcl1| |exact Hw].
      simpl. rewrite length_app. simpl. lia. }
    pose proof (write_prop_own_ref _ _ _ _ _ Hw) as Hown.
    assert (Hnext : prop_read h2 (VRef a) k = VRef (length h))
      by (unfold prop_read; rewrite Hown; reflexivity).
    rewrite Hnext in Hset.
    assert (Hv2 : valid h2 (VRef (length h))) by (simpl; lia).
    assert (Hfresh2 : h2 !! length h = Some fresh).
    { rewrite Hfr2 by lia. rewrite lookup_fresh0. reflexivity. }
    assert (Hvis : visited h2 (VRef (length h)) rest = [length h])
      by (apply visited_fresh; exact Hfresh2).
    destruct (objectPath_set_segs_frame rest x h2 _ h' Hrest Hcl2 Hv2 Hset) as [_ Hfr].
    change (objectPath_get_segs h' (VRef a) (k :: rest))
      with (match own_prop h' (VRef a) k with
            | None | Some VUndef => VUndef
            | Some w => objectPath_get_segs h' w rest
            end).
    rewrite (own_prop_same_object h2 h' a k), Hown.
    + apply (IH h2 _ h'); try assumption; [discriminate|].
      rewrite Hvis. apply NoDup_singleton.
    + apply Hfr; [lia|]. rewrite Hvis. simpl. intros [Heq|[]]. lia.
Qed.

Lemma plain_tags_same_objects (h h' : heap) (this ta : addr) (ot : obj) :
  plain_tags h this ta ot ->
  h' !! this = h !! this -> h' !! ta = h !! ta ->
  plain_tags h' this ta ot.
Proof.
  intros (Hf & Hta & Hk & Hne & Hsh) Hthis Htags. repeat split; try assumption.
  - unfold field, prop_read. rewrite (own_prop_same_object h h' this _ Hthis). exact Hf.
  - rewrite Htags. exact Hta.
Qed.

Lemma field_is_object (h : heap) (this : addr) (f : string) (a : addr) :
  field h this f = VRef a -> this < length h.
Proof.
  unfold field, prop_read, own_prop. destruct (h !! this) eqn:Hthis; [|discriminate].
  intros _. eapply lookup_lt_Some. exact Hthis.
Qed.

Section SetGet.

Variable to_primitive : heap -> addr -> string.

Lemma pathMap_untranslated (h h' : heap) (this ta : addr) (ot : obj) (path : jspath) :
  plain_tags h this ta ot -> plain_tags h' this ta ot -> untranslated ot ->
  pathMap to_primitive h' this path = pathMap to_primitive h this path.
Proof.
  intros Hp Hp' [Hgl _]. unfold pathMap, getGlossaryTag.
  rewrite (getTag_plain to_primitive h this ta ot) by exact Hp.
  rewrite (getTag_plain to_primitive h' this ta ot) by exact Hp'.
  rewrite Hgl. destruct path; try reflexivity; cbn [bind];
    rewrite !pathMap_loop_no_glossary by reflexivity; cbn [bind];
    rewrite !join_elem_strings; reflexivity.
Qed.

Lemma scoped_untranslated (h h' : heap) (this ta : addr) (ot : obj) (path : jspath) :
  plain_tags h this ta ot -> plain_tags h' this ta ot -> untranslated ot ->
  scoped to_primitive h' this path = scoped to_primitive h this path.
Proof.
  intros Hp Hp' [_ Hsc]. unfold scoped.
  rewrite (getTag_plain to_primitive h this ta ot) by exact Hp.
  rewrite (getTag_plain to_primitive h' this ta ot) by exact Hp'.
  destruct (alist_get tag_SCOPE (oprops ot)) as [v|]; [|reflexivity].
  cbn [bind]. rewrite (to_str_prim to_primitive h h' v Hsc). reflexivity.
Qed.


End SetGet.

Lemma scope_test_heap_closed : closed scope_test_heap.
Proof.
  intros a o k v Ha Hin.
  repeat (destruct a as [|a]; [injection Ha as <-; simpl in Hin;
            repeat (destruct Hin as [[= <- <-]|Hin]; [simpl; lia|]); destruct Hin|]).
  discriminate.
Qed.


(** ** Deleting along a path *)

Lemma objectPath_del_segs_inner (h : heap) (o : value) (k k1 : string)
    (rest : list string) :
  objectPath_del_segs h o (k :: k1 :: rest)
  = match o with
    | VUndef | VNull => Ok h
    | _ =>
        if (is_int_key k && is_kind h o KArray)
           || match own_prop h o k with Some _ => true | None => false end
        then objectPath_del_segs h (prop_read h o k) (k1 :: rest)
        else Ok h
    end.
Proof. destruct o; reflexivity. Qed.

(** [del] either leaves the store as it is, and then nothing is read at the
    path, or removes the last segment's key from the container the path
    leads to, when that container is not an array. *)
Lemma objectPath_del_segs_result (segs : list string) :
  forall h o h',
    is_kind h (path_parent h o segs) KArray = false ->
    objectPath_del_segs h o segs = Ok h' ->
    segs <> [] ->
    (h' = h /\ objectPath_get_segs h o segs = VUndef) \/
    (exists a ob,
        path_parent h o segs = VRef a /\ h !! a = Some ob /\
        h' = <[a := mkObj (okind ob) (alist_del (List.last segs "") (oprops ob))
                          (olen ob)]> h).
Proof.
  induction segs as [|k rest IH]; intros h o h' Harr Hdel Hne; [congruence|].
  destruct rest as [|k1 rest'].
  - cbn [path_parent] in Harr. cbn [objectPath_del_segs] in Hdel.
    cbn [objectPath_get_segs path_parent List.last].
    rewrite Harr, andb_false_r in Hdel. cbn [orb] in Hdel.
    destruct o as [| |b|n|s|a];
      try (left; split; [congruence|reflexivity]);
      destruct (own_prop h _ k) as [w|] eqn:Hown;
      try discriminate Hdel;
      try (left; split; [congruence|reflexivity]).
    destruct (h !! a) as [ob|] eqn:Ha.
    + right. exists a, ob. repeat split; congruence.
    + unfold own_prop in Hown. rewrite Ha in Hown. discriminate.
  - rewrite objectPath_del_segs_inner in Hdel.
    set (rest := k1 :: rest') in *.
    change (path_parent h o (k :: rest)) with (path_parent h (prop_read h o k) rest) in *.
    change (List.last (k :: rest) "") with (List.last rest "").
    assert (Hstep :
              (if (is_int_key k && is_kind h o KArray)
                  || match own_prop h o k with Some _ => true | None => false end
               then objectPath_del_segs h (prop_read h o k) rest
               else Ok h) = Ok h' ->
              (h' = h /\ match own_prop h o k with
                         | None | Some VUndef => VUndef
                         | Some w => objectPath_get_segs h w rest
                         end = VUndef) \/
              (exists a ob,
                  path_parent h (prop_read h o k) rest = VRef a /\ h !! a = Some ob /\
                  h' = <[a := mkObj (okind ob) (alist_del (List.last rest "") (oprops ob))
                                    (olen ob)]> h)).
    { intros Hd.
      destruct ((is_int_key k && is_kind h o KArray)
                || match own_prop h o k with Some _ => true | None => false end) eqn:Hc.
      - destruct (IH h (prop_read h o k) h' Harr Hd ltac:(discriminate)) as [[-> Hg]|Hr];
          [|right; exact Hr].
        left. split; [reflexivity|]. unfold prop_read in Hg.
        destruct (own_prop h o k) as [w|]; [|reflexivity].
        destruct w; try reflexivity; exact Hg.
      - left. split; [congruence|]. apply orb_false_elim in Hc as [_ Hown].
        destruct (own_prop h o k); [discriminate|reflexivity]. }
    cbn [objectPath_get_segs].
    destruct o as [| |b|n|s|a];
      try (left; split; [congruence|reflexivity]);
      exact (Hstep Hdel).
Qed.

(** Once a key is removed from a container that is not an array, nothing is
    read at a path that leads to that container and ends in that key. *)
Lemma objectPath_get_after_delete (h : heap) (a : addr) (ob : obj) (k : string) :
  h !! a = Some ob -> kind_eqb (okind ob) KArray = false ->
  NoDup (map fst (oprops ob)) ->
  forall segs o,
    segs <> [] -> path_parent h o segs = VRef a -> List.last segs "" = k ->
    objectPath_get_segs
      (<[a := mkObj (okind ob) (alist_del k (oprops ob)) (olen ob)]> h) o segs
    = VUndef.
Proof.
  intros Ha Hk Hnd. set (h' := <[a := _]> h).
  assert (Hlt : a < length h) by (eapply lookup_lt_Some; exact Ha).
  assert (Hgone : own_prop h' (VRef a) k = None).
  { unfold own_prop, h'. rewrite list_lookup_insert_eq by exact Hlt. cbn [okind oprops].
    rewrite Hk. cbn [andb]. apply alist_get_del_eq. exact Hnd. }
  assert (Hother : forall o k0, (o <> VRef a \/ k0 <> k) ->
                                own_prop h' o k0 = own_prop h o k0).
  { intros o k0 Hor. unfold own_prop. destruct o as [| | | | |b]; try reflexivity.
    destruct (Nat.eq_dec b a) as [->|Hb].
    - destruct Hor as [Hc|Hk0]; [congruence|].
      unfold h'. rewrite list_lookup_insert_eq by exact Hlt. rewrite Ha.
      cbn [okind oprops olen]. rewrite Hk. cbn [andb].
      apply alist_get_del_ne. exact Hk0.
    - unfold h'. rewrite list_lookup_insert_ne by congruence. reflexivity. }
  induction segs as [|k0 rest IH]; intros o Hne Hpar Hlast; [congruence|].
  destruct rest as [|k1 rest'].
  - cbn [path_parent List.last] in Hpar, Hlast. subst o k0.
    cbn [objectPath_get_segs]. rewrite Hgone. reflexivity.
  - set (rest := k1 :: rest') in *.
    change (path_parent h o (k0 :: rest)) with (path_parent h (prop_read h o k0) rest) in Hpar.
    change (List.last (k0 :: rest) "") with (List.last rest "") in Hlast.
    cbn [objectPath_get_segs].
    assert (Hdec : o = VRef a \/ o <> VRef a).
    { destruct o as [| | | | |b]; try (right; discriminate).
      destruct (Nat.eq_dec b a) as [->|Hb]; [left; reflexivity|right; congruence]. }
    destruct Hdec as [->|Ho].
    + destruct (String.eqb_spec k0 k) as [->|Hk0].
      * rewrite Hgone. reflexivity.
      * rewrite (Hother (VRef a) k0) by (right; exact Hk0).
        unfold prop_read in Hpar.
        destruct (own_prop h (VRef a) k0) as [w|]; [|reflexivity].
        rewrite (IH w ltac:(discriminate) Hpar Hlast). destruct w; reflexivity.
    + rewrite (Hother o k0) by (left; exact Ho).
      unfold prop_read in Hpar.
      destruct (own_prop h o k0) as [w|]; [|destruct o; reflexivity].
      rewrite (IH w ltac:(discriminate) Hpar Hlast).
      destruct o; try reflexivity; destruct w; reflexivity.
Qed.

Section DelHas.

Variable to_primitive : heap -> addr -> string.

(** X12: After [del(path)] nothing is left at the path: [has(path)] is false and
    [get(path)] is undefined, when the tags hold no glossary and a
    primitive scope (or none), the resolved path is not empty, and the
    container of its last segment is not an array (whose elements would
    shift), nor the Box, nor its tags. *)
Theorem del_then_has (h h' : heap) (this ta : addr) (ot : obj)
    (path path' : jspath) (p : string) :
  plain_tags h this ta ot -> untranslated ot -> wf_keys h ->
  scoped to_primitive h this path = Ok path' ->
  pathMap to_primitive h this path' = Ok p ->
  p <> "" ->
  let parent := path_parent h (field h this "_payload") (split_dot p) in
  parent <> VRef this -> parent <> VRef ta ->
  is_kind h parent KArray = false ->
  del to_primitive h this path = Ok h' ->
  has to_primitive h' this path = Ok false /\
  (path_truthy path = true -> get to_primitive h' this path = Ok VUndef).
Proof.
  intros Hp Hun Hwf Hsc Hpm Hne parent Hthis Hta Harr Hdel.
  pose proof (split_dot_aux_nonempty "" p) as Hsegs. fold (split_dot p) in Hsegs.
  assert (Hend : forall h1,
            plain_tags h1 this ta ot ->
            objectPath_get_segs h1 (field h1 this "_payload") (split_dot p) = VUndef ->
            has to_primitive h1 this path = Ok false /\
            (path_truthy path = true -> get to_primitive h1 this path = Ok VUndef)).
  { intros h1 Hp1 Hget.
    assert (Hsc1 : scoped to_primitive h1 this path = Ok path')
      by (rewrite (scoped_untranslated to_primitive h h1 this ta ot path Hp Hp1 Hun);
          exact Hsc).
    assert (Hpm1 : pathMap to_primitive h1 this path' = Ok p)
      by (rewrite (pathMap_untranslated to_primitive h h1 this ta ot path' Hp Hp1 Hun);
          exact Hpm).
    split.
    - unfold has. rewrite Hsc1. cbn [bind]. rewrite Hpm1. cbn [bind].
      unfold objectPath_get. destruct (String.eqb_spec p "") as [|_]; [congruence|].
      rewrite Hget. reflexivity.
    - intros Htruthy. unfold get. rewrite Htruthy. cbn [negb].
      rewrite Hsc1. cbn [bind]. rewrite Hpm1. cbn [bind].
      unfold objectPath_get. destruct (String.eqb_spec p "") as [|_]; [congruence|].
      rewrite Hget. reflexivity. }
  unfold del in Hdel. rewrite Hsc in Hdel. cbn [bind] in Hdel.
  rewrite Hpm in Hdel. cbn [bind] in Hdel.
  destruct (objectPath_has h (field h this "_payload") p) eqn:Hhas.
  - unfold objectPath_del in Hdel.
    destruct (String.eqb_spec p "") as [|_]; [congruence|].
    destruct (objectPath_del_segs_result _ _ _ _ Harr Hdel Hsegs)
      as [[-> Hget]|[a [ob [Hpar [Ha ->]]]]].
    + apply Hend; assumption.
    + fold parent in Hpar.
      assert (Hat : a <> this) by congruence.
      assert (Hata : a <> ta) by congruence.
      assert (Hp' : plain_tags
                      (<[a := mkObj (okind ob)
                                    (alist_del (List.last (split_dot p) "") (oprops ob))
                                    (olen ob)]> h) this ta ot).
      { apply (plain_tags_same_objects h); [exact Hp| |];
          apply list_lookup_insert_ne; assumption. }
      apply Hend; [exact Hp'|].
      replace (field _ this "_payload") with (field h this "_payload")
        by (unfold field, prop_read, own_prop;
            rewrite list_lookup_insert_ne by exact Hat; reflexivity).
      apply objectPath_get_after_delete; try assumption; try reflexivity.
      * assert (Hk : is_kind h (VRef a) KArray = false)
          by (rewrite <- Hpar; exact Harr).
        unfold is_kind in Hk. rewrite Ha in Hk. exact Hk.
      * eapply Hwf. exact Ha.
  - injection Hdel as <-. apply Hend; [exact Hp|].
    apply objectPath_has_false_get. exact Hhas.
Qed.

End DelHas.

Lemma scope_test_heap_wf_keys : wf_keys scope_test_heap.
Proof.
  intros a o Ha.
  repeat (destruct a as [|a];
          [injection Ha as <-; simpl;
           repeat (apply NoDup_cons; split;
                   [rewrite list_elem_of_In; simpl; intuition discriminate|]);
           apply NoDup_nil; exact I|]).
  discriminate.
Qed.

Lemma del_then_has_witness :
  exists h',
    del plain_to_primitive scope_test_heap 4 (PStr "c") = Ok h' /\
    has plain_to_primitive h' 4 (PStr "c") = Ok false /\
    (path_truthy (PStr "c") = true ->
     get plain_to_primitive h' 4 (PStr "c") = Ok VUndef).
Proof.
  eexists. split; [vm_compute; reflexivity|].
  apply (del_then_has plain_to_primitive scope_test_heap _ 4 3
           (mkObj KObject [("scope", VStr "a.b")] 0)
           (PStr "c") (PStr "a.b.c") "a.b.c").
  - repeat split; try reflexivity. lia.
  - split; reflexivity.
  - exact scope_test_heap_wf_keys.
  - reflexivity.
  - reflexivity.
  - discriminate.
  - vm_compute. discriminate.
  - vm_compute. discriminate.
  - reflexivity.
  - vm_compute. reflexivity.
Defined.
